(** * Ising 2D, Metropolis de un solo espin: [Codigo/Simulacion.py]

    A shallow embedding of the Monte Carlo engine of [Simulacion.py] and the
    properties of its specification.

    Numbers.  The lattice is a float64 array whose cells only ever hold
    [-1.0] and [1.0] ([gen_array_espines] writes these two values and
    [cambio_espin] negates a cell), and [J] is a Python [int]; both are
    modelled in [Z], where the sums of [var_termo] are exact.  The floats
    produced by a division ([E /= 2], [M /= N], the means, the temperatures)
    are modelled as rationals [Q]; infinities and nan are outside the model,
    and where numpy would produce nan the model stops with [NanValue].
    Within the sweep of [main] these rationals are computed exactly, and
    what is stated about them there (bounds, positions, order) survives
    float64 rounding.  The average that [promedios] returns is stated with
    the float64 arithmetic of [np.mean] itself: [promedios_f64] adds the
    entries up as numpy does and rounds every operation to the nearest
    float64.

    Randomness.  numpy's global generator is an explicit state [rng] that is
    threaded through every function that draws from it.

    Errors.  A Python exception is a value [Err e] of the result type. *)

From Stdlib Require Import ZArith QArith Lia Bool.
From Stdlib Require Qcanon.
From stdpp Require Import base option list.

Local Open Scope Z_scope.

(** ** Exceptions and the two monads *)

Inductive error : Type :=
  | IndexError
  | ZeroDivisionError
  | ValueError
  | NanValue.

Inductive res (A : Type) : Type :=
  | Ok (a : A)
  | Err (e : error).
Arguments Ok {A} a.
Arguments Err {A} e.

#[global] Instance res_ret : MRet res := fun A a => Ok a.
#[global] Instance res_bind : MBind res := fun A B f m =>
  match m with
  | Ok a => f a
  | Err e => Err e
  end.

(** The state of the random generator: the integers and the reals it is
    still to hand out.  Drawing takes the head and shifts the tape. *)
Record rng : Type := mk_rng {
  enteros : nat → Z;
  reales : nat → Q
}.

(** Computations that draw random numbers and may raise. *)
Definition Az (A : Type) : Type := rng → res (A * rng).

#[global] Instance Az_ret : MRet Az := fun A a g => Ok (a, g).
#[global] Instance Az_bind : MBind Az := fun A B f m g =>
  match m g with
  | Ok (a, g') => f a g'
  | Err e => Err e
  end.

Definition lift {A : Type} (m : res A) : Az A := fun g =>
  match m with
  | Ok a => Ok (a, g)
  | Err e => Err e
  end.

(** [for x in xs: acc = f(acc, x)], stopping at the first exception. *)
Fixpoint foldM {A B : Type} (f : A → B → res A) (xs : list B) (a : A) : res A :=
  match xs with
  | [] => Ok a
  | x :: xs' => a' ← f a x; foldM f xs' a'
  end.

Fixpoint foldAz {A B : Type} (f : A → B → Az A) (xs : list B) (a : A) : Az A :=
  match xs with
  | [] => mret a
  | x :: xs' => a' ← f a x; foldAz f xs' a'
  end.

(** ** numpy and Python primitives *)

(** [range(0, n)] and [np.arange(n)]. *)
Definition range (n : Z) : list Z := map Z.of_nat (seq 0 (Z.to_nat n)).

(** Resolution of an index [i] into an axis of length [len]: a negative
    index counts from the end, anything outside [-len, len) raises. *)
Definition np_index (len : nat) (i : Z) : res nat :=
  if (0 <=? i) && (i <? Z.of_nat len) then Ok (Z.to_nat i)
  else if (- Z.of_nat len <=? i) && (i <? 0) then Ok (Z.to_nat (i + Z.of_nat len))
  else Err IndexError.

(** [a[i]] *)
Definition getitem {A : Type} (a : list A) (i : Z) : res A :=
  k ← np_index (length a) i;
  match a !! k with
  | Some x => Ok x
  | None => Err IndexError
  end.

(** [a[i] = v] *)
Definition setitem {A : Type} (a : list A) (i : Z) (v : A) : res (list A) :=
  k ← np_index (length a) i;
  Ok (<[k := v]> a).

(** A two-dimensional array, as the list of its rows. *)
Abbreviation lattice := (list (list Z)).

(** [s[i, j]] *)
Definition getitem2 (s : lattice) (i j : Z) : res Z :=
  fila ← getitem s i;
  getitem fila j.

(** [s[i, j] = v] *)
Definition setitem2 (s : lattice) (i j : Z) (v : Z) : res lattice :=
  fila ← getitem s i;
  fila' ← setitem fila j v;
  setitem s i fila'.

(** [pos == v], a boolean mask. *)
Definition mask_eq (pos : list Z) (v : Z) : list bool :=
  map (fun x => x =? v) pos.

(** [pos[mask] = v] *)
Definition mask_set (pos : list Z) (mask : list bool) (v : Z) : list Z :=
  zip_with (fun x (b : bool) => if b then v else x) pos mask.

(** [np.ones(n)]; a negative size raises. *)
Definition np_ones (n : Z) : res (list Q) :=
  if n <? 0 then Err ValueError else Ok (replicate (Z.to_nat n) 1%Q).

(** [np.zeros(n)] *)
Definition np_zeros (n : Z) : res (list Q) :=
  if n <? 0 then Err ValueError else Ok (replicate (Z.to_nat n) 0%Q).

(** [a[t:]] *)
Definition slice_from {A : Type} (a : list A) (t : Z) : list A :=
  if 0 <=? t then drop (Z.to_nat t) a
  else drop (Z.to_nat (Z.of_nat (length a) + t)) a.

Definition Qsum (a : list Q) : Q := foldr Qplus 0%Q a.

(** [np.mean(a)] in exact arithmetic: the sum over the number of entries;
    nan on an empty array. *)
Definition np_mean (a : list Q) : res Q :=
  match a with
  | [] => Err NanValue
  | _ => Ok (Qsum a / inject_Z (Z.of_nat (length a)))%Q
  end.

(** ** float64 arithmetic

    A finite float64 value is a rational, and an arithmetic operation
    returns the float64 value nearest to its exact result, a tie going to
    the even significand (IEEE 754, round to nearest even; 53 bits of
    significand, least exponent [-1074]).  Overflow to infinity and the
    sign of zero are outside the model. *)

(** [floor (log2 (a / d))], for [0 < a] and [0 < d]. *)
Definition log2_cociente (a d : Z) : Z :=
  let l := Z.log2 a - Z.log2 d in
  if (if 0 <=? l then a <? d * 2 ^ l else a * 2 ^ (- l) <? d) then l - 1 else l.

(** The integer nearest to [n / d], a tie going to the even one, for
    [0 <= n] and [0 < d]. *)
Definition entero_cercano (n d : Z) : Z :=
  let q := n / d in
  let r := n mod d in
  if 2 * r <? d then q
  else if d <? 2 * r then q + 1
  else if Z.even q then q else q + 1.

(** The float64 value nearest to [x]: [m * 2^e] with [e] the exponent of
    the last bit of the significand and [m] the rounded significand. *)
Definition redondear64 (x : Q) : Q :=
  let x := Qred x in
  let a := Z.abs (Qnum x) in
  let d := Zpos (Qden x) in
  if a =? 0 then 0%Q
  else
    let e := Z.max (log2_cociente a d - 52) (-1074) in
    let y := if 0 <=? e then inject_Z (entero_cercano a (d * 2 ^ e) * 2 ^ e)
             else (entero_cercano (a * 2 ^ (- e)) d # Z.to_pos (2 ^ (- e)))%Q in
    if Qnum x <? 0 then (- y)%Q else y.

(** [x + y] and [x / y] on float64 values. *)
Definition suma64 (x y : Q) : Q := redondear64 (x + y).
Definition div64 (x y : Q) : Q := redondear64 (x / y).

(** [for x in a: res += x] *)
Definition acumular (res : Q) (a : list Q) : Q := foldl suma64 res a.

(** numpy's [pairwise_sum] over the [n >= 8] entries of a block: eight
    accumulators [r[0..7]] start at the first eight entries and take in the
    entries eight at a time, [r[j] += a[i + j]] for [i = 8, 16, ...] below
    [n - n % 8]; they are added up as
    [((r0 + r1) + (r2 + r3)) + ((r4 + r5) + (r6 + r7))] and the remaining
    [n % 8] entries are added one by one. *)
Definition pairwise_sum_bloque (a : list Q) : Q :=
  let n := length a in
  let m := (n - n mod 8)%nat in
  let r := foldl (fun r i => zip_with suma64 r (take 8 (drop i a)))
                 (take 8 a)
                 (map (fun k => (8 * S k)%nat) (seq 0 (m / 8 - 1))) in
  let r_ (j : nat) := default 0%Q (r !! j) in
  let res := suma64 (suma64 (suma64 (r_ 0%nat) (r_ 1%nat)) (suma64 (r_ 2%nat) (r_ 3%nat)))
                    (suma64 (suma64 (r_ 4%nat) (r_ 5%nat)) (suma64 (r_ 6%nat) (r_ 7%nat))) in
  acumular res (drop m a).

(** numpy's [pairwise_sum]: fewer than eight entries are added one by one
    from zero; up to [128] entries are summed as one block; a longer array
    is cut at [n2 = n / 2 - (n / 2) % 8] and the sums of the two parts are
    added.  Each call halves the array, so [fuel = length a] calls suffice
    and the last branch is never taken. *)
Fixpoint pairwise_sum (fuel : nat) (a : list Q) : Q :=
  let n := length a in
  if (n <? 8)%nat then acumular 0%Q a
  else if (n <=? 128)%nat then pairwise_sum_bloque a
  else
    match fuel with
    | S fuel' =>
        let n2 := (n / 2 - (n / 2) mod 8)%nat in
        suma64 (pairwise_sum fuel' (take n2 a)) (pairwise_sum fuel' (drop n2 a))
    | O => 0%Q
    end.

(** [np.add.reduce(a)] on a contiguous float64 array: the pairwise sum is
    added to the initial value zero. *)
Definition np_add_reduce (a : list Q) : Q :=
  suma64 0%Q (pairwise_sum (length a) a).

(** [np.mean(a)] with the float64 arithmetic of numpy: the sum of
    [np.add.reduce] divided by the number of entries; nan on an empty
    array. *)
Definition np_mean_f64 (a : list Q) : res Q :=
  match a with
  | [] => Err NanValue
  | _ => Ok (div64 (np_add_reduce a) (inject_Z (Z.of_nat (length a))))
  end.

(** [np.linspace(start, stop, num)]: [num] samples [start + k*step] with
    [step = (stop - start)/(num - 1)]. *)
Definition np_linspace (start stop : Q) (num : Z) : res (list Q) :=
  if num <? 0 then Err ValueError
  else Ok (map (fun k => (start + inject_Z k * ((stop - start) / inject_Z (num - 1)))%Q)
               (range num)).

(** [x < y] on floats. *)
Definition Qlt_bool (x y : Q) : bool :=
  (Qnum x * Zpos (Qden y) <? Qnum y * Zpos (Qden x)).

(** [np.random.randint(lo, hi)]: an integer in [lo, hi); raises when the
    interval is empty. *)
Definition randint (lo hi : Z) : Az Z := fun g =>
  if lo <? hi
  then Ok (lo + enteros g 0%nat mod (hi - lo),
           mk_rng (fun n => enteros g (S n)) (reales g))
  else Err ValueError.

(** [np.random.uniform(0, 1)] *)
Definition uniform : Az Q := fun g =>
  Ok (reales g 0%nat, mk_rng (enteros g) (fun n => reales g (S n))).

(** [np.random.uniform(0, 1, n)], in drawing order. *)
Fixpoint uniform_n (n : nat) : Az (list Q) :=
  match n with
  | O => mret []
  | S n' => u ← uniform; us ← uniform_n n'; mret (u :: us)
  end.

(** ** Concrete inputs, to run the model on *)

(** The lattice with every spin up. *)
Definition todos_uno (L : nat) : lattice := replicate L (replicate L 1).

(** A 3 x 3 lattice of spins. *)
Definition red_ejemplo : lattice := [[1; -1; 1]; [-1; -1; 1]; [1; 1; -1]].

Definition rng_ejemplo : rng :=
  mk_rng (fun n => Z.of_nat n * 7 + 3) (fun n => (1 # 3)%Q).

(** A rational stand-in for [np.exp] on the negative axis. *)
Definition exp_racional (x : Q) : Q := (1 / (1 - x))%Q.

(** A stand-in for [np.arcsinh]: the float [np.arcsinh(1)] to six digits. *)
Definition arcsinh_racional (x : Q) : Q := (881374 # 1000000)%Q.

(** Closes [Forall] goals over a list given by its elements. *)
Ltac lista_concreta :=
  repeat first [ apply Forall_nil_2 | apply Forall_cons_2
               | reflexivity | lia | (left; reflexivity) | (right; reflexivity) ].

(** ** The program *)

Section Simulacion.

(** The module's globals [N], [J], [cant_iter], [t_estable], [cant_Temp],
    and the two library functions whose values are floats the model does
    not compute: [np.exp] and [np.arcsinh]. *)
Variables (N J cant_iter t_estable cant_Temp : Z).
Variables (np_exp np_arcsinh : Q → Q).

(** [long_lado = int(np.sqrt(N))], for [N >= 0] (the module does not load
    with a negative [N]). *)
Definition long_lado : Z := Z.sqrt N.

(** [tiempo_sim = np.arange(cant_iter)] *)
Definition tiempo_sim : list Z := range cant_iter.

Definition beta_critico : Q := (np_arcsinh 1 / inject_Z (2 * J))%Q.
Definition T_critico : Q := (1 / beta_critico)%Q.

Definition pos_vecinos (i j : Z) : list Z :=
  let pos := [i - 1; i + 1; j - 1; j + 1] in
  let ii_1 := mask_eq pos (-1) in
  let ii_2 := mask_eq pos long_lado in
  let pos := mask_set pos ii_1 (long_lado - 1) in
  let pos := mask_set pos ii_2 0 in
  pos.

(** The body of the inner loop of [var_termo]; the accumulators are
    [(E, M)]. *)
Definition var_termo_celda (s : lattice) (i : Z) (acc : Z * Z) (j : Z) : res (Z * Z) :=
  let '(E, M) := acc in
  let pos := pos_vecinos i j in
  sij ← getitem2 s i j;
  let M := M + sij in
  sij ← getitem2 s i j;
  p0 ← getitem pos 0;
  arriba ← getitem2 s p0 j;
  p1 ← getitem pos 1;
  abajo ← getitem2 s p1 j;
  p2 ← getitem pos 2;
  izq ← getitem2 s i p2;
  p3 ← getitem pos 3;
  der ← getitem2 s i p3;
  let E := E + - J * sij * (arriba + abajo + izq + der) in
  Ok (E, M).

Definition var_termo_fila (s : lattice) (acc : Z * Z) (i : Z) : res (Z * Z) :=
  foldM (var_termo_celda s i) (range long_lado) acc.

Definition var_termo (s : lattice) : res (Q * Q) :=
  '(E, M) ← foldM (var_termo_fila s) (range long_lado) (0, 0);
  let E := (inject_Z E / 2)%Q in
  M ← (if N =? 0 then Err ZeroDivisionError
       else Ok (inject_Z M / inject_Z N)%Q);
  Ok (E, M).

(** [s = uniform(0, 1, (L, L)); ii = s < 0.5; s[ii] = -1; s[~ii] = 1]:
    the two masks are complementary, so every cell is overwritten, with
    [-1] under [ii] and with [1] elsewhere. *)
Definition gen_array_espines : Az lattice :=
  s ← foldAz (fun filas (_ : Z) =>
                fila ← uniform_n (Z.to_nat long_lado); mret (filas ++ [fila]))
             (range long_lado) [];
  let ii := map (map (fun u => Qlt_bool u (1 # 2))) s in
  mret (map (map (fun b : bool => if b then -1 else 1)) ii).

Definition cambio_espin (s : lattice) (beta : Q) : Az (lattice * (Q * Q)) :=
  pos_x ← randint 0 long_lado;
  pos_y ← randint 0 long_lado;
  '(E_0, M_0) ← lift (var_termo s);
  v ← lift (getitem2 s pos_x pos_y);
  s ← lift (setitem2 s pos_x pos_y (- v));
  '(E_f, M_f) ← lift (var_termo s);
  let Delta_E := (E_f - E_0)%Q in
  if Qlt_bool 0 Delta_E then
    p ← uniform;
    if negb (Qlt_bool p (np_exp (- beta * Delta_E))) then
      v ← lift (getitem2 s pos_x pos_y);
      s ← lift (setitem2 s pos_x pos_y (- v));
      mret (s, (E_f, M_0))
    else mret (s, (E_f, M_0))
  else mret (s, (E_f, M_0)).

(** The body of the loop of [evolucion]; the state is the lattice and
    the two arrays. *)
Definition evolucion_paso (beta : Q) (st : lattice * list Q * list Q) (i : Z)
  : Az (lattice * list Q * list Q) :=
  let '(s, array_E, array_M) := st in
  '(s, (E_f, M_f)) ← cambio_espin s beta;
  array_E ← lift (setitem array_E i E_f);
  array_M ← lift (setitem array_M i M_f);
  mret (s, array_E, array_M).

(** Returns the two arrays, and the lattice as the call leaves it. *)
Definition evolucion (tiempo_sim : list Z) (beta : Q) (s : lattice)
  : Az (lattice * (list Q * list Q)) :=
  '(E_0, M_0) ← lift (var_termo s);
  array_E ← lift (np_ones cant_iter);
  array_M ← lift (np_ones cant_iter);
  array_E ← lift (setitem array_E 0 E_0);
  array_M ← lift (setitem array_M 0 M_0);
  '(s, array_E, array_M) ←
    foldAz (evolucion_paso beta) (drop 1 tiempo_sim) (s, array_E, array_M);
  mret (s, (array_E, array_M)).

Definition promedios (array_E array_M : list Q) (t_estable : Z) : res (Q * Q) :=
  E_prom ← np_mean (slice_from array_E t_estable);
  M_prom ← np_mean (slice_from array_M t_estable);
  Ok (E_prom, M_prom).

(** [promedios] with the float64 arithmetic of [np.mean]. *)
Definition promedios_f64 (array_E array_M : list Q) (t_estable : Z) : res (Q * Q) :=
  E_prom ← np_mean_f64 (slice_from array_E t_estable);
  M_prom ← np_mean_f64 (slice_from array_M t_estable);
  Ok (E_prom, M_prom).

(** The calls to the plotting functions, which only consume their
    arguments, are recorded in the order they are made. *)
Inductive grafica : Type :=
  | Graficas_EyM (tiempo : list Z) (array_E array_M : list Q) (T : Q) (j : Z)
  | Grafica_MvsT (array_M_prom array_T : list Q).

(** The locals of [main] when it returns, and the plots it asked for. *)
Record barrido : Type := mk_barrido {
  array_T : list Q;
  array_betas : list Q;
  array_E_prom : list Q;
  array_M_prom : list Q;
  graficas : list grafica
}.

(** The body of the loop of [main]; the state is the two arrays of
    averages, [j] and the plots so far. *)
Definition main_paso (array_T array_betas : list Q)
    (st : list Q * list Q * Z * list grafica) (i : Z)
  : Az (list Q * list Q * Z * list grafica) :=
  let '(array_E_prom, array_M_prom, j, graf) := st in
  beta ← lift (getitem array_betas i);
  s ← gen_array_espines;
  '(_, (array_E, array_M)) ← evolucion tiempo_sim beta s;
  '(j, graf) ←
    (if (i =? 0) || (i =? cant_Temp ÷ 4) || (i =? cant_Temp - 1) then
       T ← lift (getitem array_T i);
       mret (j + 1, graf ++ [Graficas_EyM tiempo_sim array_E array_M T (j + 1)])
     else mret (j, graf));
  '(E_prom, M_prom) ← lift (promedios array_E array_M t_estable);
  array_E_prom ← lift (setitem array_E_prom i E_prom);
  array_M_prom ← lift (setitem array_M_prom i M_prom);
  mret (array_E_prom, array_M_prom, j, graf).

Definition main : Az barrido :=
  lin ← lift (np_linspace (1 # 100) 3 cant_Temp);
  let array_T := map (fun x => (x * T_critico)%Q) lin in
  let array_betas := map (fun T => (1 / T)%Q) array_T in
  array_E_prom ← lift (np_zeros cant_Temp);
  array_M_prom ← lift (np_zeros cant_Temp);
  let j := 0 in
  '(array_E_prom, array_M_prom, _, graf) ←
    foldAz (main_paso array_T array_betas) (range cant_Temp)
           (array_E_prom, array_M_prom, j, []);
  mret (mk_barrido array_T array_betas array_E_prom array_M_prom
                   (graf ++ [Grafica_MvsT array_M_prom array_T])).

(** ** Definitions the specification is stated with *)

Local Abbreviation L := long_lado.

(** An [L x L] array. *)
Definition cuadrada (s : lattice) : Prop :=
  length s = Z.to_nat L ∧ Forall (fun fila => length fila = Z.to_nat L) s.

(** Every cell holds a spin, [-1] or [+1]. *)
Definition espines (s : lattice) : Prop :=
  Forall (Forall (fun v => v = -1 ∨ v = 1)) s.

(** The spin at [(i, j)], for [0 <= i, j]. *)
Definition celda (s : lattice) (i j : Z) : Z :=
  default 0 (fila ← s !! Z.to_nat i; fila !! Z.to_nat j).

(** The sum of [f k] over [0 <= k < n]. *)
Definition suma (f : Z → Z) (n : Z) : Z := foldr Z.add 0 (map f (range n)).

(** Periodic wraparound of one index, in the words of the specification:
    [-1] becomes [L - 1] and [L] becomes [0]. *)
Definition envolver (x : Z) : Z :=
  if x =? -1 then L - 1 else if x =? L then 0 else x.

(** The sum of the spins of the four periodic neighbours of [(i, j)]. *)
Definition vecinos (s : lattice) (i j : Z) : Z :=
  celda s ((i - 1) mod L) j + celda s ((i + 1) mod L) j
  + celda s i ((j - 1) mod L) + celda s i ((j + 1) mod L).

(** Energy: the coupling of every cell with its four neighbours, halved. *)
Definition energia (s : lattice) : Q :=
  (inject_Z (suma (fun i => suma (fun j => (- J * celda s i j * vecinos s i j)%Z) L) L) / 2)%Q.

(** Magnetization: the mean spin. *)
Definition magnetizacion (s : lattice) : Q :=
  (inject_Z (suma (fun i => suma (fun j => celda s i j) L) L) / inject_Z N)%Q.

(** The lattice with the spin at [(x, y)] negated. *)
Definition voltear (s : lattice) (x y : Z) : lattice :=
  alter (alter Z.opp (Z.to_nat y)) (Z.to_nat x) s.

(** The pairs that [n] successive calls of [cambio_espin] return, starting
    from lattice [s] and generator [g]. *)
Fixpoint pasos (beta : Q) (n : nat) (s : lattice) (g : rng) : list (Q * Q) :=
  match n with
  | O => []
  | S n' =>
      match cambio_espin s beta g with
      | Ok ((s', r), g') => r :: pasos beta n' s' g'
      | Err _ => []
      end
  end.

(** The position of an axis of length [len] that index [i] addresses. *)
Definition posicion (len : Z) (i : Z) : nat := Z.to_nat (i mod len).

(** The series restricted to the indices [t, t + 1, ..., end]. *)
Definition restringida (a : list Q) (t : Z) : list Q :=
  omap (fun k => a !! k) (seq (Z.to_nat t) (length a - Z.to_nat t)).

(** Arithmetic mean. *)
Definition media (a : list Q) : Q :=
  (Qsum a / inject_Z (Z.of_nat (length a)))%Q.

(** The float64 mean: the float64 sum over the number of entries. *)
Definition media_f64 (a : list Q) : Q :=
  div64 (np_add_reduce a) (inject_Z (Z.of_nat (length a))).

(** [k * c], and the condition that the multiples [c, 2 c, ..., n c] of [c]
    are float64 values; [exactos_b] decides it. *)
Definition multiplo (k : nat) (c : Q) : Q := (inject_Z (Z.of_nat k) * c)%Q.

Definition exactos (c : Q) (n : nat) : Prop :=
  ∀ k, (1 <= k <= n)%nat → (redondear64 (multiplo k c) == multiplo k c)%Q.

Definition exactos_b (c : Q) (n : nat) : bool :=
  forallb (fun k => Qeq_bool (redondear64 (multiplo k c)) (multiplo k c)) (seq 1 n).

(** The temperature of sample [i]: the point at the fraction
    [i / (cant_Temp - 1)] of the way from [0.01 T_c] to [3 T_c]. *)
Definition temperatura (i : Z) : Q :=
  ((1 # 100) * T_critico
   + (inject_Z i / inject_Z (cant_Temp - 1)) * (3 * T_critico - (1 # 100) * T_critico))%Q.

(** What [main] does for one temperature sample: a fresh random lattice,
    the evolution, the averages after [t_estable]. *)
Definition muestra (beta : Q) : Az (Q * Q) :=
  s ← gen_array_espines;
  '(_, (array_E, array_M)) ← evolucion tiempo_sim beta s;
  lift (promedios array_E array_M t_estable).

(** The generator after [n] reals have been drawn from it. *)
Definition avanzar_reales (n : nat) (g : rng) : rng :=
  mk_rng (enteros g) (fun k => reales g (n + k)%nat).

(** The lattice with every spin negated. *)
Definition negar (s : lattice) : lattice := map (map Z.opp) s.

(** The lattices on which [n] successive calls of [cambio_espin] run,
    starting from lattice [s] and generator [g]. *)
Fixpoint redes (beta : Q) (n : nat) (s : lattice) (g : rng) : list lattice :=
  match n with
  | O => []
  | S n' =>
      s :: match cambio_espin s beta g with
           | Ok ((s', _), g') => redes beta n' s' g'
           | Err _ => []
           end
  end.

(** The samples whose time series [main] plots. *)
Definition seleccion : list Z :=
  filter (fun i => (i =? 0) || (i =? cant_Temp ÷ 4) || (i =? cant_Temp - 1) = true)
         (range cant_Temp).

(** The array of temperatures that [main] builds. *)
Definition temperaturas : list Q :=
  map (fun x => (x * T_critico)%Q)
      (map (fun k => ((1 # 100) + inject_Z k
                      * ((3 - (1 # 100)) / inject_Z (cant_Temp - 1)))%Q)
           (range cant_Temp)).

(** The two series that [main] obtains for a sample at inverse temperature
    [beta] when the generator is in state [g] before the sample and in state
    [g'] after it: what [evolucion] returns for the sample's fresh lattice. *)
Definition serie_de_muestra (beta : Q) (g g' : rng) (array_E array_M : list Q) : Prop :=
  ∃ s s' g1,
    gen_array_espines g = Ok (s, g1)
    ∧ evolucion tiempo_sim beta s g1 = Ok ((s', (array_E, array_M)), g').

(** ** Indexing *)

Lemma res_bind_Ok {A B : Type} (f : A → res B) (a : A) : (Ok a ≫= f) = f a.
Proof. reflexivity. Qed.

Lemma res_bind_inv {A B : Type} (f : A → res B) (m : res A) (b : B) :
  (m ≫= f) = Ok b → ∃ a, m = Ok a ∧ f a = Ok b.
Proof. destruct m as [a|e]; [eauto | discriminate]. Qed.

Lemma np_index_nonneg (len : nat) (i : Z) :
  0 <= i < Z.of_nat len → np_index len i = Ok (Z.to_nat i).
Proof.
  intros Hi. unfold np_index.
  destruct (Z.leb_spec 0 i); [|lia].
  destruct (Z.ltb_spec i (Z.of_nat len)); [reflexivity | lia].
Qed.

Lemma np_index_neg (len : nat) (i : Z) :
  - Z.of_nat len <= i < 0 → np_index len i = Ok (Z.to_nat (i + Z.of_nat len)).
Proof.
  intros Hi. unfold np_index.
  destruct (Z.leb_spec 0 i); [lia|]. simpl.
  destruct (Z.leb_spec (- Z.of_nat len) i); [|lia].
  destruct (Z.ltb_spec i 0); [reflexivity | lia].
Qed.

Lemma np_index_fuera (len : nat) (i : Z) :
  i < - Z.of_nat len ∨ Z.of_nat len <= i → np_index len i = Err IndexError.
Proof.
  intros Hi. unfold np_index.
  destruct (Z.leb_spec 0 i), (Z.ltb_spec i (Z.of_nat len)); simpl; try lia;
    destruct (Z.leb_spec (- Z.of_nat len) i), (Z.ltb_spec i 0); simpl; try lia;
    reflexivity.
Qed.

(** An index that resolves lies in [-len, len) and resolves to [i mod len]. *)
Lemma np_index_Ok_inv (len : nat) (i : Z) (k : nat) :
  np_index len i = Ok k →
  - Z.of_nat len <= i < Z.of_nat len ∧ k = posicion (Z.of_nat len) i ∧ (k < len)%nat.
Proof.
  unfold np_index, posicion.
  destruct (Z.leb_spec 0 i), (Z.ltb_spec i (Z.of_nat len)); simpl.
  - intros [= <-]. rewrite Z.mod_small by lia. lia.
  - destruct (Z.leb_spec (- Z.of_nat len) i), (Z.ltb_spec i 0); simpl;
      try discriminate; lia.
  - destruct (Z.leb_spec (- Z.of_nat len) i), (Z.ltb_spec i 0); simpl;
      try discriminate; try lia.
    intros [= <-].
    replace (i mod Z.of_nat len) with (i + Z.of_nat len); [lia|].
    apply Z.mod_unique with (q := -1); lia.
  - destruct (Z.leb_spec (- Z.of_nat len) i), (Z.ltb_spec i 0); simpl;
      try discriminate; lia.
Qed.

Lemma np_index_posicion (len : nat) (i : Z) :
  - Z.of_nat len <= i < Z.of_nat len →
  np_index len i = Ok (posicion (Z.of_nat len) i).
Proof.
  intros Hi. destruct (Z.lt_ge_cases i 0).
  - rewrite np_index_neg by lia. f_equal. unfold posicion. f_equal.
    apply Z.mod_unique with (q := -1); lia.
  - rewrite np_index_nonneg by lia. unfold posicion.
    rewrite Z.mod_small by lia. reflexivity.
Qed.

Lemma getitem_nonneg {A : Type} (a : list A) (i : Z) (x : A) :
  0 <= i → a !! Z.to_nat i = Some x → getitem a i = Ok x.
Proof.
  intros Hi Hx. unfold getitem.
  rewrite np_index_nonneg by (apply lookup_lt_Some in Hx; lia).
  rewrite res_bind_Ok, Hx. reflexivity.
Qed.

Lemma setitem_nonneg {A : Type} (a : list A) (i : Z) (v : A) :
  0 <= i < Z.of_nat (length a) → setitem a i v = Ok (<[Z.to_nat i := v]> a).
Proof.
  intros Hi. unfold setitem. rewrite np_index_nonneg by lia. reflexivity.
Qed.

(** ** The lattice *)

Lemma insert_as_alter {A : Type} (f : A → A) (l : list A) (k : nat) (x : A) :
  l !! k = Some x → <[k := f x]> l = alter f k l.
Proof.
  intros Hx. rewrite list_insert_alter.
  apply list_alter_ext; [|reflexivity].
  intros y Hy. congruence.
Qed.

Lemma cuadrada_fila (s : lattice) (i : Z) :
  cuadrada s → 0 <= i < L →
  ∃ fila, s !! Z.to_nat i = Some fila ∧ length fila = Z.to_nat L.
Proof.
  intros [Hlen Hfilas] Hi.
  destruct (lookup_lt_is_Some_2 s (Z.to_nat i)) as [fila Hfila]; [lia|].
  exists fila. split; [assumption|].
  rewrite Forall_lookup in Hfilas. exact (Hfilas _ _ Hfila).
Qed.

Lemma celda_lookup (s : lattice) (i j : Z) :
  cuadrada s → 0 <= i < L → 0 <= j < L →
  ∃ fila, s !! Z.to_nat i = Some fila ∧ length fila = Z.to_nat L
          ∧ fila !! Z.to_nat j = Some (celda s i j).
Proof.
  intros Hs Hi Hj.
  destruct (cuadrada_fila s i Hs Hi) as (fila & Hfila & Hlen).
  exists fila. split; [assumption|]. split; [assumption|].
  destruct (lookup_lt_is_Some_2 fila (Z.to_nat j)) as [v Hv]; [lia|].
  unfold celda. rewrite Hfila. simpl. rewrite Hv. reflexivity.
Qed.

Lemma getitem2_celda (s : lattice) (i j : Z) :
  cuadrada s → 0 <= i < L → 0 <= j < L → getitem2 s i j = Ok (celda s i j).
Proof.
  intros Hs Hi Hj.
  destruct (celda_lookup s i j Hs Hi Hj) as (fila & Hfila & Hlen & Hv).
  unfold getitem2.
  rewrite (getitem_nonneg s i fila) by (assumption || lia).
  rewrite res_bind_Ok. apply getitem_nonneg; [lia | assumption].
Qed.

Lemma setitem2_voltear (s : lattice) (x y : Z) :
  cuadrada s → 0 <= x < L → 0 <= y < L →
  setitem2 s x y (- celda s x y) = Ok (voltear s x y).
Proof.
  intros Hs Hx Hy.
  destruct (celda_lookup s x y Hs Hx Hy) as (fila & Hfila & Hlen & Hv).
  unfold setitem2.
  rewrite (getitem_nonneg s x fila) by (assumption || lia).
  rewrite res_bind_Ok, setitem_nonneg by lia.
  rewrite res_bind_Ok, setitem_nonneg by (destruct Hs; lia).
  f_equal. unfold voltear.
  rewrite (insert_as_alter Z.opp fila _ _ Hv).
  apply (insert_as_alter (alter Z.opp (Z.to_nat y)) s _ _ Hfila).
Qed.

Lemma cuadrada_voltear (s : lattice) (x y : Z) :
  cuadrada s → cuadrada (voltear s x y).
Proof.
  intros [Hlen Hfilas]. unfold voltear. split.
  - rewrite length_alter. assumption.
  - apply Forall_alter; [assumption|].
    intros fila _ Hfila. rewrite length_alter. assumption.
Qed.

Lemma voltear_voltear (s : lattice) (x y : Z) : voltear (voltear s x y) x y = s.
Proof.
  unfold voltear. rewrite list_alter_alter_eq.
  apply list_alter_id. intros fila. simpl.
  rewrite list_alter_alter_eq. apply list_alter_id.
  intros v. simpl. lia.
Qed.

Lemma celda_voltear (s : lattice) (x y i j : Z) :
  cuadrada s → 0 <= x < L → 0 <= y < L → 0 <= i → 0 <= j →
  celda (voltear s x y) i j = if decide (i = x ∧ j = y) then - celda s i j else celda s i j.
Proof.
  intros Hs Hx Hy Hi Hj. unfold celda, voltear.
  destruct (decide (i = x)) as [->|Hix].
  - rewrite list_lookup_alter_eq.
    destruct (s !! Z.to_nat x) as [fila|]; simpl.
    + destruct (decide (j = y)) as [->|Hjy].
      * rewrite list_lookup_alter_eq.
        rewrite decide_True by auto.
        destruct (fila !! Z.to_nat y); reflexivity.
      * rewrite list_lookup_alter_ne by lia.
        rewrite decide_False by tauto. reflexivity.
    + destruct (decide _); reflexivity.
  - rewrite list_lookup_alter_ne by lia.
    rewrite decide_False by tauto. reflexivity.
Qed.

Lemma espines_voltear (s : lattice) (x y : Z) :
  espines s → espines (voltear s x y).
Proof.
  intros Hs. unfold voltear. apply Forall_alter; [assumption|].
  intros fila _ Hfila. apply Forall_alter; [assumption|].
  intros v _ [->| ->]; [right | left]; reflexivity.
Qed.

Lemma espines_celda (s : lattice) (i j : Z) :
  cuadrada s → espines s → 0 <= i < L → 0 <= j < L →
  celda s i j = -1 ∨ celda s i j = 1.
Proof.
  intros Hs He Hi Hj.
  destruct (celda_lookup s i j Hs Hi Hj) as (fila & Hfila & _ & Hv).
  unfold espines in He. rewrite Forall_lookup in He.
  specialize (He _ _ Hfila). rewrite Forall_lookup in He.
  exact (He _ _ Hv).
Qed.

(** On a lattice of spins the flip changes the lattice. *)
Lemma voltear_distinta (s : lattice) (x y : Z) :
  cuadrada s → espines s → 0 <= x < L → 0 <= y < L → voltear s x y ≠ s.
Proof.
  intros Hs He Hx Hy Heq.
  pose proof (celda_voltear s x y x y Hs Hx Hy) as Hc.
  rewrite Heq, decide_True in Hc by auto.
  destruct (espines_celda s x y Hs He Hx Hy); lia.
Qed.

(** ** The neighbours and the thermodynamic variables *)

Lemma elem_of_range (n k : Z) : k ∈ range n ↔ 0 <= k < n.
Proof.
  unfold range. rewrite list_elem_of_fmap. split.
  - intros (m & -> & Hm). apply elem_of_seq in Hm. lia.
  - intros Hk. exists (Z.to_nat k). split; [lia|]. apply elem_of_seq. lia.
Qed.

Lemma length_range (n : Z) : length (range n) = Z.to_nat n.
Proof. unfold range. rewrite length_map, length_seq. reflexivity. Qed.

Lemma lookup_range (n : Z) (k : nat) :
  (k < Z.to_nat n)%nat → range n !! k = Some (Z.of_nat k).
Proof.
  intros Hk. unfold range. rewrite list_lookup_fmap, lookup_seq_lt by assumption.
  reflexivity.
Qed.

Lemma envolver_mod (x : Z) : 0 < L → -1 <= x <= L → envolver x = x mod L.
Proof.
  intros HL Hx. unfold envolver.
  destruct (Z.eqb_spec x (-1)) as [->|]; [|destruct (Z.eqb_spec x L) as [->|]].
  - apply Z.mod_unique with (q := -1); lia.
  - rewrite Z.mod_same by lia. reflexivity.
  - rewrite Z.mod_small by lia. reflexivity.
Qed.

Lemma pos_vecinos_envolver (i j : Z) :
  0 <= i < L → 0 <= j < L →
  pos_vecinos i j = [envolver (i - 1); envolver (i + 1); envolver (j - 1); envolver (j + 1)].
Proof.
  intros Hi Hj. unfold pos_vecinos, mask_set, mask_eq, envolver. simpl.
  repeat match goal with
         | |- context [?a =? ?b] => destruct (Z.eqb_spec a b); try lia
         end; reflexivity.
Qed.

Lemma pos_vecinos_mod (i j : Z) :
  0 <= i < L → 0 <= j < L →
  pos_vecinos i j = [(i - 1) mod L; (i + 1) mod L; (j - 1) mod L; (j + 1) mod L].
Proof.
  intros Hi Hj. rewrite pos_vecinos_envolver by assumption.
  rewrite !envolver_mod by lia. reflexivity.
Qed.

Lemma getitem_pos (a b c d : Z) :
  getitem [a; b; c; d] 0 = Ok a ∧ getitem [a; b; c; d] 1 = Ok b
  ∧ getitem [a; b; c; d] 2 = Ok c ∧ getitem [a; b; c; d] 3 = Ok d.
Proof. repeat split. Qed.

Lemma var_termo_celda_eq (s : lattice) (i j E M : Z) :
  cuadrada s → 0 <= i < L → 0 <= j < L →
  var_termo_celda s i (E, M) j
  = Ok (E + - J * celda s i j * vecinos s i j, M + celda s i j).
Proof.
  intros Hs Hi Hj. unfold var_termo_celda.
  rewrite pos_vecinos_mod by assumption.
  destruct (getitem_pos ((i - 1) mod L) ((i + 1) mod L) ((j - 1) mod L) ((j + 1) mod L))
    as (-> & -> & -> & ->).
  assert (0 < L) by lia.
  repeat (first [ rewrite res_bind_Ok
                | rewrite getitem2_celda
                    by (assumption || apply Z.mod_pos_bound; lia) ];
          cbv beta).
  reflexivity.
Qed.

(** A loop whose body adds [e j] and [m j] to the two accumulators. *)
Lemma foldM_acumula (f : Z * Z → Z → res (Z * Z)) (e m : Z → Z) (js : list Z) :
  (∀ E M j, j ∈ js → f (E, M) j = Ok (E + e j, M + m j)) →
  ∀ E M, foldM f js (E, M)
         = Ok (E + foldr Z.add 0 (map e js), M + foldr Z.add 0 (map m js)).
Proof.
  induction js as [|j js IH]; intros Hf E M; simpl.
  - f_equal. f_equal; lia.
  - rewrite Hf by apply list_elem_of_here. rewrite res_bind_Ok.
    rewrite IH by (intros; apply Hf; apply list_elem_of_further; assumption).
    f_equal. f_equal; lia.
Qed.

Lemma var_termo_fila_eq (s : lattice) (i E M : Z) :
  cuadrada s → 0 <= i < L →
  var_termo_fila s (E, M) i
  = Ok (E + suma (fun j => - J * celda s i j * vecinos s i j) L,
        M + suma (fun j => celda s i j) L).
Proof.
  intros Hs Hi. unfold var_termo_fila, suma.
  apply foldM_acumula. intros E' M' j Hj. apply elem_of_range in Hj.
  apply var_termo_celda_eq; assumption.
Qed.

(** On an [L x L] lattice [var_termo] returns, and returns the energy and
    the magnetization of the specification. *)
Lemma var_termo_eq (s : lattice) :
  N ≠ 0 → cuadrada s → var_termo s = Ok (energia s, magnetizacion s).
Proof.
  intros HN Hs. unfold var_termo.
  rewrite (foldM_acumula _
             (fun i => suma (fun j => - J * celda s i j * vecinos s i j) L)
             (fun i => suma (fun j => celda s i j) L)).
  - rewrite res_bind_Ok. destruct (Z.eqb_spec N 0); [contradiction|].
    reflexivity.
  - intros E M i Hi. apply elem_of_range in Hi.
    apply var_termo_fila_eq; assumption.
Qed.

(** ** One Metropolis step *)

Lemma Az_bind_Ok {A B : Type} (m : Az A) (f : A → Az B) (g g' : rng) (a : A) :
  m g = Ok (a, g') → (m ≫= f) g = f a g'.
Proof. intros H. unfold mbind, Az_bind. rewrite H. reflexivity. Qed.

Lemma Az_bind_Err {A B : Type} (m : Az A) (f : A → Az B) (g : rng) (e : error) :
  m g = Err e → (m ≫= f) g = Err e.
Proof. intros H. unfold mbind, Az_bind. rewrite H. reflexivity. Qed.

Lemma Az_bind_inv {A B : Type} (m : Az A) (f : A → Az B) (g g'' : rng) (b : B) :
  (m ≫= f) g = Ok (b, g'') → ∃ a g', m g = Ok (a, g') ∧ f a g' = Ok (b, g'').
Proof.
  unfold mbind, Az_bind. destruct (m g) as [[a g']|e]; [eauto | discriminate].
Qed.

Lemma Az_bind_lift {A B : Type} (f : A → Az B) (g : rng) (a : A) :
  (lift (Ok a) ≫= f) g = f a g.
Proof. reflexivity. Qed.

Lemma long_lado_pos : 0 < N → 0 < L.
Proof.
  intros HN. unfold long_lado.
  destruct (Z.sqrt_spec N) as [_ Hs]; [lia|].
  pose proof (Z.sqrt_nonneg N). nia.
Qed.

Lemma randint_long_lado (g : rng) :
  0 < L →
  ∃ pos g', randint 0 L g = Ok (pos, g') ∧ 0 <= pos < L.
Proof.
  intros HL. unfold randint. destruct (Z.ltb_spec 0 L); [|lia].
  eexists _, _. split; [reflexivity|].
  pose proof (Z.mod_pos_bound (enteros g 0%nat) (L - 0)). lia.
Qed.

Lemma randint_Ok_inv (lo hi pos : Z) (g g' : rng) :
  randint lo hi g = Ok (pos, g') → lo <= pos < hi.
Proof.
  unfold randint. destruct (Z.ltb_spec lo hi); [|discriminate].
  intros [= <- _].
  pose proof (Z.mod_pos_bound (enteros g 0%nat) (hi - lo)). lia.
Qed.

(** The step, once its draws and its two evaluations are named: [p] is the
    real that the generator hands out next, drawn only when the energy
    rises. *)
Lemma cambio_espin_eq (s : lattice) (beta : Q) (g g1 g2 : rng)
    (pos_x pos_y : Z) (E_0 M_0 E_f M_f : Q) :
  cuadrada s →
  randint 0 L g = Ok (pos_x, g1) → randint 0 L g1 = Ok (pos_y, g2) →
  var_termo s = Ok (E_0, M_0) →
  var_termo (voltear s pos_x pos_y) = Ok (E_f, M_f) →
  cambio_espin s beta g
  = if Qlt_bool 0 (E_f - E_0) then
      if negb (Qlt_bool (reales g2 0%nat) (np_exp (- beta * (E_f - E_0)))) then
        Ok ((s, (E_f, M_0)), mk_rng (enteros g2) (fun n => reales g2 (S n)))
      else
        Ok ((voltear s pos_x pos_y, (E_f, M_0)),
            mk_rng (enteros g2) (fun n => reales g2 (S n)))
    else Ok ((voltear s pos_x pos_y, (E_f, M_0)), g2).
Proof.
  intros Hs Hx Hy H0 Hf.
  pose proof (randint_Ok_inv _ _ _ _ _ Hx) as Hpx.
  pose proof (randint_Ok_inv _ _ _ _ _ Hy) as Hpy.
  pose proof (cuadrada_voltear s pos_x pos_y Hs) as Hs'.
  unfold cambio_espin.
  rewrite (Az_bind_Ok _ _ _ _ _ Hx). cbv beta.
  rewrite (Az_bind_Ok _ _ _ _ _ Hy). cbv beta.
  rewrite H0, Az_bind_lift. cbv beta iota.
  rewrite getitem2_celda, Az_bind_lift by assumption. cbv beta.
  rewrite setitem2_voltear, Az_bind_lift by assumption. cbv beta.
  rewrite Hf, Az_bind_lift. cbv beta iota.
  destruct (Qlt_bool 0 (E_f - E_0)); [|reflexivity].
  rewrite (Az_bind_Ok uniform _ g2 _ (reales g2 0%nat) eq_refl). cbv beta.
  destruct (negb _); [|reflexivity].
  rewrite getitem2_celda, Az_bind_lift by assumption. cbv beta.
  rewrite setitem2_voltear, Az_bind_lift by assumption. cbv beta.
  rewrite voltear_voltear. reflexivity.
Qed.

Lemma Qlt_bool_iff (x y : Q) : Qlt_bool x y = true ↔ (x < y)%Q.
Proof. unfold Qlt_bool, Qlt. apply Z.ltb_lt. Qed.

Lemma Qlt_bool_false_iff (x y : Q) : Qlt_bool x y = false ↔ (y <= x)%Q.
Proof. unfold Qlt_bool, Qle. apply Z.ltb_ge. Qed.

Lemma cambio_espin_Ok (s : lattice) (beta : Q) (g : rng) :
  0 < N → cuadrada s →
  ∃ s' r g', cambio_espin s beta g = Ok ((s', r), g') ∧ cuadrada s'.
Proof.
  intros HN Hs. pose proof (long_lado_pos HN) as HL.
  destruct (randint_long_lado g HL) as (pos_x & g1 & Hx & Hpx).
  destruct (randint_long_lado g1 HL) as (pos_y & g2 & Hy & Hpy).
  pose proof (cuadrada_voltear s pos_x pos_y Hs) as Hs'.
  rewrite (cambio_espin_eq s beta g g1 g2 pos_x pos_y _ _ _ _ Hs Hx Hy
             (var_termo_eq s ltac:(lia) Hs)
             (var_termo_eq _ ltac:(lia) Hs')).
  destruct (Qlt_bool 0 _); [destruct (negb _)|]; eauto 10.
Qed.

(** A step keeps the cells in [{-1, +1}]. *)
Lemma cambio_espin_espines (s s' : lattice) (beta : Q) (g g' : rng) (r : Q * Q) :
  0 < N → cuadrada s → espines s →
  cambio_espin s beta g = Ok ((s', r), g') → espines s'.
Proof.
  intros HN Hs He. pose proof (long_lado_pos HN) as HL.
  destruct (randint_long_lado g HL) as (pos_x & g1 & Hx & Hpx).
  destruct (randint_long_lado g1 HL) as (pos_y & g2 & Hy & Hpy).
  pose proof (cuadrada_voltear s pos_x pos_y Hs) as Hs'.
  pose proof (espines_voltear s pos_x pos_y He) as He'.
  rewrite (cambio_espin_eq s beta g g1 g2 pos_x pos_y _ _ _ _ Hs Hx Hy
             (var_termo_eq s ltac:(lia) Hs)
             (var_termo_eq _ ltac:(lia) Hs')).
  destruct (Qlt_bool 0 _); [destruct (negb _)|]; intros [= <- _ _]; assumption.
Qed.

(** ** The evolution loop *)

Lemma lift_inv {A : Type} (m : res A) (g g' : rng) (a : A) :
  lift m g = Ok (a, g') → m = Ok a ∧ g' = g.
Proof. destruct m; simpl; [intros [= -> ->]; auto | discriminate]. Qed.

Lemma setitem_inv {A : Type} (a a' : list A) (i : Z) (v : A) :
  setitem a i v = Ok a' →
  ∃ k, np_index (length a) i = Ok k ∧ a' = <[k := v]> a.
Proof.
  unfold setitem. intros H. apply res_bind_inv in H as (k & Hk & [= <-]). eauto.
Qed.

Lemma evolucion_paso_inv (beta : Q) (s s' : lattice) (aE aM aE' aM' : list Q)
    (i : Z) (g g' : rng) :
  evolucion_paso beta (s, aE, aM) i g = Ok ((s', aE', aM'), g') →
  ∃ E M kE kM,
    cambio_espin s beta g = Ok ((s', (E, M)), g')
    ∧ np_index (length aE) i = Ok kE ∧ aE' = <[kE := E]> aE
    ∧ np_index (length aM) i = Ok kM ∧ aM' = <[kM := M]> aM.
Proof.
  unfold evolucion_paso. intros H.
  apply Az_bind_inv in H as ([s1 [E M]] & g1 & Hce & H).
  apply Az_bind_inv in H as (aE1 & g2 & HE & H).
  apply Az_bind_inv in H as (aM1 & g3 & HM & H).
  apply lift_inv in HE as [HE ->]. apply lift_inv in HM as [HM ->].
  apply setitem_inv in HE as (kE & HkE & ->).
  apply setitem_inv in HM as (kM & HkM & ->).
  injection H as <- <- <- <-. eauto 10.
Qed.

(** A position that no index of the loop addresses keeps its value. *)
Lemma evolucion_bucle_marco (beta : Q) (p : nat) (idx : list Z) :
  ∀ (s s' : lattice) (aE aM aE' aM' : list Q) (g g' : rng),
    foldAz (evolucion_paso beta) idx (s, aE, aM) g = Ok ((s', aE', aM'), g') →
    (∀ i k, i ∈ idx → np_index (length aE) i = Ok k → k ≠ p) →
    (∀ i k, i ∈ idx → np_index (length aM) i = Ok k → k ≠ p) →
    aE' !! p = aE !! p ∧ aM' !! p = aM !! p
    ∧ length aE' = length aE ∧ length aM' = length aM.
Proof.
  induction idx as [|i idx IH]; intros s s' aE aM aE' aM' g g' H HE HM.
  - injection H as <- <- <- <-. auto.
  - simpl in H. apply Az_bind_inv in H as ([[s1 aE1] aM1] & g1 & Hpaso & H).
    apply evolucion_paso_inv in Hpaso
      as (E & M & kE & kM & _ & HkE & -> & HkM & ->).
    apply IH in H as (HE' & HM' & HlE & HlM).
    + rewrite HE', HM', HlE, HlM, !length_insert.
      rewrite !list_lookup_insert_ne; [auto | | ].
      * eapply HM; [apply list_elem_of_here | eassumption].
      * eapply HE; [apply list_elem_of_here | eassumption].
    + rewrite length_insert. intros; eapply HE; [apply list_elem_of_further|]; eassumption.
    + rewrite length_insert. intros; eapply HM; [apply list_elem_of_further|]; eassumption.
Qed.

(** With every index in [-len, len) the loop completes; the pair of step
    [k] sits at the position its index addresses unless a later index
    addresses that position too. *)
Lemma evolucion_bucle_Ok (beta : Q) (len : nat) (idx : list Z) :
  0 < N →
  Forall (fun i => - Z.of_nat len <= i < Z.of_nat len) idx →
  ∀ (s : lattice) (aE aM : list Q) (g : rng),
    cuadrada s → length aE = len → length aM = len →
    ∃ s' aE' aM' g',
      foldAz (evolucion_paso beta) idx (s, aE, aM) g = Ok ((s', aE', aM'), g')
      ∧ length aE' = len ∧ length aM' = len
      ∧ length (pasos beta (length idx) s g) = length idx
      ∧ ∀ k i E M,
          idx !! k = Some i →
          pasos beta (length idx) s g !! k = Some (E, M) →
          (∀ k' i', (k < k')%nat → idx !! k' = Some i' →
                    posicion (Z.of_nat len) i' ≠ posicion (Z.of_nat len) i) →
          aE' !! posicion (Z.of_nat len) i = Some E
          ∧ aM' !! posicion (Z.of_nat len) i = Some M.
Proof.
  intros HN Hidx. induction Hidx as [|i idx Hi Hidx IH]; intros s aE aM g Hs HlE HlM.
  - exists s, aE, aM, g.
    do 4 (split; [assumption || reflexivity|]).
    intros k i E M H. discriminate.
  - destruct (cambio_espin_Ok s beta g HN Hs) as (s1 & [E1 M1] & g1 & Hce & Hs1).
    pose proof (np_index_posicion len i Hi) as Hk.
    pose proof (np_index_Ok_inv _ _ _ Hk) as (_ & _ & Hlt).
    set (p := posicion (Z.of_nat len) i) in *.
    destruct (IH s1 (<[p := E1]> aE) (<[p := M1]> aM) g1 Hs1)
      as (s' & aE' & aM' & g' & Hfold & HlE' & HlM' & Hlp & Hult);
      [rewrite length_insert; assumption .. |].
    exists s', aE', aM', g'.
    assert (Hpaso : evolucion_paso beta (s, aE, aM) i g
                    = Ok ((s1, <[p := E1]> aE, <[p := M1]> aM), g1)).
    { unfold evolucion_paso.
      rewrite (Az_bind_Ok _ _ _ _ _ Hce). cbv beta iota.
      unfold setitem. rewrite HlE, HlM, Hk. reflexivity. }
    split; [simpl; rewrite (Az_bind_Ok _ _ _ _ _ Hpaso); exact Hfold|].
    split; [assumption|]. split; [assumption|].
    simpl. rewrite Hce. split; [simpl; congruence|].
    intros [|k] j E M Hj Hp Hdespues.
    + injection Hj as <-. injection Hp as <- <-.
      destruct (evolucion_bucle_marco beta p idx _ _ _ _ _ _ _ _ Hfold)
        as (HE & HM & _ & _).
      * rewrite length_insert, HlE. intros i' k' Hi' Hk'.
        apply np_index_Ok_inv in Hk' as (_ & -> & _).
        apply list_elem_of_lookup in Hi' as [n Hn].
        apply (Hdespues (S n) i'); [lia | exact Hn].
      * rewrite length_insert, HlM. intros i' k' Hi' Hk'.
        apply np_index_Ok_inv in Hk' as (_ & -> & _).
        apply list_elem_of_lookup in Hi' as [n Hn].
        apply (Hdespues (S n) i'); [lia | exact Hn].
      * fold p. rewrite HE, HM, !list_lookup_insert_eq by lia. auto.
    + apply (Hult k j E M Hj Hp).
      intros k' i' Hlt' Hi'. apply (Hdespues (S k') i'); [lia | exact Hi'].
Qed.

Lemma np_ones_Ok (n : Z) : 0 <= n → np_ones n = Ok (replicate (Z.to_nat n) 1%Q).
Proof. intros Hn. unfold np_ones. destruct (Z.ltb_spec n 0); [lia | reflexivity]. Qed.

Lemma np_ones_inv (n : Z) (a : list Q) :
  np_ones n = Ok a → a = replicate (Z.to_nat n) 1%Q.
Proof. unfold np_ones. destruct (n <? 0); [discriminate | congruence]. Qed.

(** [evolucion] on a sequence whose indices after the first are in range. *)
Lemma evolucion_Ok (ts : list Z) (beta : Q) (s : lattice) (g : rng) :
  0 < N → 0 < cant_iter → cuadrada s →
  Forall (fun i => - cant_iter <= i < cant_iter) (drop 1 ts) →
  ∃ s' aE aM g',
    evolucion ts beta s g = Ok ((s', (aE, aM)), g')
    ∧ length aE = Z.to_nat cant_iter ∧ length aM = Z.to_nat cant_iter
    ∧ length (pasos beta (length (drop 1 ts)) s g) = length (drop 1 ts)
    ∧ ∀ k i E M,
        drop 1 ts !! k = Some i →
        pasos beta (length (drop 1 ts)) s g !! k = Some (E, M) →
        (∀ k' i', (k < k')%nat → drop 1 ts !! k' = Some i' →
                  posicion cant_iter i' ≠ posicion cant_iter i) →
        aE !! posicion cant_iter i = Some E ∧ aM !! posicion cant_iter i = Some M.
Proof.
  intros HN Hc Hs Hidx.
  assert (Hidx' : Forall (fun i => - Z.of_nat (Z.to_nat cant_iter) <= i
                                   < Z.of_nat (Z.to_nat cant_iter)) (drop 1 ts)).
  { eapply Forall_impl; [exact Hidx|]. simpl. intros; lia. }
  destruct (evolucion_bucle_Ok beta (Z.to_nat cant_iter) (drop 1 ts) HN Hidx' s
              (<[0%nat := energia s]> (replicate (Z.to_nat cant_iter) 1%Q))
              (<[0%nat := magnetizacion s]> (replicate (Z.to_nat cant_iter) 1%Q))
              g Hs)
    as (s' & aE & aM & g' & Hfold & HlE & HlM & Hlp & Hult);
    [rewrite length_insert, length_replicate; reflexivity .. |].
  exists s', aE, aM, g'. split.
  - unfold evolucion.
    rewrite var_termo_eq, Az_bind_lift by (lia || assumption). cbv beta iota.
    rewrite np_ones_Ok, !Az_bind_lift by lia. cbv beta.
    rewrite !setitem_nonneg by (rewrite length_replicate; lia).
    repeat (rewrite Az_bind_lift; cbv beta).
    change (Z.to_nat 0) with 0%nat.
    rewrite (Az_bind_Ok _ _ _ _ _ Hfold). reflexivity.
  - do 3 (split; [assumption|]).
    rewrite Z2Nat.id in Hult by lia. exact Hult.
Qed.

(** An index outside [-len, len) stops the loop with [IndexError]. *)
Lemma evolucion_bucle_Err (beta : Q) (len : nat) (idx : list Z) :
  0 < N →
  Exists (fun i => i < - Z.of_nat len ∨ Z.of_nat len <= i) idx →
  ∀ (s : lattice) (aE aM : list Q) (g : rng),
    cuadrada s → length aE = len → length aM = len →
    foldAz (evolucion_paso beta) idx (s, aE, aM) g = Err IndexError.
Proof.
  intros HN. induction idx as [|i idx IH]; intros Hex s aE aM g Hs HlE HlM.
  - inversion Hex.
  - destruct (cambio_espin_Ok s beta g HN Hs) as (s1 & [E1 M1] & g1 & Hce & Hs1).
    simpl.
    destruct (decide (- Z.of_nat len <= i < Z.of_nat len)) as [Hi|Hi].
    + pose proof (np_index_posicion len i Hi) as Hk.
      assert (Hpaso : evolucion_paso beta (s, aE, aM) i g
                      = Ok ((s1, <[posicion (Z.of_nat len) i := E1]> aE,
                                 <[posicion (Z.of_nat len) i := M1]> aM), g1)).
      { unfold evolucion_paso.
        rewrite (Az_bind_Ok _ _ _ _ _ Hce). cbv beta iota.
        unfold setitem. rewrite HlE, HlM, Hk. reflexivity. }
      rewrite (Az_bind_Ok _ _ _ _ _ Hpaso).
      apply IH; [|assumption|rewrite length_insert; assumption ..].
      apply Exists_cons in Hex as [Hex|Hex]; [lia | assumption].
    + apply Az_bind_Err. unfold evolucion_paso.
      rewrite (Az_bind_Ok _ _ _ _ _ Hce). cbv beta iota.
      unfold setitem. rewrite HlE, HlM, np_index_fuera by lia. reflexivity.
Qed.

Lemma evolucion_Err (ts : list Z) (beta : Q) (s : lattice) (g : rng) :
  0 < N → 0 < cant_iter → cuadrada s →
  Exists (fun i => i < - cant_iter ∨ cant_iter <= i) (drop 1 ts) →
  evolucion ts beta s g = Err IndexError.
Proof.
  intros HN Hc Hs Hex.
  unfold evolucion.
  rewrite var_termo_eq, Az_bind_lift by (lia || assumption). cbv beta iota.
  rewrite np_ones_Ok, !Az_bind_lift by lia. cbv beta.
  rewrite !setitem_nonneg by (rewrite length_replicate; lia).
  repeat (rewrite Az_bind_lift; cbv beta).
  apply Az_bind_Err.
  apply (evolucion_bucle_Err beta (Z.to_nat cant_iter));
    [assumption | | assumption | rewrite length_insert, length_replicate; reflexivity ..].
  eapply Exists_impl; [exact Hex|]. simpl. intros; lia.
Qed.

(** Whenever [evolucion] returns, a position from [1] on that no index
    addresses still holds the [1.0] of [np.ones]. *)
Lemma evolucion_inv_unos (ts : list Z) (beta : Q) (s s' : lattice)
    (aE aM : list Q) (g g' : rng) (p : nat) :
  evolucion ts beta s g = Ok ((s', (aE, aM)), g') →
  (0 < p < Z.to_nat cant_iter)%nat →
  (∀ i k, i ∈ drop 1 ts → np_index (Z.to_nat cant_iter) i = Ok k → k ≠ p) →
  aE !! p = Some 1%Q ∧ aM !! p = Some 1%Q
  ∧ length aE = Z.to_nat cant_iter ∧ length aM = Z.to_nat cant_iter.
Proof.
  unfold evolucion. intros H Hp Hno.
  apply Az_bind_inv in H as ([E_0 M_0] & g1 & _ & H).
  apply Az_bind_inv in H as (aE0 & g2 & HE0 & H).
  apply Az_bind_inv in H as (aM0 & g3 & HM0 & H).
  apply lift_inv in HE0 as [HE0 _]. apply lift_inv in HM0 as [HM0 _].
  apply np_ones_inv in HE0, HM0. subst aE0 aM0.
  apply Az_bind_inv in H as (aE1 & g4 & HE1 & H).
  apply Az_bind_inv in H as (aM1 & g5 & HM1 & H).
  apply lift_inv in HE1 as [HE1 _]. apply lift_inv in HM1 as [HM1 _].
  apply setitem_inv in HE1 as (kE & HkE & ->).
  apply setitem_inv in HM1 as (kM & HkM & ->).
  rewrite length_replicate in HkE, HkM.
  rewrite np_index_nonneg in HkE, HkM by lia.
  injection HkE as <-. injection HkM as <-.
  apply Az_bind_inv in H as ([[s1 aE1] aM1] & g6 & Hfold & H).
  injection H as <- <- <- <-.
  apply (evolucion_bucle_marco beta p) in Hfold as (HE & HM & HlE & HlM).
  - rewrite HE, HM, HlE, HlM, !length_insert, !length_replicate.
    rewrite !list_lookup_insert_ne by (change (Z.to_nat 0) with 0%nat; lia).
    rewrite !lookup_replicate_2 by lia. auto.
  - rewrite length_insert, length_replicate. exact Hno.
  - rewrite length_insert, length_replicate. exact Hno.
Qed.

(** ** Averages *)

Lemma omap_lookup_cons (x : Q) (a : list Q) (ks : list nat) :
  omap (fun k => (x :: a) !! k) (S <$> ks) = omap (fun k => a !! k) ks.
Proof.
  induction ks as [|k ks IH]; [reflexivity|].
  simpl. destruct (a !! k); [f_equal|]; exact IH.
Qed.

Lemma omap_lookup_seq (a : list Q) :
  omap (fun k => a !! k) (seq 0 (length a)) = a.
Proof.
  induction a as [|x a IH]; [reflexivity|].
  change (seq 0 (length (x :: a))) with (0%nat :: seq 1 (length a)).
  rewrite <- fmap_S_seq.
  change (x :: omap (fun k => (x :: a) !! k) (S <$> seq 0 (length a)) = x :: a).
  rewrite omap_lookup_cons, IH. reflexivity.
Qed.

Lemma restringida_drop (a : list Q) (t : Z) :
  restringida a t = drop (Z.to_nat t) a.
Proof.
  unfold restringida. generalize (Z.to_nat t) as n. intros n. revert a.
  induction n as [|n IH]; intros a.
  - rewrite Nat.sub_0_r. apply omap_lookup_seq.
  - destruct a as [|x a]; [reflexivity|].
    change (length (x :: a) - S n)%nat with (length a - n)%nat.
    rewrite <- fmap_S_seq, omap_lookup_cons. apply IH.
Qed.

Lemma slice_from_nonneg {A : Type} (a : list A) (t : Z) :
  0 <= t → slice_from a t = drop (Z.to_nat t) a.
Proof. intros Ht. unfold slice_from. destruct (Z.leb_spec 0 t); [reflexivity | lia]. Qed.

Lemma np_mean_media (a : list Q) : a ≠ [] → np_mean a = Ok (media a).
Proof. destruct a; [contradiction | reflexivity]. Qed.

Lemma drop_no_vacia {A : Type} (a : list A) (n : nat) :
  (n < length a)%nat → drop n a ≠ [].
Proof.
  intros Hn Heq. apply (f_equal length) in Heq.
  rewrite length_drop in Heq. simpl in Heq. lia.
Qed.

Lemma slice_from_no_vacia {A : Type} (a : list A) (t : Z) :
  t < Z.of_nat (length a) → a ≠ [] → slice_from a t ≠ [].
Proof.
  intros Ht Ha. assert (0 < length a)%nat by (destruct a; [contradiction | simpl; lia]).
  unfold slice_from. destruct (Z.leb_spec 0 t); apply drop_no_vacia; lia.
Qed.

(** Below the length of two non-empty series every cutoff, negative ones
    included, leaves a non-empty tail, and [promedios] returns. *)
Lemma promedios_Ok (array_E array_M : list Q) (t : Z) :
  t < Z.of_nat (length array_E) → t < Z.of_nat (length array_M) →
  array_E ≠ [] → array_M ≠ [] →
  promedios array_E array_M t
  = Ok (media (slice_from array_E t), media (slice_from array_M t)).
Proof.
  intros HE HM HnE HnM. unfold promedios.
  rewrite !np_mean_media by (apply slice_from_no_vacia; assumption).
  reflexivity.
Qed.

(** ** The float64 mean *)

Lemma redondear64_Qeq (x y : Q) : (x == y)%Q → redondear64 x = redondear64 y.
Proof. intros H. unfold redondear64. rewrite (Qred_complete x y H). reflexivity. Qed.

(** *** Values that do not round *)

Lemma entero_cercano_exacto (q d : Z) : 0 < d → entero_cercano (q * d) d = q.
Proof.
  intros Hd. unfold entero_cercano.
  rewrite Z.div_mul, Z.mod_mul by lia.
  destruct (Z.ltb_spec (2 * 0) d); [reflexivity | lia].
Qed.

Lemma log2_cociente_pow2 (a s : Z) :
  0 < a → 0 <= s → log2_cociente a (2 ^ s) = Z.log2 a - s.
Proof.
  intros Ha Hs. unfold log2_cociente. rewrite Z.log2_pow2 by assumption.
  destruct (Z.log2_spec a Ha) as [Hlo _].
  assert (HL : 0 <= Z.log2 a) by apply Z.log2_nonneg.
  destruct (Z.leb_spec 0 (Z.log2 a - s)) as [Hl|Hl].
  - rewrite <- Z.pow_add_r by lia.
    replace (s + (Z.log2 a - s)) with (Z.log2 a) by lia.
    destruct (Z.ltb_spec a (2 ^ Z.log2 a)); [lia | reflexivity].
  - assert (Hpow : 2 ^ s = 2 ^ Z.log2 a * 2 ^ (- (Z.log2 a - s))).
    { rewrite <- Z.pow_add_r by lia. f_equal. lia. }
    assert (0 < 2 ^ (- (Z.log2 a - s))) by (apply Z.pow_pos_nonneg; lia).
    destruct (Z.ltb_spec (a * 2 ^ (- (Z.log2 a - s))) (2 ^ s)); [nia | reflexivity].
Qed.

(** A reduced fraction [p / 2^s] with [|p| < 2^53] and [s <= 1074] is a
    float64 value. *)
Lemma redondear64_reducido (p s : Z) :
  Z.abs p < 2 ^ 53 → 0 <= s <= 1074 →
  Qred (p # Z.to_pos (2 ^ s)) = (p # Z.to_pos (2 ^ s))%Q →
  (redondear64 (p # Z.to_pos (2 ^ s)) == p # Z.to_pos (2 ^ s))%Q.
Proof.
  intros Hp Hs Hred. unfold redondear64. rewrite Hred. cbn [Qnum Qden].
  assert (Hd : 0 < 2 ^ s) by (apply Z.pow_pos_nonneg; lia).
  rewrite Z2Pos.id by assumption.
  destruct (Z.eqb_spec (Z.abs p) 0) as [H0|H0].
  { assert (p = 0) as -> by lia. reflexivity. }
  set (a := Z.abs p) in *. assert (Ha : 0 < a) by (unfold a; lia).
  rewrite log2_cociente_pow2 by lia.
  assert (HL : 0 <= Z.log2 a <= 52).
  { split; [apply Z.log2_nonneg|].
    assert (Z.log2 a < 53) by (apply Z.log2_lt_pow2; lia). lia. }
  set (e := Z.max (Z.log2 a - s - 52) (-1074)).
  assert (He : e <= - s) by (unfold e; lia).
  assert (Hy : ((if 0 <=? e then inject_Z (entero_cercano a (2 ^ s * 2 ^ e) * 2 ^ e)
                 else entero_cercano (a * 2 ^ (- e)) (2 ^ s) # Z.to_pos (2 ^ (- e)))
                == a # Z.to_pos (2 ^ s))%Q).
  { destruct (Z.leb_spec 0 e) as [He0|He0].
    - assert (s = 0) as -> by lia. assert (e = 0) as -> by lia.
      change (2 ^ 0 * 2 ^ 0) with 1. change (2 ^ 0) with 1.
      rewrite <- (Z.mul_1_r a) at 1. rewrite entero_cercano_exacto by lia.
      unfold Qeq, inject_Z. simpl. lia.
    - assert (Hpow : 2 ^ (- e) = 2 ^ (- e - s) * 2 ^ s).
      { rewrite <- Z.pow_add_r by lia. f_equal. lia. }
      assert (He' : 0 < 2 ^ (- e)) by (apply Z.pow_pos_nonneg; lia).
      replace (a * 2 ^ (- e)) with (a * 2 ^ (- e - s) * 2 ^ s) by (rewrite Hpow; ring).
      rewrite entero_cercano_exacto by assumption.
      unfold Qeq. cbn [Qnum Qden]. rewrite !Z2Pos.id by assumption.
      rewrite Hpow. ring. }
  destruct (Z.ltb_spec p 0) as [Hneg|Hpos].
  - rewrite Hy. unfold Qeq, Qopp. cbn [Qnum Qden]. unfold a. f_equal. lia.
  - rewrite Hy. unfold Qeq. cbn [Qnum Qden]. unfold a. f_equal. lia.
Qed.

Lemma gcd_impar_2 (g : Z) : Z.odd g = true → Z.gcd g 2 = 1.
Proof.
  intros Hg. apply Z.odd_spec in Hg as [w Hw].
  pose proof (Z.gcd_divide_l g 2) as [u Hu].
  pose proof (Z.gcd_divide_r g 2) as [v Hv].
  pose proof (Z.gcd_nonneg g 2) as H0.
  assert (Hle : Z.gcd g 2 <= 2) by (apply Z.divide_pos_le; [lia | apply Z.gcd_divide_r]).
  assert (Hn0 : Z.gcd g 2 ≠ 0) by (intros Hz; rewrite Hz in Hv; lia).
  assert (Hn2 : Z.gcd g 2 ≠ 2) by (intros Hz; rewrite Hz in Hu; lia).
  lia.
Qed.

Lemma divisor_impar_pow2 (s : nat) (g : Z) :
  0 < g → Z.odd g = true → (g | 2 ^ Z.of_nat s) → g = 1.
Proof.
  intros Hg Hodd. induction s as [|s IH]; intros Hdiv.
  - apply Z.divide_1_r_nonneg in Hdiv; lia.
  - apply IH. rewrite Nat2Z.inj_succ, Z.pow_succ_r in Hdiv by lia.
    apply (Z.gauss g 2); [assumption | apply gcd_impar_2, Hodd].
Qed.

Lemma Qred_impar (p : Z) (s : nat) :
  Z.odd p = true →
  Qred (p # Z.to_pos (2 ^ Z.of_nat s)) = (p # Z.to_pos (2 ^ Z.of_nat s))%Q.
Proof.
  intros Hp. apply Qcanon.Qred_identity. cbn [Qnum Qden].
  assert (Hd : 0 < 2 ^ Z.of_nat s) by (apply Z.pow_pos_nonneg; lia).
  rewrite Z2Pos.id by assumption.
  pose proof (Z.gcd_nonneg p (2 ^ Z.of_nat s)) as H0.
  pose proof (Z.gcd_divide_l p (2 ^ Z.of_nat s)) as [u Hu].
  pose proof (Z.gcd_divide_r p (2 ^ Z.of_nat s)) as Hr.
  apply (divisor_impar_pow2 s); [| |assumption].
  - destruct Hr as [v Hv]. destruct (Z.eq_dec (Z.gcd p (2 ^ Z.of_nat s)) 0) as [H|H]; [|lia].
    rewrite H in Hv. lia.
  - rewrite Hu, Z.odd_mul in Hp. apply andb_true_iff in Hp as [_ Hp]. exact Hp.
Qed.

(** A fraction [p / 2^s] with [|p| < 2^53] and [s <= 1074] is a float64
    value, reduced or not. *)
Lemma redondear64_diadico (s : nat) :
  ∀ p : Z,
    Z.abs p < 2 ^ 53 → (s <= 1074)%nat →
    (redondear64 (p # Z.to_pos (2 ^ Z.of_nat s)) == p # Z.to_pos (2 ^ Z.of_nat s))%Q.
Proof.
  induction s as [|s IH]; intros p Hp Hs.
  - apply redondear64_reducido; [assumption | lia |].
    apply Qcanon.Qred_identity. simpl. apply Z.gcd_1_r.
  - destruct (Z.odd p) eqn:Hodd.
    + apply redondear64_reducido; [assumption | lia | apply Qred_impar; assumption].
    + assert (Hev : Z.even p = true) by (rewrite <- Z.negb_odd, Hodd; reflexivity).
      apply Z.even_spec in Hev as [w ->].
      assert (Heq : (2 * w # Z.to_pos (2 ^ Z.of_nat (S s)) == w # Z.to_pos (2 ^ Z.of_nat s))%Q).
      { unfold Qeq. cbn [Qnum Qden].
        rewrite !Z2Pos.id by (apply Z.pow_pos_nonneg; lia).
        rewrite Nat2Z.inj_succ, Z.pow_succ_r by lia. ring. }
      rewrite (redondear64_Qeq _ _ Heq), Heq. apply IH; lia.
Qed.

(** The multiples of a half-integer [z / 2] are float64 values as long as
    they stay below [2^52]. *)
Lemma exactos_mitades (c : Q) (z : Z) (n : nat) :
  (c == inject_Z z / 2)%Q → Z.of_nat n * Z.abs z < 2 ^ 53 → exactos c n.
Proof.
  intros Hc Hn k Hk.
  assert (Heq : (multiplo k c == Z.of_nat k * z # Z.to_pos (2 ^ Z.of_nat 1))%Q).
  { unfold multiplo. rewrite Hc. unfold Qeq, Qdiv, Qmult, Qinv, inject_Z. simpl. lia. }
  rewrite (redondear64_Qeq _ _ Heq), Heq.
  apply redondear64_diadico; [|lia].
  rewrite Z.abs_mul. nia.
Qed.

(** *** Constant series

    When the multiples [c, 2 c, ..., n0 c] are float64 values, no addition
    in the float64 sum of at most [n0] entries equal to [c] rounds: every
    partial sum is one of these multiples. *)
Section Constante.

Variables (c : Q) (n0 : nat).
Hypothesis Hex : exactos c n0.

Lemma multiplo_suma (j k : nat) :
  (multiplo j c + multiplo k c == multiplo (j + k) c)%Q.
Proof. unfold multiplo. rewrite Nat2Z.inj_add, inject_Z_plus. ring. Qed.

Lemma suma64_multiplos (j k : nat) (x y : Q) :
  (x == multiplo j c)%Q → (y == multiplo k c)%Q → (1 <= j + k <= n0)%nat →
  (suma64 x y == multiplo (j + k) c)%Q.
Proof.
  intros Hx Hy Hjk. unfold suma64.
  rewrite (redondear64_Qeq (x + y) (multiplo (j + k) c)); [apply Hex; lia|].
  rewrite Hx, Hy. apply multiplo_suma.
Qed.

Lemma multiplo_1 (x : Q) : (x == c)%Q → (x == multiplo 1 c)%Q.
Proof. intros ->. unfold multiplo. simpl. ring. Qed.

Lemma acumular_multiplos (a : list Q) :
  Forall (fun x => (x == c)%Q) a →
  ∀ (j : nat) (res : Q),
    (res == multiplo j c)%Q → (j + length a <= n0)%nat →
    (acumular res a == multiplo (j + length a) c)%Q.
Proof.
  unfold acumular. induction 1 as [|x a Hx Ha IH]; intros j res Hres Hj; simpl in *.
  - rewrite Nat.add_0_r. exact Hres.
  - replace (j + S (length a))%nat with (j + 1 + length a)%nat by lia.
    apply IH; [|lia].
    apply suma64_multiplos; [assumption | apply multiplo_1, Hx | lia].
Qed.

Lemma zip_with_multiplos (j : nat) (r b : list Q) :
  (1 + j <= n0)%nat →
  Forall (fun x => (x == multiplo j c)%Q) r →
  Forall (fun x => (x == c)%Q) b →
  Forall (fun x => (x == multiplo (j + 1) c)%Q) (zip_with suma64 r b).
Proof.
  intros Hj Hr. revert b. induction Hr as [|x r Hx Hr IH]; intros b Hb; [constructor|].
  destruct Hb as [|y b Hy Hb]; [constructor|]. simpl. constructor; [|auto].
  apply suma64_multiplos; [assumption | apply multiplo_1, Hy | lia].
Qed.

Lemma acumuladores_multiplos (a : list Q) (idx : list nat) :
  Forall (fun x => (x == c)%Q) a →
  Forall (fun i => (i + 8 <= length a)%nat) idx →
  ∀ (j : nat) (r : list Q),
    length r = 8%nat → Forall (fun x => (x == multiplo j c)%Q) r →
    (j + length idx <= n0)%nat →
    let r' := foldl (fun r i => zip_with suma64 r (take 8 (drop i a))) r idx in
    length r' = 8%nat ∧ Forall (fun x => (x == multiplo (j + length idx) c)%Q) r'.
Proof.
  intros Ha. induction 1 as [|i idx Hi Hidx IH]; intros j r Hl Hr Hj; simpl in *.
  - rewrite Nat.add_0_r. auto.
  - destruct (IH (j + 1)%nat (zip_with suma64 r (take 8 (drop i a)))) as [Hl' Hr'].
    + rewrite length_zip_with, length_take, length_drop. lia.
    + apply zip_with_multiplos; [lia | assumption |].
      apply Forall_take, Forall_drop, Ha.
    + lia.
    + replace (j + S (length idx))%nat with (j + 1 + length idx)%nat by lia.
      split; assumption.
Qed.

Lemma pairwise_sum_bloque_multiplos (a : list Q) :
  Forall (fun x => (x == c)%Q) a → (8 <= length a <= n0)%nat →
  (pairwise_sum_bloque a == multiplo (length a) c)%Q.
Proof.
  intros Ha Hn. unfold pairwise_sum_bloque.
  set (n := length a) in *. set (m := (n - n mod 8)%nat).
  pose proof (Nat.div_mod_eq n 8) as Hdm.
  pose proof (Nat.mod_upper_bound n 8 ltac:(lia)) as Hmod.
  assert (Hm : m = (8 * (n / 8))%nat) by (unfold m; lia).
  assert (Hq : (1 <= n / 8)%nat) by (apply Nat.div_le_lower_bound; lia).
  set (q := (n / 8)%nat) in *.
  assert (Hm8 : (m / 8 = q)%nat).
  { rewrite Hm, Nat.mul_comm. apply Nat.div_mul. lia. }
  rewrite Hm8.
  destruct (acumuladores_multiplos a (map (fun k => (8 * S k)%nat) (seq 0 (q - 1))) Ha)
    with (j := 1%nat) (r := take 8 a) as [Hl Hr].
  - apply Forall_fmap, Forall_forall. intros k Hk. apply elem_of_seq in Hk.
    simpl. fold n. lia.
  - rewrite length_take. fold n. lia.
  - eapply Forall_impl; [apply Forall_take, Ha|]. intros x Hx. apply multiplo_1, Hx.
  - rewrite length_map, length_seq. lia.
  - cbv zeta in Hl, Hr. rewrite length_map, length_seq in Hr.
    replace (1 + (q - 1))%nat with q in Hr by lia.
    set (r := foldl _ _ _) in *.
    destruct r as [|r0 [|r1 [|r2 [|r3 [|r4 [|r5 [|r6 [|r7 [|r8 r]]]]]]]]];
      try discriminate Hl.
    repeat match goal with
           | H : Forall _ (_ :: _) |- _ => apply Forall_cons_1 in H as [? H]
           end.
    simpl.
    assert (Hresto : (8 * q + length (drop m a))%nat = n)
      by (rewrite length_drop; fold n; lia).
    rewrite <- Hresto.
    apply (acumular_multiplos (drop m a) (Forall_drop _ _ _ Ha) (8 * q)%nat); [|lia].
    replace (8 * q)%nat with ((q + q) + (q + q) + ((q + q) + (q + q)))%nat by lia.
    repeat apply suma64_multiplos; try assumption; lia.
Qed.

Lemma pairwise_sum_S (fuel : nat) (a : list Q) :
  pairwise_sum (S fuel) a
  = if (length a <? 8)%nat then acumular 0%Q a
    else if (length a <=? 128)%nat then pairwise_sum_bloque a
    else suma64 (pairwise_sum fuel (take (length a / 2 - (length a / 2) mod 8) a))
                (pairwise_sum fuel (drop (length a / 2 - (length a / 2) mod 8) a)).
Proof. reflexivity. Qed.

Lemma pairwise_sum_multiplos (fuel : nat) :
  ∀ a : list Q,
    Forall (fun x => (x == c)%Q) a → (length a <= fuel)%nat → (length a <= n0)%nat →
    (pairwise_sum fuel a == multiplo (length a) c)%Q.
Proof.
  induction fuel as [|fuel IH]; intros a Ha Hf Hn.
  - destruct a; [|simpl in Hf; lia]. simpl. unfold multiplo. simpl. ring.
  - rewrite pairwise_sum_S.
    destruct (Nat.ltb_spec (length a) 8) as [H8|H8].
    { apply (acumular_multiplos a Ha 0%nat); [|simpl; lia].
      unfold multiplo. simpl. ring. }
    destruct (Nat.leb_spec (length a) 128) as [H128|H128].
    { apply pairwise_sum_bloque_multiplos; [assumption | lia]. }
    set (n := length a) in *.
    set (n2 := (n / 2 - (n / 2) mod 8)%nat).
    pose proof (Nat.div_mod_eq n 2) as Hdm.
    pose proof (Nat.mod_upper_bound n 2 ltac:(lia)) as Hmod.
    pose proof (Nat.mod_upper_bound (n / 2) 8 ltac:(lia)) as Hmod8.
    assert (Hn2 : (0 < n2 < n)%nat) by (unfold n2; lia).
    assert (Ht : length (take n2 a) = n2) by (rewrite length_take; fold n; lia).
    assert (Hd : length (drop n2 a) = (n - n2)%nat) by (rewrite length_drop; reflexivity).
    fold n2.
    rewrite (suma64_multiplos n2 (n - n2)
               (pairwise_sum fuel (take n2 a)) (pairwise_sum fuel (drop n2 a))).
    + replace (n2 + (n - n2))%nat with n by lia. reflexivity.
    + rewrite <- Ht at 2. apply IH; [apply Forall_take, Ha | lia | lia].
    + rewrite <- Hd. apply IH; [apply Forall_drop, Ha | lia | lia].
    + lia.
Qed.

Lemma media_f64_constante (a : list Q) :
  a ≠ [] → Forall (fun x => (x == c)%Q) a → (length a <= n0)%nat →
  (media_f64 a == c)%Q.
Proof.
  intros Hne Ha Hn.
  assert (Hlen : (1 <= length a)%nat) by (destruct a; [congruence | simpl; lia]).
  assert (Hsum : (np_add_reduce a == multiplo (length a) c)%Q).
  { unfold np_add_reduce.
    apply (suma64_multiplos 0 (length a)); [|apply pairwise_sum_multiplos|]; try lia;
      [unfold multiplo; simpl; ring | assumption]. }
  assert (Hq : (np_add_reduce a / inject_Z (Z.of_nat (length a)) == multiplo 1 c)%Q).
  { rewrite Hsum. unfold multiplo. simpl. field.
    unfold Qeq. simpl. lia. }
  unfold media_f64, div64. rewrite (redondear64_Qeq _ _ Hq), (Hex 1%nat) by lia.
  unfold multiplo. simpl. ring.
Qed.

End Constante.

Lemma exactos_b_ok (c : Q) (n : nat) : exactos_b c n = true → exactos c n.
Proof.
  unfold exactos_b, exactos. intros H k Hk.
  rewrite forallb_forall in H. apply Qeq_bool_eq, H, in_seq. lia.
Qed.

(** The cut of [pairwise_sum] leaves two shorter parts, so the sum does not
    depend on the fuel once it covers the length of the array. *)
Lemma pairwise_sum_fuel (f1 : nat) :
  ∀ (f2 : nat) (a : list Q),
    (length a <= f1)%nat → (length a <= f2)%nat →
    pairwise_sum f1 a = pairwise_sum f2 a.
Proof.
  induction f1 as [|f1 IH]; intros f2 a H1 H2.
  - destruct a; [|simpl in H1; lia]. destruct f2; reflexivity.
  - destruct f2 as [|f2]; [destruct a; [reflexivity | simpl in H2; lia]|].
    rewrite !pairwise_sum_S.
    destruct (Nat.ltb_spec (length a) 8); [reflexivity|].
    destruct (Nat.leb_spec (length a) 128); [reflexivity|].
    pose proof (Nat.div_mod_eq (length a) 2).
    pose proof (Nat.mod_upper_bound (length a) 2 ltac:(lia)).
    pose proof (Nat.mod_upper_bound (length a / 2) 8 ltac:(lia)).
    f_equal; apply IH; rewrite ?length_take, ?length_drop; lia.
Qed.

Lemma np_mean_f64_media (a : list Q) : a ≠ [] → np_mean_f64 a = Ok (media_f64 a).
Proof. destruct a; [contradiction | reflexivity]. Qed.

Lemma promedios_f64_Ok (array_E array_M : list Q) (t : Z) :
  t < Z.of_nat (length array_E) → t < Z.of_nat (length array_M) →
  array_E ≠ [] → array_M ≠ [] →
  promedios_f64 array_E array_M t
  = Ok (media_f64 (slice_from array_E t), media_f64 (slice_from array_M t)).
Proof.
  intros HE HM HnE HnM. unfold promedios_f64.
  rewrite !np_mean_f64_media by (apply slice_from_no_vacia; assumption).
  reflexivity.
Qed.

Lemma length_slice_from {A : Type} (a : list A) (t : Z) :
  (length (slice_from a t) <= length a)%nat.
Proof. unfold slice_from. destruct (0 <=? t); rewrite length_drop; lia. Qed.

(** The energies that [var_termo] returns are half-integers [z / 2], and so
    are the magnetizations [1], [0] and [-1]: a series that stays at one of
    them averages to it. *)
Lemma promedios_f64_mitades (array_E array_M : list Q) (t zE zM : Z) :
  t < Z.of_nat (length array_E) → t < Z.of_nat (length array_M) →
  array_E ≠ [] → array_M ≠ [] →
  Forall (fun x => (x == inject_Z zE / 2)%Q) array_E →
  Forall (fun x => (x == inject_Z zM / 2)%Q) array_M →
  Z.of_nat (length array_E) * Z.abs zE < 2 ^ 53 →
  Z.of_nat (length array_M) * Z.abs zM < 2 ^ 53 →
  ∃ E_prom M_prom,
    promedios_f64 array_E array_M t = Ok (E_prom, M_prom)
    ∧ (E_prom == inject_Z zE / 2)%Q ∧ (M_prom == inject_Z zM / 2)%Q.
Proof.
  intros HE HM HnE HnM HcE HcM HzE HzM.
  eexists _, _. split; [apply promedios_f64_Ok; assumption|].
  pose proof (length_slice_from array_E t) as HlE.
  pose proof (length_slice_from array_M t) as HlM.
  split.
  - apply (media_f64_constante _ (length (slice_from array_E t)));
      [ apply (exactos_mitades _ zE); [reflexivity | nia]
      | apply slice_from_no_vacia; assumption
      | unfold slice_from; destruct (0 <=? t); apply Forall_drop, HcE
      | reflexivity ].
  - apply (media_f64_constante _ (length (slice_from array_M t)));
      [ apply (exactos_mitades _ zM); [reflexivity | nia]
      | apply slice_from_no_vacia; assumption
      | unfold slice_from; destruct (0 <=? t); apply Forall_drop, HcM
      | reflexivity ].
Qed.

(** ** The random lattice *)

Lemma uniform_n_Ok (n : nat) (g : rng) :
  ∃ us g', uniform_n n g = Ok (us, g') ∧ length us = n.
Proof.
  revert g. induction n as [|n IH]; intros g.
  - exists [], g. split; reflexivity.
  - simpl. rewrite (Az_bind_Ok uniform _ g _ (reales g 0%nat) eq_refl). cbv beta.
    destruct (IH (mk_rng (enteros g) (fun n => reales g (S n))))
      as (us & g' & Hus & Hlen).
    rewrite (Az_bind_Ok _ _ _ _ _ Hus). cbv beta.
    exists (reales g 0%nat :: us), g'. split; [reflexivity | simpl; congruence].
Qed.

Lemma gen_array_espines_filas (n : nat) (js : list Z) :
  ∀ (filas : list (list Q)) (g : rng),
    Forall (fun fila => length fila = n) filas →
    ∃ filas' g',
      foldAz (fun filas (_ : Z) => fila ← uniform_n n; mret (filas ++ [fila]))
             js filas g = Ok (filas', g')
      ∧ length filas' = (length filas + length js)%nat
      ∧ Forall (fun fila => length fila = n) filas'.
Proof.
  induction js as [|j js IH]; intros filas g Hfilas.
  - exists filas, g. split; [reflexivity|]. split; [simpl; lia | assumption].
  - destruct (uniform_n_Ok n g) as (us & g1 & Hus & Hlen).
    destruct (IH (filas ++ [us]) g1) as (filas' & g' & Hfold & Hl & Hf).
    { apply Forall_app. split; [assumption|]. constructor; [assumption | constructor]. }
    exists filas', g'. split; [|split; [|assumption]].
    + simpl. erewrite Az_bind_Ok; [exact Hfold|].
      rewrite (Az_bind_Ok _ _ _ _ _ Hus). reflexivity.
    + rewrite Hl, length_app. simpl. lia.
Qed.

(** [gen_array_espines] returns an [L x L] lattice of spins. *)
Lemma gen_array_espines_Ok (g : rng) :
  ∃ s g', gen_array_espines g = Ok (s, g') ∧ cuadrada s ∧ espines s.
Proof.
  destruct (gen_array_espines_filas (Z.to_nat L) (range L) [] g)
    as (filas & g' & Hfold & Hl & Hf); [constructor|].
  eexists _, g'. split; [|split].
  - unfold gen_array_espines. rewrite (Az_bind_Ok _ _ _ _ _ Hfold). reflexivity.
  - split.
    + rewrite !length_map, Hl, length_range. reflexivity.
    + rewrite !Forall_fmap. eapply Forall_impl; [exact Hf|].
      intros fila Hfila. simpl. rewrite !length_map. exact Hfila.
  - unfold espines. rewrite !Forall_fmap. apply Forall_true. intros fila. simpl.
    rewrite !Forall_fmap. apply Forall_true. intros u. simpl.
    destruct (Qlt_bool u (1 # 2)); auto.
Qed.

(** ** The temperature sweep *)

Lemma tiempo_sim_en_rango :
  Forall (fun i => - cant_iter <= i < cant_iter) (drop 1 tiempo_sim).
Proof.
  apply Forall_drop, Forall_forall. intros i Hi.
  apply elem_of_range in Hi. lia.
Qed.

(** With [t_estable < cant_iter] the work for one sample completes, and
    [main_paso] stores its averages at the sample's index. *)
Lemma muestra_Ok (beta : Q) (g : rng) :
  0 < N → 0 < cant_iter → t_estable < cant_iter →
  ∃ s s' aE aM g1 g',
    gen_array_espines g = Ok (s, g1)
    ∧ evolucion tiempo_sim beta s g1 = Ok ((s', (aE, aM)), g')
    ∧ muestra beta g
      = Ok ((media (slice_from aE t_estable), media (slice_from aM t_estable)), g')
    ∧ promedios aE aM t_estable
      = Ok (media (slice_from aE t_estable), media (slice_from aM t_estable)).
Proof.
  intros HN Hc Ht.
  destruct (gen_array_espines_Ok g) as (s & g1 & Hgen & Hs & _).
  destruct (evolucion_Ok tiempo_sim beta s g1 HN Hc Hs tiempo_sim_en_rango)
    as (s' & aE & aM & g' & Hev & HlE & HlM & _).
  exists s, s', aE, aM, g1, g'.
  assert (Hprom : promedios aE aM t_estable
                  = Ok (media (slice_from aE t_estable),
                        media (slice_from aM t_estable))).
  { apply promedios_Ok; try lia; intros ->; simpl in *; lia. }
  split; [assumption|]. split; [assumption|]. split; [|assumption].
  unfold muestra.
  rewrite (Az_bind_Ok _ _ _ _ _ Hgen). cbv beta.
  rewrite (Az_bind_Ok _ _ _ _ _ Hev). cbv beta iota.
  rewrite Hprom. reflexivity.
Qed.

Lemma main_paso_Ok (aT aB aEp aMp : list Q) (j : Z) (graf : list grafica)
    (i : nat) (T beta : Q) (g : rng) :
  0 < N → 0 < cant_iter → t_estable < cant_iter →
  aT !! i = Some T → aB !! i = Some beta →
  (i < length aEp)%nat → (i < length aMp)%nat →
  ∃ E M j' graf' g',
    muestra beta g = Ok ((E, M), g')
    ∧ main_paso aT aB (aEp, aMp, j, graf) (Z.of_nat i) g
      = Ok ((<[i := E]> aEp, <[i := M]> aMp, j', graf'), g').
Proof.
  intros HN Hc Ht HT HB HiE HiM.
  destruct (muestra_Ok beta g HN Hc Ht)
    as (s & s' & aE & aM & g1 & g' & Hgen & Hev & Hmu & Hprom).
  set (c := (Z.of_nat i =? 0) || (Z.of_nat i =? cant_Temp ÷ 4)
            || (Z.of_nat i =? cant_Temp - 1)).
  exists (media (slice_from aE t_estable)), (media (slice_from aM t_estable)),
    (if c then j + 1 else j),
    (if c then graf ++ [Graficas_EyM tiempo_sim aE aM T (j + 1)] else graf), g'.
  split; [exact Hmu|].
  unfold main_paso. fold c.
  rewrite (getitem_nonneg aB (Z.of_nat i) beta), Az_bind_lift
    by (lia || rewrite Nat2Z.id; assumption).
  cbv beta.
  rewrite (Az_bind_Ok _ _ _ _ _ Hgen). cbv beta.
  rewrite (Az_bind_Ok _ _ _ _ _ Hev). cbv beta iota.
  rewrite (getitem_nonneg aT (Z.of_nat i) T)
    by (lia || rewrite Nat2Z.id; assumption).
  rewrite Hprom.
  destruct c; unfold mbind, Az_bind, mret, Az_ret, lift; cbv beta iota;
    rewrite !setitem_nonneg by lia; rewrite Nat2Z.id; reflexivity.
Qed.

Lemma main_bucle (aT aB : list Q) (n : nat) :
  0 < N → 0 < cant_iter → t_estable < cant_iter →
  length aT = n → length aB = n →
  ∀ (m a : nat) (aEp aMp : list Q) (j : Z) (graf : list grafica) (g : rng),
    (a + m = n)%nat → length aEp = n → length aMp = n →
    ∃ aEp' aMp' j' graf' g' (gs : nat → rng),
      foldAz (main_paso aT aB) (map Z.of_nat (seq a m)) (aEp, aMp, j, graf) g
      = Ok ((aEp', aMp', j', graf'), g')
      ∧ gs a = g ∧ gs (a + m)%nat = g'
      ∧ length aEp' = n ∧ length aMp' = n
      ∧ (∀ i, (i < a)%nat → aEp' !! i = aEp !! i ∧ aMp' !! i = aMp !! i)
      ∧ (∀ i, (a <= i < a + m)%nat →
           ∃ beta E M,
             aB !! i = Some beta
             ∧ muestra beta (gs i) = Ok ((E, M), gs (S i))
             ∧ aEp' !! i = Some E ∧ aMp' !! i = Some M).
Proof.
  intros HN Hc Ht HlT HlB. induction m as [|m IH]; intros a aEp aMp j graf g Ha HlE HlM.
  - exists aEp, aMp, j, graf, g, (fun _ => g).
    split; [reflexivity|]. do 4 (split; [assumption || reflexivity|]).
    split; [auto | intros i Hi; lia].
  - destruct (lookup_lt_is_Some_2 aT a) as [T HT]; [lia|].
    destruct (lookup_lt_is_Some_2 aB a) as [beta HB]; [lia|].
    destruct (main_paso_Ok aT aB aEp aMp j graf a T beta g HN Hc Ht HT HB)
      as (E & M & j1 & graf1 & g1 & Hmu & Hpaso); [lia .. |].
    destruct (IH (S a) (<[a := E]> aEp) (<[a := M]> aMp) j1 graf1 g1)
      as (aEp' & aMp' & j' & graf' & g' & gs & Hfold & Hgs0 & Hgs1 & HlE' & HlM'
          & Hantes & Hdesde);
      [lia | rewrite length_insert; assumption .. |].
    exists aEp', aMp', j', graf', g', (fun i => if (i <=? a)%nat then g else gs i).
    split; [simpl; rewrite (Az_bind_Ok _ _ _ _ _ Hpaso); exact Hfold|].
    split; [rewrite Nat.leb_refl; reflexivity|].
    split.
    { destruct (Nat.leb_spec (a + S m) a); [lia|].
      rewrite <- Hgs1. f_equal. lia. }
    do 2 (split; [assumption|]). split.
    + intros i Hi. destruct (Hantes i) as [HE HM]; [lia|].
      rewrite HE, HM, !list_lookup_insert_ne by lia. auto.
    + intros i Hi. destruct (Nat.leb_spec i a) as [Hle|Hgt].
      * assert (i = a) as -> by lia.
        destruct (Nat.leb_spec (S a) a); [lia|].
        exists beta, E, M. rewrite Hgs0. split; [assumption|]. split; [assumption|].
        destruct (Hantes a) as [HE HM]; [lia|].
        rewrite HE, HM, !list_lookup_insert_eq by lia. auto.
      * destruct (Nat.leb_spec (S i) a); [lia|].
        apply Hdesde. lia.
Qed.

Lemma T_critico_pos : 0 < J → (0 < np_arcsinh 1)%Q → (0 < T_critico)%Q.
Proof.
  intros HJ Ha. unfold T_critico, beta_critico, Qdiv.
  rewrite Qmult_1_l. apply Qinv_lt_0_compat.
  apply Qmult_lt_0_compat; [assumption|].
  apply Qinv_lt_0_compat. unfold Qlt. simpl. lia.
Qed.

(** The sampled temperatures are positive when [T_critico] is. *)
Lemma temperatura_pos (i : Z) :
  0 <= i → 0 <= cant_Temp - 1 → (0 < T_critico)%Q →
  (0 < ((1 # 100) + inject_Z i * ((3 - (1 # 100)) / inject_Z (cant_Temp - 1)))
       * T_critico)%Q.
Proof.
  intros Hi Hn HT. apply Qmult_lt_0_compat; [|assumption].
  apply Qlt_le_trans with (y := ((1 # 100) + 0)%Q); [reflexivity|].
  apply Qplus_le_r. apply Qmult_le_0_compat.
  - unfold Qle. simpl. lia.
  - unfold Qdiv. apply Qmult_le_0_compat; [discriminate|].
    apply Qinv_le_0_compat. unfold Qle. simpl. lia.
Qed.

(** ** Sums over the lattice *)

Lemma suma_ext (f h : Z → Z) (n : Z) :
  (∀ k, 0 <= k < n → f k = h k) → suma f n = suma h n.
Proof.
  intros Hfh. unfold suma. f_equal. apply map_ext_in.
  intros k Hk. apply Hfh, elem_of_range, list_elem_of_In, Hk.
Qed.

Lemma suma_cota (f : Z → Z) (c n : Z) :
  (∀ k, 0 <= k < n → - c <= f k <= c) →
  - (c * Z.of_nat (Z.to_nat n)) <= suma f n <= c * Z.of_nat (Z.to_nat n).
Proof.
  intros Hf. unfold suma.
  assert (Hin : ∀ k, k ∈ range n → - c <= f k <= c)
    by (intros k Hk; apply Hf, elem_of_range, Hk).
  rewrite <- length_range. clear Hf.
  induction (range n) as [|k ks IH]; simpl; [lia|].
  pose proof (Hin k (list_elem_of_here _ _)).
  assert (∀ k', k' ∈ ks → - c <= f k' <= c)
    by (intros; apply Hin, list_elem_of_further; assumption).
  specialize (IH ltac:(assumption)). lia.
Qed.

Lemma suma_constante (c n : Z) : suma (fun _ => c) n = c * Z.of_nat (Z.to_nat n).
Proof.
  unfold suma. rewrite <- length_range.
  induction (range n) as [|k ks IH]; simpl; lia.
Qed.

Lemma suma_escala (a : Z) (f : Z → Z) (n : Z) :
  suma (fun k => a * f k) n = a * suma f n.
Proof.
  unfold suma. induction (range n) as [|k ks IH]; simpl; lia.
Qed.

Lemma cuadrada_todos_uno : 0 <= L → cuadrada (todos_uno (Z.to_nat L)).
Proof.
  intros HL. unfold todos_uno. split.
  - apply length_replicate.
  - apply Forall_replicate, length_replicate.
Qed.

Lemma celda_todos_uno (i j : Z) :
  0 <= i < L → 0 <= j < L → celda (todos_uno (Z.to_nat L)) i j = 1.
Proof.
  intros Hi Hj. unfold celda, todos_uno.
  rewrite lookup_replicate_2 by lia. simpl.
  rewrite lookup_replicate_2 by lia. reflexivity.
Qed.

Lemma inject_Z_no_cero (n : Z) : n ≠ 0 → ¬ (inject_Z n == 0)%Q.
Proof. intros Hn H. unfold Qeq in H. simpl in H. lia. Qed.

(** * The claims of the specification *)

(** C4.  For a coordinate [(i, j)] of the lattice, [pos_vecinos] returns
    the four indices [i-1, i+1, j-1, j+1] with [-1] replaced by [L-1] and
    [L] by [0], that is, the four indices modulo [L].  For [L = 9] it
    returns [(8, 1, 8, 1)] at [(0, 0)] and [(7, 0, 7, 0)] at [(8, 8)]; for
    [L = 1] the four indices are [0]. *)
Theorem pos_vecinos_frontera (i j : Z) :
  0 <= i < L → 0 <= j < L →
  pos_vecinos i j
  = [envolver (i - 1); envolver (i + 1); envolver (j - 1); envolver (j + 1)]
  ∧ pos_vecinos i j
    = [(i - 1) mod L; (i + 1) mod L; (j - 1) mod L; (j + 1) mod L]
  ∧ (L = 9 → pos_vecinos 0 0 = [8; 1; 8; 1] ∧ pos_vecinos 8 8 = [7; 0; 7; 0])
  ∧ (L = 1 → pos_vecinos i j = [0; 0; 0; 0]).
Proof.
  intros Hi Hj.
  split; [apply pos_vecinos_envolver; assumption|].
  split; [apply pos_vecinos_mod; assumption|].
  split.
  - intros HL. unfold pos_vecinos. rewrite HL. split; reflexivity.
  - intros HL. assert (i = 0) as -> by lia. assert (j = 0) as -> by lia.
    unfold pos_vecinos. rewrite HL. reflexivity.
Qed.

(** C3.  On an [L x L] lattice, with [N = L * L] cells, [var_termo] returns
    the pair [(E, M)] where [E] is the sum over all cells of
    [-J * s[i,j] * (sum of the four periodic neighbours)], divided by 2, and
    [M] is the sum of all spins divided by [N]; on the lattice of all [+1]
    it returns [E = -2 J N] and [M = 1]. *)
Theorem var_termo_especificacion (s : lattice) :
  0 < N → N = L * L → cuadrada s →
  var_termo s = Ok (energia s, magnetizacion s)
  ∧ ∃ E M, var_termo (todos_uno (Z.to_nat L)) = Ok (E, M)
           ∧ (E == inject_Z (-2 * J * N))%Q ∧ (M == 1)%Q.
Proof.
  intros HN HNL Hs. pose proof (long_lado_pos HN) as HL.
  split; [apply var_termo_eq; [lia | assumption]|].
  exists (energia (todos_uno (Z.to_nat L))), (magnetizacion (todos_uno (Z.to_nat L))).
  split; [apply var_termo_eq; [lia | apply cuadrada_todos_uno; lia]|].
  assert (Hmod : ∀ k, 0 <= k mod L < L) by (intros; apply Z.mod_pos_bound; lia).
  split.
  - unfold energia.
    rewrite (suma_ext _ (fun _ => (- J * 4) * Z.of_nat (Z.to_nat L))).
    + rewrite suma_constante, Z2Nat.id by lia.
      replace (- J * 4 * L * L) with (-2 * J * N * 2) by lia.
      rewrite inject_Z_mult. field.
    + intros i Hi. rewrite <- suma_constante. apply suma_ext. intros j Hj.
      unfold vecinos. rewrite !celda_todos_uno by (auto; lia). lia.
  - unfold magnetizacion.
    rewrite (suma_ext _ (fun _ => 1 * Z.of_nat (Z.to_nat L))).
    + rewrite suma_constante, Z2Nat.id by lia.
      replace (1 * L * L) with N by lia.
      field. apply inject_Z_no_cero. lia.
    + intros i Hi. rewrite <- suma_constante. apply suma_ext. intros j Hj.
      apply celda_todos_uno; assumption.
Qed.

(** C9.  On an [L x L] lattice of spins, the magnetization that [var_termo]
    returns lies in [[-1, 1]] and the energy is an integer multiple of
    [J / 2]. *)
Theorem var_termo_cotas (s : lattice) :
  0 < N → N = L * L → cuadrada s → espines s →
  ∃ E M, var_termo s = Ok (E, M)
         ∧ (- (1) <= M)%Q ∧ (M <= 1)%Q
         ∧ ∃ k : Z, (E == inject_Z k * (inject_Z J / 2))%Q.
Proof.
  intros HN HNL Hs He. pose proof (long_lado_pos HN) as HL.
  exists (energia s), (magnetizacion s).
  split; [apply var_termo_eq; [lia | assumption]|].
  assert (Hsuma : - N <= suma (fun i => suma (fun j => celda s i j) L) L <= N).
  { pose proof (suma_cota (fun i => suma (fun j => celda s i j) L) L L) as H.
    rewrite Z2Nat.id in H by lia. rewrite HNL. apply H. intros i Hi.
    pose proof (suma_cota (fun j => celda s i j) 1 L) as H'.
    rewrite Z2Nat.id in H' by lia.
    enough (- (1 * L) <= suma (fun j => celda s i j) L <= 1 * L) by lia.
    apply H'. intros j Hj.
    destruct (espines_celda s i j Hs He Hi Hj); lia. }
  assert (HNQ : (0 < inject_Z N)%Q) by (unfold Qlt; simpl; lia).
  split; [|split].
  - unfold magnetizacion. apply Qle_shift_div_l; [assumption|].
    unfold Qle. simpl. lia.
  - unfold magnetizacion. apply Qle_shift_div_r; [assumption|].
    unfold Qle. simpl. lia.
  - exists (suma (fun i => suma (fun j => - (celda s i j * vecinos s i j)) L) L).
    unfold energia.
    rewrite (suma_ext _ (fun i => J * suma (fun j => - (celda s i j * vecinos s i j)) L)).
    + rewrite suma_escala, inject_Z_mult. field.
    + intros i Hi. rewrite <- suma_escala. apply suma_ext. intros j Hj. lia.
Qed.

(** C1.  On an [L x L] lattice of spins and for every [beta], with
    [(pos_x, pos_y)] the cell the step draws, [Delta_E = E_f - E_0] the
    energy after the flip minus the energy before it, and [p] the real the
    generator hands out next: when [Delta_E <= 0] the step leaves the flip
    applied; when [Delta_E > 0] the step leaves the lattice as it was
    before the call exactly when [p >= exp(-beta * Delta_E)], and leaves
    the flip applied exactly when [p < exp(-beta * Delta_E)]. *)
Theorem cambio_espin_metropolis (s : lattice) (beta : Q) (g : rng) :
  0 < N → cuadrada s → espines s →
  ∃ pos_x pos_y g1 g2 E_0 M_0 E_f M_f p g3 s' r g',
    randint 0 L g = Ok (pos_x, g1) ∧ randint 0 L g1 = Ok (pos_y, g2)
    ∧ var_termo s = Ok (E_0, M_0)
    ∧ var_termo (voltear s pos_x pos_y) = Ok (E_f, M_f)
    ∧ uniform g2 = Ok (p, g3)
    ∧ cambio_espin s beta g = Ok ((s', r), g')
    ∧ voltear s pos_x pos_y ≠ s
    ∧ ((E_f - E_0 <= 0)%Q → s' = voltear s pos_x pos_y)
    ∧ ((0 < E_f - E_0)%Q →
       (s' = s ↔ (np_exp (- beta * (E_f - E_0)) <= p)%Q)
       ∧ (s' = voltear s pos_x pos_y ↔ (p < np_exp (- beta * (E_f - E_0)))%Q)).
Proof.
  intros HN Hs He. pose proof (long_lado_pos HN) as HL.
  destruct (randint_long_lado g HL) as (pos_x & g1 & Hx & Hpx).
  destruct (randint_long_lado g1 HL) as (pos_y & g2 & Hy & Hpy).
  pose proof (cuadrada_voltear s pos_x pos_y Hs) as Hs'.
  pose proof (var_termo_eq s ltac:(lia) Hs) as H0.
  pose proof (var_termo_eq _ ltac:(lia) Hs') as Hf.
  pose proof (voltear_distinta s pos_x pos_y Hs He Hpx Hpy) as Hne.
  pose proof (cambio_espin_eq s beta g g1 g2 pos_x pos_y _ _ _ _ Hs Hx Hy H0 Hf)
    as Heq.
  set (E_0 := energia s) in *. set (E_f := energia (voltear s pos_x pos_y)) in *.
  exists pos_x, pos_y, g1, g2, E_0, (magnetizacion s), E_f,
    (magnetizacion (voltear s pos_x pos_y)), (reales g2 0%nat),
    (mk_rng (enteros g2) (fun n => reales g2 (S n))).
  destruct (Qlt_bool 0 (E_f - E_0)) eqn:HD.
  - apply Qlt_bool_iff in HD.
    destruct (Qlt_bool (reales g2 0%nat) (np_exp (- beta * (E_f - E_0)))) eqn:Hp;
      simpl in Heq; eexists _, _, _; (do 6 (split; [eassumption || reflexivity|]));
      (split; [assumption|]);
      (split; [intros Hle; exfalso; exact (Qlt_not_le _ _ HD Hle)|]); intros _.
    + apply Qlt_bool_iff in Hp. split; split.
      * intros Habs. contradiction.
      * intros Hle. exfalso. exact (Qlt_not_le _ _ Hp Hle).
      * intros _. assumption.
      * reflexivity.
    + apply Qlt_bool_false_iff in Hp. split; split.
      * intros _. assumption.
      * reflexivity.
      * intros Habs. symmetry in Habs. contradiction.
      * intros Hlt. exfalso. exact (Qlt_not_le _ _ Hlt Hp).
  - apply Qlt_bool_false_iff in HD.
    eexists _, _, _. do 6 (split; [eassumption || reflexivity|]).
    split; [assumption|]. split; [reflexivity|].
    intros Hlt. exfalso. exact (Qlt_not_le _ _ Hlt HD).
Qed.

(** C2.  On an [L x L] lattice and for every [beta], [cambio_espin] returns
    the pair [(E_f, M_0)]: the energy of the lattice with the drawn cell
    flipped, and the magnetization of the lattice before the call; this
    whether the lattice it leaves is the flipped one or the original. *)
Theorem cambio_espin_retorno (s : lattice) (beta : Q) (g : rng) :
  0 < N → cuadrada s →
  ∃ pos_x pos_y g1 g2 E_0 M_0 E_f M_f s' g',
    randint 0 L g = Ok (pos_x, g1) ∧ randint 0 L g1 = Ok (pos_y, g2)
    ∧ var_termo s = Ok (E_0, M_0)
    ∧ var_termo (voltear s pos_x pos_y) = Ok (E_f, M_f)
    ∧ cambio_espin s beta g = Ok ((s', (E_f, M_0)), g')
    ∧ (s' = s ∨ s' = voltear s pos_x pos_y).
Proof.
  intros HN Hs. pose proof (long_lado_pos HN) as HL.
  destruct (randint_long_lado g HL) as (pos_x & g1 & Hx & Hpx).
  destruct (randint_long_lado g1 HL) as (pos_y & g2 & Hy & Hpy).
  pose proof (cuadrada_voltear s pos_x pos_y Hs) as Hs'.
  pose proof (var_termo_eq s ltac:(lia) Hs) as H0.
  pose proof (var_termo_eq _ ltac:(lia) Hs') as Hf.
  pose proof (cambio_espin_eq s beta g g1 g2 pos_x pos_y _ _ _ _ Hs Hx Hy H0 Hf)
    as Heq.
  exists pos_x, pos_y, g1, g2, (energia s), (magnetizacion s),
    (energia (voltear s pos_x pos_y)), (magnetizacion (voltear s pos_x pos_y)).
  destruct (Qlt_bool 0 _); [destruct (negb _)|];
    eexists _, _; (do 4 (split; [eassumption|])); (split; [exact Heq|]); auto.
Qed.

(** C5.  A call of [cambio_espin] on an [L x L] lattice changes at most the
    cell [(pos_x, pos_y)] it draws: every other cell reads the same after
    the call as before it; and in the rejection branch ([Delta_E > 0] and
    [p >= exp(-beta * Delta_E)]) the whole lattice is as before the call. *)
Theorem cambio_espin_marco (s : lattice) (beta : Q) (g : rng) :
  0 < N → cuadrada s →
  ∃ pos_x pos_y g1 g2 E_0 M_0 E_f M_f p g3 s' r g',
    randint 0 L g = Ok (pos_x, g1) ∧ randint 0 L g1 = Ok (pos_y, g2)
    ∧ var_termo s = Ok (E_0, M_0)
    ∧ var_termo (voltear s pos_x pos_y) = Ok (E_f, M_f)
    ∧ uniform g2 = Ok (p, g3)
    ∧ cambio_espin s beta g = Ok ((s', r), g')
    ∧ cuadrada s'
    ∧ (∀ i j, 0 <= i < L → 0 <= j < L → ¬ (i = pos_x ∧ j = pos_y) →
              getitem2 s' i j = getitem2 s i j)
    ∧ ((0 < E_f - E_0)%Q → (np_exp (- beta * (E_f - E_0)) <= p)%Q → s' = s).
Proof.
  intros HN Hs. pose proof (long_lado_pos HN) as HL.
  destruct (randint_long_lado g HL) as (pos_x & g1 & Hx & Hpx).
  destruct (randint_long_lado g1 HL) as (pos_y & g2 & Hy & Hpy).
  pose proof (cuadrada_voltear s pos_x pos_y Hs) as Hs'.
  pose proof (var_termo_eq s ltac:(lia) Hs) as H0.
  pose proof (var_termo_eq _ ltac:(lia) Hs') as Hf.
  pose proof (cambio_espin_eq s beta g g1 g2 pos_x pos_y _ _ _ _ Hs Hx Hy H0 Hf)
    as Heq.
  set (E_0 := energia s) in *. set (E_f := energia (voltear s pos_x pos_y)) in *.
  assert (Hotras : ∀ i j, 0 <= i < L → 0 <= j < L → ¬ (i = pos_x ∧ j = pos_y) →
                          getitem2 (voltear s pos_x pos_y) i j = getitem2 s i j).
  { intros i j Hi Hj Hij. rewrite !getitem2_celda by assumption.
    rewrite celda_voltear, decide_False by (assumption || lia). reflexivity. }
  exists pos_x, pos_y, g1, g2, E_0, (magnetizacion s), E_f,
    (magnetizacion (voltear s pos_x pos_y)), (reales g2 0%nat),
    (mk_rng (enteros g2) (fun n => reales g2 (S n))).
  destruct (Qlt_bool 0 (E_f - E_0)) eqn:HD.
  - destruct (Qlt_bool (reales g2 0%nat) (np_exp (- beta * (E_f - E_0)))) eqn:Hp;
      simpl in Heq; eexists _, _, _; (do 6 (split; [eassumption || reflexivity|])).
    + apply Qlt_bool_iff in Hp. split; [assumption|]. split; [assumption|].
      intros _ Hle. exfalso. exact (Qlt_not_le _ _ Hp Hle).
    + split; [assumption|]. split; [reflexivity|]. reflexivity.
  - apply Qlt_bool_false_iff in HD.
    eexists _, _, _. do 6 (split; [eassumption || reflexivity|]).
    split; [assumption|]. split; [assumption|].
    intros Hlt. exfalso. exact (Qlt_not_le _ _ Hlt HD).
Qed.

(** C6, as amended.  For every index sequence whose entries after the
    first lie in [[-cant_iter, cant_iter)], [evolucion] returns two arrays
    of length [cant_iter] without an index error, and the pair that step
    [k] returned is read back at the literal value [i] of its index (a
    negative value counting from the end), unless a later index addresses
    the same position.  An entry after the first outside that interval
    makes the call raise [IndexError]. *)
Theorem evolucion_indices (ts : list Z) (beta : Q) (s : lattice) (g : rng) :
  0 < N → 0 < cant_iter → cuadrada s →
  (Forall (fun i => - cant_iter <= i < cant_iter) (drop 1 ts) →
   ∃ s' aE aM g',
     evolucion ts beta s g = Ok ((s', (aE, aM)), g')
     ∧ length aE = Z.to_nat cant_iter ∧ length aM = Z.to_nat cant_iter
     ∧ ∀ k i,
         drop 1 ts !! k = Some i →
         ∃ E M,
           pasos beta (length (drop 1 ts)) s g !! k = Some (E, M)
           ∧ ((∀ k' i', (k < k')%nat → drop 1 ts !! k' = Some i' →
                        posicion cant_iter i' ≠ posicion cant_iter i) →
              getitem aE i = Ok E ∧ getitem aM i = Ok M))
  ∧ (Exists (fun i => i < - cant_iter ∨ cant_iter <= i) (drop 1 ts) →
     evolucion ts beta s g = Err IndexError).
Proof.
  intros HN Hc Hs. split; [|apply evolucion_Err; assumption].
  intros Hidx.
  destruct (evolucion_Ok ts beta s g HN Hc Hs Hidx)
    as (s' & aE & aM & g' & Hev & HlE & HlM & Hlp & Hult).
  exists s', aE, aM, g'. do 3 (split; [assumption|]).
  intros k i Hi.
  destruct (lookup_lt_is_Some_2 (pasos beta (length (drop 1 ts)) s g) k)
    as [[E M] Hp]; [rewrite Hlp; eapply lookup_lt_Some; eassumption|].
  exists E, M. split; [assumption|]. intros Hdespues.
  destruct (Hult k i E M Hi Hp Hdespues) as [HE HM].
  rewrite Forall_lookup in Hidx. specialize (Hidx k i Hi).
  unfold getitem. rewrite HlE, HlM, np_index_posicion by lia.
  rewrite Z2Nat.id by lia. rewrite !res_bind_Ok, HE, HM. auto.
Qed.

(** C10.  Whenever [evolucion] returns its two arrays, a position [k] in
    [1 .. cant_iter - 1] that no index of [tiempo_sim[1:]] covers (none is
    [k], nor the negative index [k - cant_iter] of the same position)
    holds exactly [1.0] in both arrays. *)
Theorem evolucion_unos (ts : list Z) (beta : Q) (s s' : lattice)
    (aE aM : list Q) (g g' : rng) (k : Z) :
  evolucion ts beta s g = Ok ((s', (aE, aM)), g') →
  1 <= k < cant_iter →
  (∀ i, i ∈ drop 1 ts → i ≠ k ∧ i ≠ k - cant_iter) →
  getitem aE k = Ok 1%Q ∧ getitem aM k = Ok 1%Q.
Proof.
  intros Hev Hk Hno.
  destruct (evolucion_inv_unos ts beta s s' aE aM g g' (Z.to_nat k) Hev)
    as (HE & HM & HlE & HlM); [lia | |].
  - intros i n Hi Hn. destruct (Hno i Hi) as [H1 H2].
    apply np_index_Ok_inv in Hn as (Hr & -> & _). unfold posicion.
    rewrite Z2Nat.id in * by lia.
    destruct (Z.lt_ge_cases i 0).
    + replace (i mod cant_iter) with (i + cant_iter); [lia|].
      apply Z.mod_unique with (q := -1); lia.
    + rewrite Z.mod_small by lia. lia.
  - split; apply getitem_nonneg; (lia || assumption).
Qed.

(** C7, as amended.  For two non-empty series and a cutoff [t_estable]
    below their lengths, [promedios] returns for each series [np.mean] of
    its tail [a[t_estable:]], the float64 sum of the entries (added up
    pairwise, as numpy does) divided by their number; for a cutoff index
    [0 <= t_estable] that tail is the series restricted to the indices from
    [t_estable] to the end.  When the entries of a series all equal one
    constant [c] and the multiples [c, 2 c, ..., n c] are float64 values,
    [n] being the number of entries of the tail, its average equals [c]
    (the sum then never rounds). *)
Theorem promedios_f64_media (array_E array_M : list Q) (t : Z) :
  t < Z.of_nat (length array_E) → t < Z.of_nat (length array_M) →
  array_E ≠ [] → array_M ≠ [] →
  promedios_f64 array_E array_M t
  = Ok (media_f64 (slice_from array_E t), media_f64 (slice_from array_M t))
  ∧ (0 <= t → slice_from array_E t = restringida array_E t
              ∧ slice_from array_M t = restringida array_M t)
  ∧ (∀ c, Forall (fun x => (x == c)%Q) array_E →
          exactos c (length (slice_from array_E t)) →
          (media_f64 (slice_from array_E t) == c)%Q)
  ∧ (∀ c, Forall (fun x => (x == c)%Q) array_M →
          exactos c (length (slice_from array_M t)) →
          (media_f64 (slice_from array_M t) == c)%Q).
Proof.
  intros HE HM HnE HnM. split; [apply promedios_f64_Ok; assumption|].
  split.
  - intros Ht. rewrite !slice_from_nonneg, !restringida_drop by assumption. auto.
  - split; intros c Hc Hex;
      (eapply media_f64_constante;
       [exact Hex | apply slice_from_no_vacia; assumption | | reflexivity]);
      unfold slice_from; destruct (0 <=? t); apply Forall_drop, Hc.
Qed.

(** C8.  [main] completes and handles the [cant_Temp] samples one after
    the other in increasing index order, sample [i] starting from the
    generator state [gs i] that sample [i - 1] left: its temperature is the
    [i]-th of [cant_Temp] points linearly spaced from [0.01 T_c] to [3 T_c],
    its [beta] is [1 / T] (with [T > 0] as soon as [J > 0] and
    [np.arcsinh(1) > 0]), it draws a fresh random lattice, runs [evolucion]
    on it and stores the pair of averages at index [i]; the arrays of the
    result have exactly [cant_Temp] entries. *)
Theorem main_barrido (g : rng) :
  0 < N → 0 < cant_iter → t_estable < cant_iter → 0 <= cant_Temp →
  ∃ (b : barrido) (g' : rng) (gs : nat → rng),
    main g = Ok (b, g')
    ∧ gs 0%nat = g ∧ gs (Z.to_nat cant_Temp) = g'
    ∧ length (array_T b) = Z.to_nat cant_Temp
    ∧ length (array_E_prom b) = Z.to_nat cant_Temp
    ∧ length (array_M_prom b) = Z.to_nat cant_Temp
    ∧ (temperatura 0 == (1 # 100) * T_critico)%Q
    ∧ (1 < cant_Temp → (temperatura (cant_Temp - 1) == 3 * T_critico)%Q)
    ∧ ∀ i : nat, (i < Z.to_nat cant_Temp)%nat →
        ∃ T E M,
          array_T b !! i = Some T ∧ (T == temperatura (Z.of_nat i))%Q
          ∧ (0 < J → (0 < np_arcsinh 1)%Q → (0 < T)%Q)
          ∧ array_betas b !! i = Some (1 / T)%Q
          ∧ muestra (1 / T) (gs i) = Ok ((E, M), gs (S i))
          ∧ array_E_prom b !! i = Some E ∧ array_M_prom b !! i = Some M.
Proof.
  intros HN Hc Ht HT.
  set (n := Z.to_nat cant_Temp).
  set (lin := map (fun k => ((1 # 100) + inject_Z k
                             * ((3 - (1 # 100)) / inject_Z (cant_Temp - 1)))%Q)
                  (range cant_Temp)).
  set (aT := map (fun x => (x * T_critico)%Q) lin).
  set (aB := map (fun T => (1 / T)%Q) aT).
  assert (HlT : length aT = n)
    by (unfold aT, lin; rewrite !length_map; apply length_range).
  assert (HlB : length aB = n) by (unfold aB; rewrite length_map; exact HlT).
  destruct (main_bucle aT aB n HN Hc Ht HlT HlB n 0%nat
              (replicate n 0%Q) (replicate n 0%Q) 0 [] g)
    as (aEp & aMp & j & graf & g' & gs & Hfold & Hgs0 & Hgs1 & HlE & HlM & _ & Hi);
    [reflexivity | apply length_replicate .. |].
  exists (mk_barrido aT aB aEp aMp (graf ++ [Grafica_MvsT aMp aT])), g', gs.
  split.
  { unfold main, np_linspace, np_zeros.
    destruct (Z.ltb_spec cant_Temp 0); [lia|].
    rewrite !Az_bind_lift. cbv beta.
    fold lin aT aB n. unfold range. fold n.
    rewrite (Az_bind_Ok _ _ _ _ _ Hfold). reflexivity. }
  do 5 (split; [assumption|]).
  split; [unfold temperatura, Qdiv; simpl inject_Z; ring|].
  split.
  { intros H1. unfold temperatura. field. apply inject_Z_no_cero. lia. }
  intros i Hlt. destruct (Hi i) as (beta & E & M & HB & Hmu & HE & HM); [lia|].
  simpl.
  assert (HTi : aT !! i
                = Some (((1 # 100) + inject_Z (Z.of_nat i)
                         * ((3 - (1 # 100)) / inject_Z (cant_Temp - 1)))
                        * T_critico)%Q).
  { unfold aT, lin. rewrite !list_lookup_fmap, lookup_range by assumption.
    reflexivity. }
  eexists _, E, M. split; [exact HTi|].
  split; [unfold temperatura, Qdiv; ring|].
  split; [intros HJ Ha; apply temperatura_pos;
          [lia | lia | apply T_critico_pos; assumption]|].
  unfold aB in HB. rewrite list_lookup_fmap, HTi in HB. injection HB as <-.
  split; [unfold aB; rewrite list_lookup_fmap, HTi; reflexivity|].
  auto.
Qed.

(** * Further properties of the code *)

(** ** Neighbours and thermodynamic variables *)

Lemma celda_negar (s : lattice) (i j : Z) : celda (negar s) i j = - celda s i j.
Proof.
  unfold celda, negar. rewrite list_lookup_fmap.
  destruct (s !! Z.to_nat i) as [fila|]; simpl; [|reflexivity].
  rewrite list_lookup_fmap. destruct (fila !! Z.to_nat j); reflexivity.
Qed.

Lemma cuadrada_negar (s : lattice) : cuadrada s → cuadrada (negar s).
Proof.
  intros [Hlen Hfilas]. unfold negar. split.
  - rewrite length_map. assumption.
  - rewrite Forall_fmap. eapply Forall_impl; [exact Hfilas|].
    intros fila Hfila. simpl. rewrite length_map. assumption.
Qed.

Lemma vecinos_cota (s : lattice) (i j : Z) :
  0 < L → cuadrada s → espines s → 0 <= i < L → 0 <= j < L →
  -4 <= vecinos s i j <= 4.
Proof.
  intros HL Hs He Hi Hj. unfold vecinos.
  assert (Hmod : ∀ k, 0 <= k mod L < L) by (intros; apply Z.mod_pos_bound; lia).
  destruct (espines_celda s ((i - 1) mod L) j Hs He (Hmod _) Hj),
           (espines_celda s ((i + 1) mod L) j Hs He (Hmod _) Hj),
           (espines_celda s i ((j - 1) mod L) Hs He Hi (Hmod _)),
           (espines_celda s i ((j + 1) mod L) Hs He Hi (Hmod _)); lia.
Qed.

Lemma magnetizacion_cota (s : lattice) :
  0 < N → N = L * L → cuadrada s → espines s →
  (- (1) <= magnetizacion s)%Q ∧ (magnetizacion s <= 1)%Q.
Proof.
  intros HN HNL Hs He. pose proof (long_lado_pos HN) as HL.
  assert (Hsuma : - N <= suma (fun i => suma (fun j => celda s i j) L) L <= N).
  { pose proof (suma_cota (fun i => suma (fun j => celda s i j) L) L L) as H.
    rewrite Z2Nat.id in H by lia. rewrite HNL. apply H. intros i Hi.
    pose proof (suma_cota (fun j => celda s i j) 1 L) as H'.
    rewrite Z2Nat.id in H' by lia.
    enough (- (1 * L) <= suma (fun j => celda s i j) L <= 1 * L) by lia.
    apply H'. intros j Hj.
    destruct (espines_celda s i j Hs He Hi Hj); lia. }
  assert (HNQ : (0 < inject_Z N)%Q) by (unfold Qlt; simpl; lia).
  unfold magnetizacion. split.
  - apply Qle_shift_div_l; [assumption|]. unfold Qle. simpl. lia.
  - apply Qle_shift_div_r; [assumption|]. unfold Qle. simpl. lia.
Qed.

Lemma energia_cota (s : lattice) :
  0 < N → N = L * L → cuadrada s → espines s →
  (- inject_Z (2 * Z.abs J * N) <= energia s)%Q
  ∧ (energia s <= inject_Z (2 * Z.abs J * N))%Q.
Proof.
  intros HN HNL Hs He. pose proof (long_lado_pos HN) as HL.
  assert (Hsuma : - (4 * Z.abs J * N)
                  <= suma (fun i => suma (fun j => - J * celda s i j * vecinos s i j) L) L
                  <= 4 * Z.abs J * N).
  { pose proof (suma_cota
                  (fun i => suma (fun j => - J * celda s i j * vecinos s i j) L)
                  (4 * Z.abs J * L) L) as H.
    rewrite Z2Nat.id in H by lia.
    replace (4 * Z.abs J * N) with (4 * Z.abs J * L * L) by lia.
    apply H. intros i Hi.
    pose proof (suma_cota (fun j => - J * celda s i j * vecinos s i j)
                  (4 * Z.abs J) L) as H'.
    rewrite Z2Nat.id in H' by lia. apply H'. intros j Hj.
    pose proof (vecinos_cota s i j HL Hs He Hi Hj).
    destruct (espines_celda s i j Hs He Hi Hj) as [-> | ->];
      destruct (Z.abs_spec J) as [[? ->] | [? ->]]; nia. }
  unfold energia. split.
  - apply Qle_shift_div_l; [reflexivity|]. unfold Qle. simpl. lia.
  - apply Qle_shift_div_r; [reflexivity|]. unfold Qle. simpl. lia.
Qed.

Lemma getitem_Err {A : Type} (a : list A) (i : Z) (e : error) :
  getitem a i = Err e → e = IndexError.
Proof.
  unfold getitem, np_index.
  destruct (_ && _); simpl; [|destruct (_ && _); simpl].
  - destruct (a !! _); congruence.
  - destruct (a !! _); congruence.
  - congruence.
Qed.

Lemma getitem2_Err (s : lattice) (i j : Z) (e : error) :
  getitem2 s i j = Err e → e = IndexError.
Proof.
  unfold getitem2. destruct (getitem s i) as [fila|e'] eqn:Hf; simpl.
  - apply getitem_Err.
  - intros [= <-]. eapply getitem_Err, Hf.
Qed.

(** X1.  The four indices that [pos_vecinos] returns at a coordinate of the
    lattice are themselves coordinates of the lattice, and the neighbour
    relation is symmetric: the neighbour below the neighbour above [(i, j)]
    is [(i, j)], and likewise below/above, right/left and left/right. *)
Theorem pos_vecinos_simetria (i j : Z) :
  0 <= i < L → 0 <= j < L →
  ∃ a b c d,
    pos_vecinos i j = [a; b; c; d]
    ∧ (0 <= a < L ∧ 0 <= b < L ∧ 0 <= c < L ∧ 0 <= d < L)
    ∧ pos_vecinos a j !! 1%nat = Some i
    ∧ pos_vecinos b j !! 0%nat = Some i
    ∧ pos_vecinos i c !! 3%nat = Some j
    ∧ pos_vecinos i d !! 2%nat = Some j.
Proof.
  intros Hi Hj. assert (HL : 0 < L) by lia.
  assert (Hmod : ∀ k, 0 <= k mod L < L) by (intros; apply Z.mod_pos_bound; lia).
  assert (Hmas : ∀ k, 0 <= k < L → ((k - 1) mod L + 1) mod L = k).
  { intros k Hk. rewrite Zplus_mod_idemp_l.
    replace (k - 1 + 1) with k by lia. apply Z.mod_small. assumption. }
  assert (Hmenos : ∀ k, 0 <= k < L → ((k + 1) mod L - 1) mod L = k).
  { intros k Hk. rewrite Zminus_mod_idemp_l.
    replace (k + 1 - 1) with k by lia. apply Z.mod_small. assumption. }
  exists ((i - 1) mod L), ((i + 1) mod L), ((j - 1) mod L), ((j + 1) mod L).
  split; [apply pos_vecinos_mod; assumption|].
  split; [auto|].
  rewrite !pos_vecinos_mod by auto. simpl.
  rewrite !Hmas, !Hmenos by assumption. auto.
Qed.

(** X2.  Negating every spin of an [L x L] lattice leaves the energy that
    [var_termo] returns unchanged and negates the magnetization. *)
Theorem var_termo_negar (s : lattice) :
  N ≠ 0 → cuadrada s →
  ∃ E M M',
    var_termo s = Ok (E, M) ∧ var_termo (negar s) = Ok (E, M')
    ∧ (M' == - M)%Q.
Proof.
  intros HN Hs.
  exists (energia s), (magnetizacion s), (magnetizacion (negar s)).
  split; [apply var_termo_eq; assumption|].
  assert (HE : energia (negar s) = energia s).
  { unfold energia. f_equal. f_equal. apply suma_ext. intros i Hi.
    apply suma_ext. intros j Hj. unfold vecinos. rewrite !celda_negar. lia. }
  split.
  - rewrite <- HE. apply var_termo_eq; [assumption | apply cuadrada_negar, Hs].
  - unfold magnetizacion.
    rewrite (suma_ext (fun i => suma (fun j => celda (negar s) i j) L)
               (fun i => -1 * suma (fun j => celda s i j) L)).
    + rewrite suma_escala, inject_Z_mult. field. apply inject_Z_no_cero, HN.
    + intros i Hi. rewrite <- suma_escala. apply suma_ext. intros j Hj.
      rewrite celda_negar. lia.
Qed.

(** X3.  On an [L x L] lattice of spins, with [N = L * L], the energy that
    [var_termo] returns lies between [-2 |J| N] and [2 |J| N]. *)
Theorem var_termo_energia_cota (s : lattice) :
  0 < N → N = L * L → cuadrada s → espines s →
  ∃ E M, var_termo s = Ok (E, M)
         ∧ (- inject_Z (2 * Z.abs J * N) <= E)%Q
         ∧ (E <= inject_Z (2 * Z.abs J * N))%Q.
Proof.
  intros HN HNL Hs He. exists (energia s), (magnetizacion s).
  split; [apply var_termo_eq; [lia | assumption]|].
  apply energia_cota; assumption.
Qed.

(** X4.  On an array with fewer than [L] rows [var_termo] raises
    [IndexError]: the cell [(0, 0)] already reads row [L - 1]. *)
Theorem var_termo_pocas_filas (s : lattice) :
  0 < N → (length s < Z.to_nat L)%nat → var_termo s = Err IndexError.
Proof.
  intros HN Hlen. pose proof (long_lado_pos HN) as HL.
  assert (Hcelda : ∀ acc, var_termo_celda s 0 acc 0 = Err IndexError).
  { intros [E M]. unfold var_termo_celda.
    rewrite pos_vecinos_mod by lia.
    destruct (getitem_pos ((0 - 1) mod L) ((0 + 1) mod L) ((0 - 1) mod L)
                ((0 + 1) mod L)) as (-> & _).
    destruct (getitem2 s 0 0) as [v|e] eqn:H00; simpl.
    - assert (Harriba : getitem2 s ((0 - 1) mod L) 0 = Err IndexError).
      { unfold getitem2, getitem. rewrite np_index_fuera; [reflexivity|].
        right. replace ((0 - 1) mod L) with (L - 1); [lia|].
        apply Z.mod_unique with (q := -1); lia. }
      rewrite Harriba. reflexivity.
    - f_equal. eapply getitem2_Err, H00. }
  assert (Hr : range L = 0 :: map Z.of_nat (seq 1 (Z.to_nat L - 1))).
  { unfold range. destruct (Z.to_nat L) as [|n] eqn:Hn; [lia|].
    simpl. rewrite Nat.sub_0_r. reflexivity. }
  unfold var_termo, var_termo_fila. rewrite Hr. cbn [foldM].
  rewrite Hcelda. reflexivity.
Qed.

(** ** The energy difference of one flip *)

Lemma suma_S (f : Z → Z) (m : nat) :
  suma f (Z.of_nat (S m)) = suma f (Z.of_nat m) + f (Z.of_nat m).
Proof.
  unfold suma, range. rewrite !Nat2Z.id, seq_S, map_app, map_app. simpl.
  generalize (map f (map Z.of_nat (seq 0 m))) as l. intros l.
  induction l as [|a l IH]; simpl; lia.
Qed.

Lemma suma_cero (f : Z → Z) (n : Z) :
  (∀ k, 0 <= k < n → f k = 0) → suma f n = 0.
Proof.
  intros Hf. rewrite (suma_ext f (fun _ => 0) n Hf), suma_constante. lia.
Qed.

Lemma suma_mas (f h : Z → Z) (n : Z) :
  suma (fun k => f k + h k) n = suma f n + suma h n.
Proof. unfold suma. induction (range n) as [|k ks IH]; simpl; lia. Qed.

(** A sum all of whose terms but one vanish. *)
Lemma suma_punto (f : Z → Z) (n k0 : Z) :
  0 <= k0 < n → (∀ k, 0 <= k < n → k ≠ k0 → f k = 0) → suma f n = f k0.
Proof.
  intros Hk0. rewrite <- (Z2Nat.id n) by lia.
  assert (Hm : (Z.to_nat k0 < Z.to_nat n)%nat) by lia.
  revert Hm. generalize (Z.to_nat n) as m. intros m. induction m as [|m IH]; [lia|].
  intros Hm Hf. rewrite suma_S.
  destruct (decide (Z.to_nat k0 = m)) as [Heq|Hne].
  - rewrite suma_cero by (intros k Hk; apply Hf; lia).
    replace (Z.of_nat m) with k0 by lia. lia.
  - rewrite IH by (lia || intros k Hk; apply Hf; lia).
    rewrite (Hf (Z.of_nat m)) by lia. lia.
Qed.

Lemma suma2_punto (f : Z → Z → Z) (n a b : Z) :
  0 <= a < n → 0 <= b < n →
  (∀ i j, 0 <= i < n → 0 <= j < n → ¬ (i = a ∧ j = b) → f i j = 0) →
  suma (fun i => suma (fun j => f i j) n) n = f a b.
Proof.
  intros Ha Hb Hf.
  rewrite (suma_punto (fun i => suma (fun j => f i j) n) n a Ha).
  - apply suma_punto; [assumption|]. intros j Hj Hne. apply Hf; [lia .. |]. lia.
  - intros i Hi Hne. apply suma_cero. intros j Hj. apply Hf; [lia .. |]. lia.
Qed.

Lemma suma2_mas (f h : Z → Z → Z) (n : Z) :
  suma (fun i => suma (fun j => f i j + h i j) n) n
  = suma (fun i => suma (fun j => f i j) n) n
    + suma (fun i => suma (fun j => h i j) n) n.
Proof.
  rewrite <- suma_mas. apply suma_ext. intros i _. apply suma_mas.
Qed.

Lemma suma2_ext (f h : Z → Z → Z) (n : Z) :
  (∀ i j, 0 <= i < n → 0 <= j < n → f i j = h i j) →
  suma (fun i => suma (fun j => f i j) n) n
  = suma (fun i => suma (fun j => h i j) n) n.
Proof.
  intros Hfh. apply suma_ext. intros i Hi. apply suma_ext. intros j Hj.
  apply Hfh; assumption.
Qed.

Lemma mod_mas_menos (k : Z) :
  0 < L → 0 <= k < L →
  ((k - 1) mod L + 1) mod L = k ∧ ((k + 1) mod L - 1) mod L = k.
Proof.
  intros HL Hk. split.
  - rewrite Zplus_mod_idemp_l. replace (k - 1 + 1) with k by lia.
    apply Z.mod_small. assumption.
  - rewrite Zminus_mod_idemp_l. replace (k + 1 - 1) with k by lia.
    apply Z.mod_small. assumption.
Qed.

(** With at least two cells per side, a cell is none of its neighbours. *)
Lemma mod_vecino_distinto (k : Z) :
  2 <= L → 0 <= k < L → (k - 1) mod L ≠ k ∧ (k + 1) mod L ≠ k.
Proof.
  intros HL Hk. split.
  - destruct (decide (k = 0)) as [->|Hne].
    + replace ((0 - 1) mod L) with (L - 1); [lia|].
      apply Z.mod_unique with (q := -1); lia.
    + rewrite Z.mod_small by lia. lia.
  - destruct (decide (k = L - 1)) as [->|Hne].
    + replace (L - 1 + 1) with L by lia. rewrite Z.mod_same by lia. lia.
    + rewrite Z.mod_small by lia. lia.
Qed.

Lemma celda_voltear_xy (s : lattice) (x y i j : Z) :
  cuadrada s → 0 <= x < L → 0 <= y < L → 0 <= i → 0 <= j →
  celda (voltear s x y) i j
  = if decide (i = x ∧ j = y) then - celda s x y else celda s i j.
Proof.
  intros Hs Hx Hy Hi Hj. rewrite celda_voltear by assumption.
  destruct (decide (i = x ∧ j = y)) as [[-> ->]|]; reflexivity.
Qed.

(** Negating the cell [(x, y)] lowers the sum of [spin * neighbours] over
    the lattice by four times its term at [(x, y)]: twice for the cell
    itself and twice for the cells it is a neighbour of. *)
Lemma suma_voltear (s : lattice) (x y : Z) :
  2 <= L → cuadrada s → 0 <= x < L → 0 <= y < L →
  suma (fun i => suma (fun j => celda (voltear s x y) i j
                                * vecinos (voltear s x y) i j) L) L
  = suma (fun i => suma (fun j => celda s i j * vecinos s i j) L) L
    - 4 * (celda s x y * vecinos s x y).
Proof.
  intros HL Hs Hx Hy.
  assert (Hmod : ∀ k, 0 <= k mod L < L) by (intros; apply Z.mod_pos_bound; lia).
  pose (T' := fun i j => celda (voltear s x y) i j * vecinos (voltear s x y) i j).
  pose (T := fun i j => celda s i j * vecinos s i j).
  pose (G0 := fun i j => if decide (i = x ∧ j = y)
                         then -2 * (celda s x y * vecinos s x y) else 0).
  pose (G1 := fun i j => if decide ((i - 1) mod L = x ∧ j = y)
                         then -2 * (celda s x y * celda s i j) else 0).
  pose (G2 := fun i j => if decide ((i + 1) mod L = x ∧ j = y)
                         then -2 * (celda s x y * celda s i j) else 0).
  pose (G3 := fun i j => if decide (i = x ∧ (j - 1) mod L = y)
                         then -2 * (celda s x y * celda s i j) else 0).
  pose (G4 := fun i j => if decide (i = x ∧ (j + 1) mod L = y)
                         then -2 * (celda s x y * celda s i j) else 0).
  pose (R3 := fun i j => G3 i j + G4 i j).
  pose (R2 := fun i j => G2 i j + R3 i j).
  pose (R1 := fun i j => G1 i j + R2 i j).
  pose (R0 := fun i j => G0 i j + R1 i j).
  assert (Hpt : ∀ i j, 0 <= i < L → 0 <= j < L → T' i j = T i j + R0 i j).
  { intros i j Hi Hj.
    destruct (mod_vecino_distinto i HL Hi) as [Hi1 Hi2].
    destruct (mod_vecino_distinto j HL Hj) as [Hj1 Hj2].
    unfold T', T, R0, R1, R2, R3, G0, G1, G2, G3, G4, vecinos.
    rewrite !(celda_voltear_xy s x y) by (assumption || apply Hmod || lia).
    repeat case_decide;
      repeat match goal with
             | H : _ ∧ _ |- _ => destruct H
             end;
      repeat match goal with
             | H : _ mod _ = _ |- _ => rewrite H in *
             end;
      subst; try ring; exfalso; tauto || lia. }
  assert (E0 : suma (fun i => suma (fun j => T' i j) L) L
               = suma (fun i => suma (fun j => T i j + R0 i j) L) L)
    by (apply suma2_ext; exact Hpt).
  pose proof (suma2_mas T R0 L) as E1.
  pose proof (suma2_mas G0 R1 L) as E2.
  pose proof (suma2_mas G1 R2 L) as E3.
  pose proof (suma2_mas G2 R3 L) as E4.
  pose proof (suma2_mas G3 G4 L) as E5.
  destruct (mod_mas_menos x ltac:(lia) Hx) as [Hx1 Hx2].
  destruct (mod_mas_menos y ltac:(lia) Hy) as [Hy1 Hy2].
  assert (P0 : suma (fun i => suma (fun j => G0 i j) L) L
               = -2 * (celda s x y * vecinos s x y)).
  { rewrite (suma2_punto G0 L x y Hx Hy).
    - unfold G0. rewrite decide_True by auto. reflexivity.
    - intros i j _ _ Hne. unfold G0. rewrite decide_False by assumption.
      reflexivity. }
  assert (P1 : suma (fun i => suma (fun j => G1 i j) L) L
               = -2 * (celda s x y * celda s ((x + 1) mod L) y)).
  { rewrite (suma2_punto G1 L ((x + 1) mod L) y (Hmod _) Hy).
    - unfold G1. rewrite decide_True by auto. reflexivity.
    - intros i j Hi _ Hne. unfold G1. rewrite decide_False; [reflexivity|].
      intros [H1 H2]. apply Hne. split; [|assumption].
      rewrite <- H1. symmetry. apply mod_mas_menos; lia. }
  assert (P2 : suma (fun i => suma (fun j => G2 i j) L) L
               = -2 * (celda s x y * celda s ((x - 1) mod L) y)).
  { rewrite (suma2_punto G2 L ((x - 1) mod L) y (Hmod _) Hy).
    - unfold G2. rewrite decide_True by auto. reflexivity.
    - intros i j Hi _ Hne. unfold G2. rewrite decide_False; [reflexivity|].
      intros [H1 H2]. apply Hne. split; [|assumption].
      rewrite <- H1. symmetry. apply mod_mas_menos; lia. }
  assert (P3 : suma (fun i => suma (fun j => G3 i j) L) L
               = -2 * (celda s x y * celda s x ((y + 1) mod L))).
  { rewrite (suma2_punto G3 L x ((y + 1) mod L) Hx (Hmod _)).
    - unfold G3. rewrite decide_True by auto. reflexivity.
    - intros i j _ Hj Hne. unfold G3. rewrite decide_False; [reflexivity|].
      intros [H1 H2]. apply Hne. split; [assumption|].
      rewrite <- H2. symmetry. apply mod_mas_menos; lia. }
  assert (P4 : suma (fun i => suma (fun j => G4 i j) L) L
               = -2 * (celda s x y * celda s x ((y - 1) mod L))).
  { rewrite (suma2_punto G4 L x ((y - 1) mod L) Hx (Hmod _)).
    - unfold G4. rewrite decide_True by auto. reflexivity.
    - intros i j _ Hj Hne. unfold G4. rewrite decide_False; [reflexivity|].
      intros [H1 H2]. apply Hne. split; [assumption|].
      rewrite <- H2. symmetry. apply mod_mas_menos; lia. }
  change (suma (fun i => suma (fun j => T' i j) L) L
          = suma (fun i => suma (fun j => T i j) L) L
            - 4 * (celda s x y * vecinos s x y)).
  change (suma (fun i => suma (fun j => R0 i j) L) L
          = suma (fun i => suma (fun j => G0 i j) L) L
            + suma (fun i => suma (fun j => R1 i j) L) L) in E2.
  change (suma (fun i => suma (fun j => R1 i j) L) L
          = suma (fun i => suma (fun j => G1 i j) L) L
            + suma (fun i => suma (fun j => R2 i j) L) L) in E3.
  change (suma (fun i => suma (fun j => R2 i j) L) L
          = suma (fun i => suma (fun j => G2 i j) L) L
            + suma (fun i => suma (fun j => R3 i j) L) L) in E4.
  change (suma (fun i => suma (fun j => R3 i j) L) L
          = suma (fun i => suma (fun j => G3 i j) L) L
            + suma (fun i => suma (fun j => G4 i j) L) L) in E5.
  rewrite E0, E1, E2, E3, E4, E5, P0, P1, P2, P3, P4.
  unfold vecinos. ring.
Qed.

Lemma suma2_escala (a : Z) (f : Z → Z → Z) (n : Z) :
  suma (fun i => suma (fun j => a * f i j) n) n
  = a * suma (fun i => suma (fun j => f i j) n) n.
Proof.
  rewrite <- suma_escala. apply suma_ext. intros i _. apply suma_escala.
Qed.

Lemma energia_voltear (s : lattice) (x y : Z) :
  2 <= L → cuadrada s → 0 <= x < L → 0 <= y < L →
  (energia (voltear s x y) - energia s
   == inject_Z (2 * J * (celda s x y * vecinos s x y)))%Q.
Proof.
  intros HL Hs Hx Hy. unfold energia.
  rewrite (suma2_ext
             (fun i j => - J * celda (voltear s x y) i j * vecinos (voltear s x y) i j)
             (fun i j => - J * (celda (voltear s x y) i j
                                * vecinos (voltear s x y) i j)) L)
    by (intros; ring).
  rewrite (suma2_ext (fun i j => - J * celda s i j * vecinos s i j)
             (fun i j => - J * (celda s i j * vecinos s i j)) L)
    by (intros; ring).
  rewrite !suma2_escala, suma_voltear by assumption.
  set (S0 := suma (fun i => suma (fun j => celda s i j * vecinos s i j) L) L).
  set (t := celda s x y * vecinos s x y).
  replace (- J * (S0 - 4 * t)) with (- J * S0 + 2 * (2 * J * t)) by ring.
  rewrite inject_Z_plus, (inject_Z_mult 2). field.
Qed.

(** X5.  With at least two cells per side, negating the spin at [(x, y)] of
    an [L x L] lattice changes the energy that [var_termo] returns by
    [2 J s[x,y] (sum of the four neighbours of (x, y))]: the difference of
    the two full evaluations in [cambio_espin] is this local term. *)
Theorem var_termo_voltear (s : lattice) (x y : Z) :
  0 < N → 2 <= L → cuadrada s → 0 <= x < L → 0 <= y < L →
  ∃ E_0 M_0 E_f M_f,
    var_termo s = Ok (E_0, M_0)
    ∧ var_termo (voltear s x y) = Ok (E_f, M_f)
    ∧ (E_f - E_0 == inject_Z (2 * J * (celda s x y * vecinos s x y)))%Q.
Proof.
  intros HN HL Hs Hx Hy.
  exists (energia s), (magnetizacion s), (energia (voltear s x y)),
    (magnetizacion (voltear s x y)).
  split; [apply var_termo_eq; [lia | assumption]|].
  split; [apply var_termo_eq; [lia | apply cuadrada_voltear, Hs]|].
  apply energia_voltear; assumption.
Qed.

(** X6.  On an [L x L] lattice of spins with at least two cells per side, a
    single flip changes the energy by one of [-8J, -4J, 0, 4J, 8J]. *)
Theorem var_termo_voltear_espines (s : lattice) (x y : Z) :
  0 < N → 2 <= L → cuadrada s → espines s → 0 <= x < L → 0 <= y < L →
  ∃ E_0 M_0 E_f M_f k,
    var_termo s = Ok (E_0, M_0)
    ∧ var_termo (voltear s x y) = Ok (E_f, M_f)
    ∧ -2 <= k <= 2
    ∧ (E_f - E_0 == inject_Z (4 * J * k))%Q.
Proof.
  intros HN HL Hs He Hx Hy.
  assert (Hmod : ∀ k, 0 <= k mod L < L) by (intros; apply Z.mod_pos_bound; lia).
  assert (Hk : ∃ k, -2 <= k <= 2 ∧ celda s x y * vecinos s x y = 2 * k).
  { unfold vecinos.
    destruct (espines_celda s x y Hs He Hx Hy) as [-> | ->],
             (espines_celda s ((x - 1) mod L) y Hs He (Hmod _) Hy) as [-> | ->],
             (espines_celda s ((x + 1) mod L) y Hs He (Hmod _) Hy) as [-> | ->],
             (espines_celda s x ((y - 1) mod L) Hs He Hx (Hmod _)) as [-> | ->],
             (espines_celda s x ((y + 1) mod L) Hs He Hx (Hmod _)) as [-> | ->];
      match goal with
      | |- ∃ k, _ ∧ ?v = _ => exists (v / 2)
      end; vm_compute; repeat split; discriminate. }
  destruct Hk as (k & Hk & Hprod).
  exists (energia s), (magnetizacion s), (energia (voltear s x y)),
    (magnetizacion (voltear s x y)), k.
  split; [apply var_termo_eq; [lia | assumption]|].
  split; [apply var_termo_eq; [lia | apply cuadrada_voltear, Hs]|].
  split; [assumption|].
  rewrite energia_voltear, Hprod by assumption.
  replace (2 * J * (2 * k)) with (4 * J * k) by ring. reflexivity.
Qed.

(** ** What one step draws and keeps *)

Lemma randint_avanza (lo hi pos : Z) (g g' : rng) :
  randint lo hi g = Ok (pos, g') →
  g' = mk_rng (fun n => enteros g (S n)) (reales g).
Proof.
  unfold randint. destruct (lo <? hi); [|discriminate]. intros [= _ <-]. reflexivity.
Qed.

(** X7.  A call of [cambio_espin] on an [L x L] lattice takes exactly two
    integers from the generator; it takes one real when the flip raises the
    energy, and none otherwise. *)
Theorem cambio_espin_sorteos (s : lattice) (beta : Q) (g : rng) :
  0 < N → cuadrada s →
  ∃ pos_x pos_y g1 g2 E_0 M_0 E_f M_f s' r g',
    randint 0 L g = Ok (pos_x, g1) ∧ randint 0 L g1 = Ok (pos_y, g2)
    ∧ var_termo s = Ok (E_0, M_0)
    ∧ var_termo (voltear s pos_x pos_y) = Ok (E_f, M_f)
    ∧ cambio_espin s beta g = Ok ((s', r), g')
    ∧ enteros g' = (fun n => enteros g (S (S n)))
    ∧ ((E_f - E_0 <= 0)%Q → reales g' = reales g)
    ∧ ((0 < E_f - E_0)%Q → reales g' = (fun n => reales g (S n))).
Proof.
  intros HN Hs. pose proof (long_lado_pos HN) as HL.
  destruct (randint_long_lado g HL) as (pos_x & g1 & Hx & Hpx).
  destruct (randint_long_lado g1 HL) as (pos_y & g2 & Hy & Hpy).
  pose proof (cuadrada_voltear s pos_x pos_y Hs) as Hs'.
  pose proof (var_termo_eq s ltac:(lia) Hs) as H0.
  pose proof (var_termo_eq _ ltac:(lia) Hs') as Hf.
  pose proof (cambio_espin_eq s beta g g1 g2 pos_x pos_y _ _ _ _ Hs Hx Hy H0 Hf)
    as Heq.
  pose proof (randint_avanza _ _ _ _ _ Hx) as Hg1.
  pose proof (randint_avanza _ _ _ _ _ Hy) as Hg2.
  set (E_0 := energia s) in *. set (E_f := energia (voltear s pos_x pos_y)) in *.
  exists pos_x, pos_y, g1, g2, E_0, (magnetizacion s), E_f,
    (magnetizacion (voltear s pos_x pos_y)).
  assert (He2 : enteros g2 = (fun n => enteros g (S (S n))))
    by (rewrite Hg2, Hg1; reflexivity).
  assert (Hr2 : reales g2 = reales g) by (rewrite Hg2, Hg1; reflexivity).
  destruct (Qlt_bool 0 (E_f - E_0)) eqn:HD.
  - apply Qlt_bool_iff in HD.
    destruct (negb _); eexists _, _, _; (do 4 (split; [eassumption|]));
      (split; [exact Heq|]); simpl; (split; [exact He2|]);
      (split; [intros Hle; exfalso; exact (Qlt_not_le _ _ HD Hle)|]);
      intros _; rewrite Hr2; reflexivity.
  - apply Qlt_bool_false_iff in HD.
    eexists _, _, _. do 4 (split; [eassumption|]). split; [exact Heq|].
    split; [exact He2|]. split; [intros _; exact Hr2|].
    intros Hlt. exfalso. exact (Qlt_not_le _ _ Hlt HD).
Qed.

(** X8.  On an [L x L] lattice of spins [cambio_espin] returns, and the
    lattice it leaves is again an [L x L] lattice of spins. *)
Theorem cambio_espin_invariante (s : lattice) (beta : Q) (g : rng) :
  0 < N → cuadrada s → espines s →
  ∃ s' r g', cambio_espin s beta g = Ok ((s', r), g') ∧ cuadrada s' ∧ espines s'.
Proof.
  intros HN Hs He.
  destruct (cambio_espin_Ok s beta g HN Hs) as (s' & r & g' & Hce & Hs').
  exists s', r, g'. split; [assumption|]. split; [assumption|].
  exact (cambio_espin_espines s s' beta g g' r HN Hs He Hce).
Qed.

(** X9.  On a lattice of a single cell ([L = 1]) the cell is its own four
    neighbours, the flip never changes the energy, and [cambio_espin]
    always leaves the spin flipped, without drawing a real: it returns the
    energy and the magnetization of the lattice before the call. *)
Theorem cambio_espin_una_celda (s : lattice) (beta : Q) (g : rng) :
  0 < N → L = 1 → cuadrada s →
  ∃ E_0 M_0 g',
    var_termo s = Ok (E_0, M_0)
    ∧ cambio_espin s beta g = Ok ((voltear s 0 0, (E_0, M_0)), g')
    ∧ reales g' = reales g.
Proof.
  intros HN HL1 Hs. pose proof (long_lado_pos HN) as HL.
  destruct (randint_long_lado g HL) as (pos_x & g1 & Hx & Hpx).
  destruct (randint_long_lado g1 HL) as (pos_y & g2 & Hy & Hpy).
  assert (pos_x = 0) by lia. assert (pos_y = 0) by lia. subst pos_x pos_y.
  pose proof (cuadrada_voltear s 0 0 Hs) as Hs'.
  assert (HE : energia (voltear s 0 0) = energia s).
  { unfold energia. f_equal. f_equal. apply suma2_ext. intros i j Hi Hj.
    assert (i = 0) as -> by lia. assert (j = 0) as -> by lia.
    unfold vecinos. rewrite HL1. change ((0 - 1) mod 1) with 0.
    change ((0 + 1) mod 1) with 0.
    rewrite !(celda_voltear_xy s 0 0), decide_True by (assumption || lia || auto).
    ring. }
  pose proof (var_termo_eq s ltac:(lia) Hs) as H0.
  pose proof (var_termo_eq _ ltac:(lia) Hs') as Hf.
  rewrite HE in Hf.
  pose proof (cambio_espin_eq s beta g g1 g2 0 0 _ _ _ _ Hs Hx Hy H0 Hf) as Heq.
  assert (HD : Qlt_bool 0 (energia s - energia s) = false).
  { apply Qlt_bool_false_iff. apply Qle_minus_iff. ring_simplify. apply Qle_refl. }
  rewrite HD in Heq.
  exists (energia s), (magnetizacion s), g2.
  split; [assumption|]. split; [exact Heq|].
  rewrite (randint_avanza _ _ _ _ _ Hy), (randint_avanza _ _ _ _ _ Hx). reflexivity.
Qed.

(** ** The random lattice, cell by cell *)

Lemma uniform_n_eq (n : nat) (g : rng) :
  uniform_n n g = Ok (map (reales g) (seq 0 n), avanzar_reales n g).
Proof.
  revert g. induction n as [|n IH]; intros g.
  - destruct g. reflexivity.
  - simpl uniform_n.
    rewrite (Az_bind_Ok uniform _ g _ (reales g 0%nat) eq_refl). cbv beta.
    rewrite (Az_bind_Ok _ _ _ _ _ (IH _)). cbv beta.
    unfold mret, Az_ret. f_equal. f_equal.
    simpl. f_equal. rewrite <- fmap_S_seq, <- list_fmap_compose. reflexivity.
Qed.

Lemma gen_array_espines_filas_eq (g0 : rng) (n : nat) (js : list Z) :
  ∀ (filas : list (list Q)) (g : rng),
    enteros g = enteros g0 →
    (∀ k, reales g k = reales g0 (length filas * n + k)%nat) →
    (∀ r fila, filas !! r = Some fila →
               fila = map (fun k => reales g0 (r * n + k)%nat) (seq 0 n)) →
    ∃ filas' g',
      foldAz (fun filas (_ : Z) => fila ← uniform_n n; mret (filas ++ [fila]))
             js filas g = Ok (filas', g')
      ∧ length filas' = (length filas + length js)%nat
      ∧ (∀ r fila, filas' !! r = Some fila →
                   fila = map (fun k => reales g0 (r * n + k)%nat) (seq 0 n))
      ∧ enteros g' = enteros g0
      ∧ ∀ k, reales g' k = reales g0 (length filas' * n + k)%nat.
Proof.
  induction js as [|j js IH]; intros filas g He Hr Hfilas.
  - exists filas, g. split; [reflexivity|]. split; [simpl; lia|]. auto.
  - destruct (IH (filas ++ [map (reales g) (seq 0 n)]) (avanzar_reales n g))
      as (filas' & g' & Hfold & Hl & Hf & He' & Hr').
    + exact He.
    + intros k. simpl. rewrite Hr, length_app. simpl. f_equal. lia.
    + intros r fila Hlook.
      destruct (decide (r < length filas)%nat) as [Hlt|Hge].
      * rewrite lookup_app_l in Hlook by assumption. apply Hfilas, Hlook.
      * rewrite lookup_app_r in Hlook by lia.
        destruct (r - length filas)%nat as [|m] eqn:Hm; [|destruct m; discriminate].
        injection Hlook as <-. apply map_ext. intros k. rewrite Hr.
        assert (r = length filas) as -> by lia. reflexivity.
    + exists filas', g'. split; [|split; [|auto]].
      * simpl. erewrite Az_bind_Ok; [exact Hfold|].
        rewrite (Az_bind_Ok _ _ _ _ _ (uniform_n_eq n g)). reflexivity.
      * rewrite Hl, length_app. simpl. lia.
Qed.

(** X10.  [gen_array_espines] never raises: it returns an [L x L] lattice of
    spins, drawing [L * L] reals and no integer; the cell [(i, j)] is [-1]
    when the real drawn at place [i * L + j] is below [0.5], and [+1]
    otherwise. *)
Theorem gen_array_espines_umbral (g : rng) :
  ∃ s g',
    gen_array_espines g = Ok (s, g')
    ∧ cuadrada s ∧ espines s
    ∧ (∀ i j, 0 <= i < L → 0 <= j < L →
              celda s i j
              = if Qlt_bool (reales g (Z.to_nat (i * L + j))) (1 # 2)
                then -1 else 1)
    ∧ enteros g' = enteros g
    ∧ ∀ k, reales g' k = reales g (Z.to_nat (L * L) + k)%nat.
Proof.
  destruct (gen_array_espines_filas_eq g (Z.to_nat L) (range L) [] g)
    as (filas & g' & Hfold & Hl & Hf & He & Hr);
    [reflexivity | reflexivity | intros r fila H; discriminate |].
  rewrite length_range in Hl. simpl in Hl.
  assert (Hgen : gen_array_espines g
                 = Ok (map (map (fun b : bool => if b then -1 else 1))
                         (map (map (fun u => Qlt_bool u (1 # 2))) filas), g')).
  { unfold gen_array_espines. rewrite (Az_bind_Ok _ _ _ _ _ Hfold). reflexivity. }
  destruct (gen_array_espines_Ok g) as (s0 & g0 & Hgen0 & Hs & Hesp).
  rewrite Hgen in Hgen0. injection Hgen0 as <- <-.
  eexists _, g'. split; [exact Hgen|]. split; [assumption|]. split; [assumption|].
  split; [|split; [assumption|]].
  - intros i j Hi Hj. unfold celda. rewrite !list_lookup_fmap.
    destruct (lookup_lt_is_Some_2 filas (Z.to_nat i)) as [fila Hfila]; [lia|].
    rewrite Hfila. simpl. rewrite !list_lookup_fmap.
    rewrite (Hf _ _ Hfila), list_lookup_fmap, lookup_seq_lt by lia. simpl.
    replace (Z.to_nat i * Z.to_nat L + Z.to_nat j)%nat
      with (Z.to_nat (i * L + j)); [reflexivity|].
    rewrite Z2Nat.inj_add, Z2Nat.inj_mul by nia. reflexivity.
  - intros k. rewrite Hr, Hl. f_equal.
    rewrite Z2Nat.inj_mul by (pose proof (Z.sqrt_nonneg N); unfold long_lado; lia).
    reflexivity.
Qed.

(** ** The series that [evolucion] records *)

(** The step again, with what it returns and what it leaves. *)
Lemma cambio_espin_Ok_detalle (s : lattice) (beta : Q) (g : rng) :
  0 < N → cuadrada s →
  ∃ pos_x pos_y s' g',
    0 <= pos_x < L ∧ 0 <= pos_y < L
    ∧ cambio_espin s beta g
      = Ok ((s', (energia (voltear s pos_x pos_y), magnetizacion s)), g')
    ∧ (s' = s ∨ s' = voltear s pos_x pos_y)
    ∧ cuadrada s'.
Proof.
  intros HN Hs. pose proof (long_lado_pos HN) as HL.
  destruct (randint_long_lado g HL) as (pos_x & g1 & Hx & Hpx).
  destruct (randint_long_lado g1 HL) as (pos_y & g2 & Hy & Hpy).
  pose proof (cuadrada_voltear s pos_x pos_y Hs) as Hs'.
  pose proof (cambio_espin_eq s beta g g1 g2 pos_x pos_y _ _ _ _ Hs Hx Hy
                (var_termo_eq s ltac:(lia) Hs)
                (var_termo_eq _ ltac:(lia) Hs')) as Heq.
  exists pos_x, pos_y.
  destruct (Qlt_bool 0 _); [destruct (negb _)|];
    eexists _, _; (do 2 (split; [assumption|])); (split; [exact Heq|]); auto.
Qed.

Lemma evolucion_inv (ts : list Z) (beta : Q) (s s' : lattice)
    (aE aM : list Q) (g g' : rng) :
  evolucion ts beta s g = Ok ((s', (aE, aM)), g') →
  ∃ E_0 M_0,
    var_termo s = Ok (E_0, M_0) ∧ 0 < cant_iter
    ∧ foldAz (evolucion_paso beta) (drop 1 ts)
        (s, <[0%nat := E_0]> (replicate (Z.to_nat cant_iter) 1%Q),
            <[0%nat := M_0]> (replicate (Z.to_nat cant_iter) 1%Q)) g
      = Ok ((s', aE, aM), g').
Proof.
  unfold evolucion. intros H.
  apply Az_bind_inv in H as ([E_0 M_0] & g1 & Hvt & H).
  apply lift_inv in Hvt as [Hvt ->].
  apply Az_bind_inv in H as (aE0 & g2 & HE0 & H).
  apply Az_bind_inv in H as (aM0 & g3 & HM0 & H).
  apply lift_inv in HE0 as [HE0 ->]. apply lift_inv in HM0 as [HM0 ->].
  apply np_ones_inv in HE0, HM0. subst aE0 aM0.
  apply Az_bind_inv in H as (aE1 & g4 & HE1 & H).
  apply Az_bind_inv in H as (aM1 & g5 & HM1 & H).
  apply lift_inv in HE1 as [HE1 ->]. apply lift_inv in HM1 as [HM1 ->].
  apply setitem_inv in HE1 as (kE & HkE & ->).
  apply setitem_inv in HM1 as (kM & HkM & ->).
  rewrite length_replicate in HkE, HkM.
  apply np_index_Ok_inv in HkE as (Hr & HkE & _).
  apply np_index_Ok_inv in HkM as (_ & HkM & _).
  unfold posicion in HkE, HkM. rewrite Z.mod_0_l in HkE, HkM by lia.
  change (Z.to_nat 0) with 0%nat in HkE, HkM. subst kE kM.
  apply Az_bind_inv in H as ([[s1 aE1] aM1] & g6 & Hfold & H).
  injection H as <- <- <- <-.
  exists E_0, M_0. split; [assumption|]. split; [lia | exact Hfold].
Qed.

Lemma drop_tiempo_sim_lookup (k : nat) :
  (S k < Z.to_nat cant_iter)%nat →
  drop 1 tiempo_sim !! k = Some (Z.of_nat (S k)).
Proof.
  intros Hk. rewrite lookup_drop. unfold tiempo_sim.
  apply lookup_range. assumption.
Qed.

Lemma length_drop_tiempo_sim :
  length (drop 1 tiempo_sim) = (Z.to_nat cant_iter - 1)%nat.
Proof. unfold tiempo_sim. rewrite length_drop, length_range. reflexivity. Qed.

Lemma posicion_pequena (len i : Z) : 0 <= i < len → posicion len i = Z.to_nat i.
Proof. intros Hi. unfold posicion. rewrite Z.mod_small by assumption. reflexivity. Qed.

(** X11.  With the module's [tiempo_sim = np.arange(cant_iter)], [evolucion]
    returns the energy and the magnetization of the initial lattice at
    index 0, followed by the pairs that the [cant_iter - 1] successive calls
    of [cambio_espin] return, in order. *)
Theorem evolucion_serie (beta : Q) (s : lattice) (g : rng) :
  0 < N → 0 < cant_iter → cuadrada s →
  ∃ s' g',
    evolucion tiempo_sim beta s g
    = Ok ((s', (energia s :: map fst (pasos beta (Z.to_nat cant_iter - 1) s g),
                magnetizacion s :: map snd (pasos beta (Z.to_nat cant_iter - 1) s g))),
          g').
Proof.
  intros HN Hc Hs.
  destruct (evolucion_Ok tiempo_sim beta s g HN Hc Hs tiempo_sim_en_rango)
    as (s' & aE & aM & g' & Hev & HlE & HlM & Hlp & Hult).
  rewrite length_drop_tiempo_sim in Hlp, Hult.
  set (ps := pasos beta (Z.to_nat cant_iter - 1) s g) in *.
  destruct (evolucion_inv _ _ _ _ _ _ _ _ Hev) as (E_0 & M_0 & Hvt & _ & Hfold).
  rewrite var_termo_eq in Hvt by (lia || assumption). injection Hvt as <- <-.
  destruct (evolucion_bucle_marco beta 0%nat _ _ _ _ _ _ _ _ _ Hfold)
    as (HE0 & HM0 & _ & _).
  { intros i k Hi Hk. rewrite length_insert, length_replicate in Hk.
    apply np_index_Ok_inv in Hk as (_ & -> & _).
    apply list_elem_of_lookup in Hi as [m Hm].
    pose proof (lookup_lt_Some _ _ _ Hm) as Hlt.
    rewrite length_drop_tiempo_sim in Hlt.
    rewrite drop_tiempo_sim_lookup in Hm by lia. injection Hm as <-.
    rewrite Z2Nat.id, posicion_pequena by lia. lia. }
  { intros i k Hi Hk. rewrite length_insert, length_replicate in Hk.
    apply np_index_Ok_inv in Hk as (_ & -> & _).
    apply list_elem_of_lookup in Hi as [m Hm].
    pose proof (lookup_lt_Some _ _ _ Hm) as Hlt.
    rewrite length_drop_tiempo_sim in Hlt.
    rewrite drop_tiempo_sim_lookup in Hm by lia. injection Hm as <-.
    rewrite Z2Nat.id, posicion_pequena by lia. lia. }
  rewrite !list_lookup_insert_eq in HE0, HM0 by (rewrite length_replicate; lia).
  assert (Hk : ∀ k E M, ps !! k = Some (E, M) →
                        aE !! S k = Some E ∧ aM !! S k = Some M).
  { intros k E M Hp. pose proof (lookup_lt_Some _ _ _ Hp) as Hlt.
    rewrite Hlp in Hlt.
    destruct (Hult k (Z.of_nat (S k)) E M) as [HE HM].
    - apply drop_tiempo_sim_lookup. lia.
    - exact Hp.
    - intros k' i' Hlt' Hi'. pose proof (lookup_lt_Some _ _ _ Hi') as Hlt2.
      rewrite length_drop_tiempo_sim in Hlt2.
      rewrite drop_tiempo_sim_lookup in Hi' by lia. injection Hi' as <-.
      rewrite !posicion_pequena by lia. lia.
    - rewrite posicion_pequena, Nat2Z.id in HE, HM by lia. auto. }
  exists s', g'. rewrite Hev. f_equal. f_equal. f_equal. f_equal.
  - apply list_eq. intros [|k]; [exact HE0|]. simpl. rewrite list_lookup_fmap.
    destruct (ps !! k) as [[E M]|] eqn:Hp.
    + apply (Hk k E M Hp).
    + apply lookup_ge_None. apply lookup_ge_None in Hp. lia.
  - apply list_eq. intros [|k]; [exact HM0|]. simpl. rewrite list_lookup_fmap.
    destruct (ps !! k) as [[E M]|] eqn:Hp.
    + apply (Hk k E M Hp).
    + apply lookup_ge_None. apply lookup_ge_None in Hp. lia.
Qed.

(** The magnetization that a step returns is that of the lattice it ran
    on, and the energy that of the lattice it proposes. *)
Lemma pasos_redes (beta : Q) (n : nat) :
  0 < N →
  ∀ (s : lattice) (g : rng),
    cuadrada s →
    length (redes beta n s g) = n
    ∧ map snd (pasos beta n s g) = map magnetizacion (redes beta n s g)
    ∧ Forall cuadrada (redes beta n s g)
    ∧ (espines s → Forall espines (redes beta n s g)).
Proof.
  intros HN. induction n as [|n IH]; intros s g Hs.
  - repeat split; constructor.
  - destruct (cambio_espin_Ok_detalle s beta g HN Hs)
      as (pos_x & pos_y & s1 & g1 & Hx & Hy & Hce & Hs1 & Hc1).
    simpl. rewrite Hce. destruct (IH s1 g1 Hc1) as (Hl & Hm & Hc & He).
    split; [simpl; congruence|]. split; [simpl; congruence|].
    split; [constructor; assumption|].
    intros Hes. constructor; [assumption|]. apply He.
    exact (cambio_espin_espines s s1 beta g g1 _ HN Hs Hes Hce).
Qed.

(** X12.  With the module's [tiempo_sim], the magnetization series that
    [evolucion] returns lags one step behind the lattice: entry [k >= 1]
    is the magnetization of the lattice on which step [k] ran, not of the
    lattice it left.  So the series starts with the initial magnetization
    twice, and the magnetization of the final lattice is not recorded. *)
Theorem evolucion_magnetizacion_retrasada (beta : Q) (s : lattice) (g : rng) :
  0 < N → 0 < cant_iter → cuadrada s →
  ∃ s' aE aM g',
    evolucion tiempo_sim beta s g = Ok ((s', (aE, aM)), g')
    ∧ aM = magnetizacion s
           :: map magnetizacion (redes beta (Z.to_nat cant_iter - 1) s g)
    ∧ length (redes beta (Z.to_nat cant_iter - 1) s g)
      = (Z.to_nat cant_iter - 1)%nat
    ∧ (2 <= cant_iter →
       aM !! 0%nat = Some (magnetizacion s) ∧ aM !! 1%nat = Some (magnetizacion s)).
Proof.
  intros HN Hc Hs.
  destruct (evolucion_Ok tiempo_sim beta s g HN Hc Hs tiempo_sim_en_rango)
    as (s' & aE & aM & g' & Hev & HlE & HlM & Hlp & Hult).
  rewrite length_drop_tiempo_sim in Hlp, Hult.
  destruct (pasos_redes beta (Z.to_nat cant_iter - 1) HN s g Hs)
    as (Hlr & Hmr & _ & _).
  destruct (evolucion_inv _ _ _ _ _ _ _ _ Hev) as (E_0 & M_0 & Hvt & _ & Hfold).
  rewrite var_termo_eq in Hvt by (lia || assumption). injection Hvt as <- <-.
  destruct (evolucion_bucle_marco beta 0%nat _ _ _ _ _ _ _ _ _ Hfold)
    as (_ & HM0 & _ & _).
  { intros i k Hi Hk. rewrite length_insert, length_replicate in Hk.
    apply np_index_Ok_inv in Hk as (_ & -> & _).
    apply list_elem_of_lookup in Hi as [m Hm].
    pose proof (lookup_lt_Some _ _ _ Hm) as Hlt.
    rewrite length_drop_tiempo_sim in Hlt.
    rewrite drop_tiempo_sim_lookup in Hm by lia. injection Hm as <-.
    rewrite Z2Nat.id, posicion_pequena by lia. lia. }
  { intros i k Hi Hk. rewrite length_insert, length_replicate in Hk.
    apply np_index_Ok_inv in Hk as (_ & -> & _).
    apply list_elem_of_lookup in Hi as [m Hm].
    pose proof (lookup_lt_Some _ _ _ Hm) as Hlt.
    rewrite length_drop_tiempo_sim in Hlt.
    rewrite drop_tiempo_sim_lookup in Hm by lia. injection Hm as <-.
    rewrite Z2Nat.id, posicion_pequena by lia. lia. }
  rewrite list_lookup_insert_eq in HM0 by (rewrite length_replicate; lia).
  assert (HaM : aM = magnetizacion s
                     :: map magnetizacion (redes beta (Z.to_nat cant_iter - 1) s g)).
  { rewrite <- Hmr. apply list_eq. intros [|k]; [exact HM0|].
    simpl. rewrite list_lookup_fmap.
    destruct (pasos beta (Z.to_nat cant_iter - 1) s g !! k) as [[E M]|] eqn:Hp.
    - pose proof (lookup_lt_Some _ _ _ Hp) as Hlt. rewrite Hlp in Hlt.
      destruct (Hult k (Z.of_nat (S k)) E M) as [_ HM].
      + apply drop_tiempo_sim_lookup. lia.
      + exact Hp.
      + intros k' i' Hlt' Hi'. pose proof (lookup_lt_Some _ _ _ Hi') as Hlt2.
        rewrite length_drop_tiempo_sim in Hlt2.
        rewrite drop_tiempo_sim_lookup in Hi' by lia. injection Hi' as <-.
        rewrite !posicion_pequena by lia. lia.
      + rewrite posicion_pequena, Nat2Z.id in HM by lia. exact HM.
    - apply lookup_ge_None. apply lookup_ge_None in Hp. lia. }
  exists s', aE, aM, g'. split; [assumption|]. split; [assumption|].
  split; [assumption|].
  intros H2. rewrite HaM. split; [reflexivity|]. simpl.
  destruct (Z.to_nat cant_iter - 1)%nat as [|n] eqn:Hn; [lia|]. reflexivity.
Qed.

(** The loop keeps the lattice an [L x L] lattice of spins, and every
    magnetization it writes is that of such a lattice. *)
Lemma evolucion_bucle_invariante (beta : Q) (P : Q → Prop) (idx : list Z) :
  0 < N →
  (∀ s, cuadrada s → espines s → P (magnetizacion s)) →
  ∀ (s s' : lattice) (aE aM aE' aM' : list Q) (g g' : rng),
    foldAz (evolucion_paso beta) idx (s, aE, aM) g = Ok ((s', aE', aM'), g') →
    cuadrada s → espines s → Forall P aM →
    cuadrada s' ∧ espines s' ∧ Forall P aM'.
Proof.
  intros HN HP. induction idx as [|i idx IH];
    intros s s' aE aM aE' aM' g g' H Hs He HaM.
  - injection H as <- <- <- <-. auto.
  - simpl in H. apply Az_bind_inv in H as ([[s1 aE1] aM1] & g1 & Hpaso & H).
    apply evolucion_paso_inv in Hpaso
      as (E & M & kE & kM & Hce & _ & -> & _ & ->).
    destruct (cambio_espin_Ok_detalle s beta g HN Hs)
      as (pos_x & pos_y & s2 & g2 & _ & _ & Hce' & _ & Hc2).
    rewrite Hce in Hce'. injection Hce' as <- _ -> <-.
    apply (IH _ _ _ _ _ _ _ _ H); [assumption | |].
    + exact (cambio_espin_espines s s1 beta g g1 _ HN Hs He Hce).
    + apply Forall_insert; [assumption | apply HP; assumption].
Qed.

(** X13.  For every index sequence whose entries after the first lie in
    [[-cant_iter, cant_iter)], [evolucion] on an [L x L] lattice of spins
    leaves an [L x L] lattice of spins. *)
Theorem evolucion_invariante (ts : list Z) (beta : Q) (s : lattice) (g : rng) :
  0 < N → 0 < cant_iter → cuadrada s → espines s →
  Forall (fun i => - cant_iter <= i < cant_iter) (drop 1 ts) →
  ∃ s' aE aM g',
    evolucion ts beta s g = Ok ((s', (aE, aM)), g')
    ∧ cuadrada s' ∧ espines s'.
Proof.
  intros HN Hc Hs He Hidx.
  destruct (evolucion_Ok ts beta s g HN Hc Hs Hidx)
    as (s' & aE & aM & g' & Hev & _).
  exists s', aE, aM, g'. split; [assumption|].
  destruct (evolucion_inv _ _ _ _ _ _ _ _ Hev) as (E_0 & M_0 & _ & _ & Hfold).
  destruct (evolucion_bucle_invariante beta (fun _ => True) _ HN
              (fun _ _ _ => I) _ _ _ _ _ _ _ _ Hfold Hs He) as (Hs' & He' & _).
  - apply Forall_true. auto.
  - auto.
Qed.

(** X14.  Whenever [evolucion] returns from an [L x L] lattice of spins, with
    [N = L * L], every entry of the magnetization series lies in
    [[-1, 1]], the entries no index addresses included. *)
Theorem evolucion_magnetizacion_cota (ts : list Z) (beta : Q) (s s' : lattice)
    (aE aM : list Q) (g g' : rng) :
  0 < N → N = L * L → cuadrada s → espines s →
  evolucion ts beta s g = Ok ((s', (aE, aM)), g') →
  Forall (fun M => (- (1) <= M)%Q ∧ (M <= 1)%Q) aM.
Proof.
  intros HN HNL Hs He Hev.
  destruct (evolucion_inv _ _ _ _ _ _ _ _ Hev) as (E_0 & M_0 & Hvt & _ & Hfold).
  rewrite var_termo_eq in Hvt by (lia || assumption). injection Hvt as <- <-.
  destruct (evolucion_bucle_invariante beta
              (fun M => (- (1) <= M)%Q ∧ (M <= 1)%Q) _ HN
              (fun s0 Hs0 He0 => magnetizacion_cota s0 HN HNL Hs0 He0)
              _ _ _ _ _ _ _ _ Hfold Hs He) as (_ & _ & HaM); [|exact HaM].
  apply Forall_insert.
  - apply Forall_replicate. split; discriminate.
  - apply magnetizacion_cota; assumption.
Qed.

(** X15.  With an empty output size [evolucion] raises before any step: the
    write [array_E[0] = E_0] raises [IndexError] when [cant_iter = 0], and
    [np.ones] raises [ValueError] when [cant_iter < 0]. *)
Theorem evolucion_sin_iteraciones (ts : list Z) (beta : Q) (s : lattice) (g : rng) :
  0 < N → cuadrada s → cant_iter <= 0 →
  evolucion ts beta s g
  = Err (if cant_iter <? 0 then ValueError else IndexError).
Proof.
  intros HN Hs Hc. unfold evolucion.
  rewrite var_termo_eq, Az_bind_lift by (lia || assumption). cbv beta iota.
  unfold np_ones. destruct (Z.ltb_spec cant_iter 0); [reflexivity|].
  assert (cant_iter = 0) as -> by lia. reflexivity.
Qed.

(** ** Averages and the sweep *)

Lemma Qsum_cota (lo hi : Q) (a : list Q) :
  Forall (fun x => (lo <= x)%Q ∧ (x <= hi)%Q) a →
  (lo * inject_Z (Z.of_nat (length a)) <= Qsum a)%Q
  ∧ (Qsum a <= hi * inject_Z (Z.of_nat (length a)))%Q.
Proof.
  induction 1 as [|x a [Hlo Hhi] Ha [IHlo IHhi]].
  - simpl. split; ring_simplify; apply Qle_refl.
  - change (Qsum (x :: a)) with (x + Qsum a)%Q. simpl length.
    rewrite Nat2Z.inj_succ, <- Z.add_1_r, inject_Z_plus. split.
    + assert (Heq : (lo * (inject_Z (Z.of_nat (length a)) + inject_Z 1)
                     == lo + lo * inject_Z (Z.of_nat (length a)))%Q) by ring.
      rewrite Heq. apply Qplus_le_compat; assumption.
    + assert (Heq : (hi * (inject_Z (Z.of_nat (length a)) + inject_Z 1)
                     == hi + hi * inject_Z (Z.of_nat (length a)))%Q) by ring.
      rewrite Heq. apply Qplus_le_compat; assumption.
Qed.

Lemma media_cota (lo hi : Q) (a : list Q) :
  a ≠ [] → Forall (fun x => (lo <= x)%Q ∧ (x <= hi)%Q) a →
  (lo <= media a)%Q ∧ (media a <= hi)%Q.
Proof.
  intros Hne Ha. destruct (Qsum_cota lo hi a Ha) as [Hlo Hhi].
  assert (Hlen : (0 < inject_Z (Z.of_nat (length a)))%Q).
  { destruct a; [contradiction|]. unfold Qlt. simpl. lia. }
  unfold media. split.
  - apply Qle_shift_div_l; assumption.
  - apply Qle_shift_div_r; assumption.
Qed.

Lemma np_mean_inv (a : list Q) (m : Q) : np_mean a = Ok m → a ≠ [] ∧ m = media a.
Proof. destruct a; [discriminate|]. intros [= <-]. split; [discriminate | reflexivity]. Qed.

Lemma Forall_slice_from {A : Type} (P : A → Prop) (a : list A) (t : Z) :
  Forall P a → Forall P (slice_from a t).
Proof. intros Ha. unfold slice_from. destruct (0 <=? t); apply Forall_drop, Ha. Qed.

Lemma np_mean_cota (lo hi : Q) (a : list Q) (t : Z) (m : Q) :
  Forall (fun x => (lo <= x)%Q ∧ (x <= hi)%Q) a →
  np_mean (slice_from a t) = Ok m → (lo <= m)%Q ∧ (m <= hi)%Q.
Proof.
  intros Ha H. apply np_mean_inv in H as [Hne ->].
  apply media_cota; [assumption | apply Forall_slice_from, Ha].
Qed.

Lemma promedios_inv (array_E array_M : list Q) (t : Z) (E M : Q) :
  promedios array_E array_M t = Ok (E, M) →
  np_mean (slice_from array_E t) = Ok E ∧ np_mean (slice_from array_M t) = Ok M.
Proof.
  unfold promedios. intros H.
  apply res_bind_inv in H as (E' & HmE & H).
  apply res_bind_inv in H as (M' & HmM & H). injection H as <- <-. auto.
Qed.

Lemma muestra_inv (beta : Q) (g g' : rng) (E M : Q) :
  muestra beta g = Ok ((E, M), g') →
  ∃ s s' aE aM g1,
    gen_array_espines g = Ok (s, g1)
    ∧ evolucion tiempo_sim beta s g1 = Ok ((s', (aE, aM)), g')
    ∧ promedios aE aM t_estable = Ok (E, M).
Proof.
  unfold muestra. intros H.
  apply Az_bind_inv in H as (s & g1 & Hgen & H).
  apply Az_bind_inv in H as ([s' [aE aM]] & g2 & Hev & H).
  apply lift_inv in H as [Hprom ->].
  exists s, s', aE, aM, g1. auto.
Qed.

Lemma muestra_magnetizacion_cota (beta : Q) (g g' : rng) (E M : Q) :
  0 < N → N = L * L →
  muestra beta g = Ok ((E, M), g') → (- (1) <= M)%Q ∧ (M <= 1)%Q.
Proof.
  intros HN HNL H.
  apply muestra_inv in H as (s & s' & aE & aM & g1 & Hgen & Hev & Hprom).
  destruct (gen_array_espines_Ok g) as (s0 & g0 & Hgen0 & Hs & He).
  rewrite Hgen in Hgen0. injection Hgen0 as <- <-.
  destruct (evolucion_inv _ _ _ _ _ _ _ _ Hev) as (E_0 & M_0 & Hvt & _ & Hfold).
  rewrite var_termo_eq in Hvt by (lia || assumption). injection Hvt as <- <-.
  destruct (evolucion_bucle_invariante beta
              (fun M => (- (1) <= M)%Q ∧ (M <= 1)%Q) _ HN
              (fun s0 Hs0 He0 => magnetizacion_cota s0 HN HNL Hs0 He0)
              _ _ _ _ _ _ _ _ Hfold Hs He) as (_ & _ & HaM).
  { apply Forall_insert.
    - apply Forall_replicate. split; discriminate.
    - apply magnetizacion_cota; assumption. }
  apply promedios_inv in Hprom as [_ HmM].
  eapply np_mean_cota; eassumption.
Qed.

(** [main] as its loop, with the arrays it builds before it. *)
Lemma main_eq (g : rng) :
  0 < N → 0 < cant_iter → t_estable < cant_iter → 0 <= cant_Temp →
  ∃ aEp aMp j graf g' (gs : nat → rng),
    foldAz (main_paso temperaturas (map (fun T => (1 / T)%Q) temperaturas))
           (range cant_Temp)
           (replicate (Z.to_nat cant_Temp) 0%Q, replicate (Z.to_nat cant_Temp) 0%Q,
            0, []) g
    = Ok ((aEp, aMp, j, graf), g')
    ∧ main g
      = Ok (mk_barrido temperaturas (map (fun T => (1 / T)%Q) temperaturas)
              aEp aMp (graf ++ [Grafica_MvsT aMp temperaturas]), g')
    ∧ length temperaturas = Z.to_nat cant_Temp
    ∧ length aMp = Z.to_nat cant_Temp
    ∧ ∀ i, (i < Z.to_nat cant_Temp)%nat →
           ∃ beta E M,
             muestra beta (gs i) = Ok ((E, M), gs (S i))
             ∧ aEp !! i = Some E ∧ aMp !! i = Some M.
Proof.
  intros HN Hc Ht HT.
  set (n := Z.to_nat cant_Temp).
  set (aT := temperaturas).
  set (aB := map (fun T => (1 / T)%Q) aT).
  assert (HlT : length aT = n)
    by (unfold aT, temperaturas; rewrite !length_map; apply length_range).
  assert (HlB : length aB = n) by (unfold aB; rewrite length_map; exact HlT).
  destruct (main_bucle aT aB n HN Hc Ht HlT HlB n 0%nat
              (replicate n 0%Q) (replicate n 0%Q) 0 [] g)
    as (aEp & aMp & j & graf & g' & gs & Hfold & _ & _ & HlE & HlM & _ & Hi);
    [reflexivity | apply length_replicate .. |].
  exists aEp, aMp, j, graf, g', gs.
  split; [exact Hfold|]. split.
  { unfold main, np_linspace, np_zeros.
    destruct (Z.ltb_spec cant_Temp 0); [lia|].
    rewrite !Az_bind_lift. cbv beta.
    fold temperaturas. fold aT. fold aB. fold n.
    unfold range in *. fold n in Hfold |- *.
    rewrite (Az_bind_Ok _ _ _ _ _ Hfold). reflexivity. }
  do 2 (split; [assumption|]).
  intros i Hlt. destruct (Hi i) as (beta & E & M & _ & Hmu & HE & HM); [lia|].
  exists beta, E, M. auto.
Qed.

(** X16.  With [N = L * L], every entry of the array of average
    magnetizations that [main] builds lies in [[-1, 1]]. *)
Theorem main_magnetizacion_cota (g : rng) :
  0 < N → N = L * L → 0 < cant_iter → t_estable < cant_iter → 0 <= cant_Temp →
  ∃ b g',
    main g = Ok (b, g')
    ∧ length (array_M_prom b) = Z.to_nat cant_Temp
    ∧ Forall (fun M => (- (1) <= M)%Q ∧ (M <= 1)%Q) (array_M_prom b).
Proof.
  intros HN HNL Hc Ht HT.
  destruct (main_eq g HN Hc Ht HT)
    as (aEp & aMp & j & graf & g' & gs & _ & Hmain & _ & HlM & Hi).
  eexists _, g'. split; [exact Hmain|]. simpl. split; [assumption|].
  apply Forall_lookup. intros i M HM.
  pose proof (lookup_lt_Some _ _ _ HM) as Hlt. rewrite HlM in Hlt.
  destruct (Hi i Hlt) as (beta & E & M' & Hmu & _ & HM').
  rewrite HM in HM'. injection HM' as <-.
  exact (muestra_magnetizacion_cota beta _ _ E M HN HNL Hmu).
Qed.

(** X17.  Without samples [main] runs no simulation: with [cant_Temp = 0] it
    returns empty arrays, asks only for the summary plot and leaves the
    generator untouched; with [cant_Temp < 0] [np.linspace] raises
    [ValueError]. *)
Theorem main_sin_muestras (g : rng) :
  cant_Temp <= 0 →
  main g
  = if cant_Temp <? 0 then Err ValueError
    else Ok (mk_barrido [] [] [] [] [Grafica_MvsT [] []], g).
Proof.
  intros HT. unfold main, np_linspace, np_zeros.
  destruct (Z.ltb_spec cant_Temp 0); [reflexivity|].
  assert (cant_Temp = 0) as -> by lia. reflexivity.
Qed.

(** One pass of the loop of [main], with the series it plots and averages. *)
Lemma main_paso_series (aT aB aEp aMp : list Q) (j : Z) (graf : list grafica)
    (i : nat) (T beta : Q) (g : rng) :
  0 < N → 0 < cant_iter → t_estable < cant_iter →
  aT !! i = Some T → aB !! i = Some beta →
  (i < length aEp)%nat → (i < length aMp)%nat →
  ∃ aE aM E M g',
    serie_de_muestra beta g g' aE aM
    ∧ promedios aE aM t_estable = Ok (E, M)
    ∧ muestra beta g = Ok ((E, M), g')
    ∧ main_paso aT aB (aEp, aMp, j, graf) (Z.of_nat i) g
      = Ok ((<[i := E]> aEp, <[i := M]> aMp,
             (if (Z.of_nat i =? 0) || (Z.of_nat i =? cant_Temp ÷ 4)
                 || (Z.of_nat i =? cant_Temp - 1)
              then j + 1 else j),
             (if (Z.of_nat i =? 0) || (Z.of_nat i =? cant_Temp ÷ 4)
                 || (Z.of_nat i =? cant_Temp - 1)
              then graf ++ [Graficas_EyM tiempo_sim aE aM T (j + 1)] else graf)),
            g').
Proof.
  intros HN Hc Ht HT HB HiE HiM.
  destruct (muestra_Ok beta g HN Hc Ht)
    as (s & s' & aE & aM & g1 & g' & Hgen & Hev & Hmu & Hprom).
  exists aE, aM, (media (slice_from aE t_estable)),
    (media (slice_from aM t_estable)), g'.
  split; [exists s, s', g1; auto|]. split; [exact Hprom|]. split; [exact Hmu|].
  unfold main_paso.
  rewrite (getitem_nonneg aB (Z.of_nat i) beta), Az_bind_lift
    by (lia || rewrite Nat2Z.id; assumption).
  cbv beta.
  rewrite (Az_bind_Ok _ _ _ _ _ Hgen). cbv beta.
  rewrite (Az_bind_Ok _ _ _ _ _ Hev). cbv beta iota.
  rewrite (getitem_nonneg aT (Z.of_nat i) T)
    by (lia || rewrite Nat2Z.id; assumption).
  rewrite Hprom.
  destruct ((Z.of_nat i =? 0) || (Z.of_nat i =? cant_Temp ÷ 4)
            || (Z.of_nat i =? cant_Temp - 1));
    unfold mbind, Az_bind, mret, Az_ret, lift; cbv beta iota;
    rewrite !setitem_nonneg by lia; rewrite Nat2Z.id; reflexivity.
Qed.

(** The loop of [main] over the samples [a, a + 1, ..., a + m - 1]: the
    generator states [gs] between the samples, the averages it stores and
    the plots it asks for, one for each selected sample, in order, each with
    that sample's temperature and series and the next label. *)
Lemma main_bucle_series (aT aB : list Q) (n : nat) :
  0 < N → 0 < cant_iter → t_estable < cant_iter →
  length aT = n → length aB = n →
  ∀ (m a : nat) (aEp aMp : list Q) (j : Z) (graf : list grafica) (g : rng),
    (a + m = n)%nat → length aEp = n → length aMp = n →
    ∃ aEp' aMp' j' evs g' (gs : nat → rng),
      foldAz (main_paso aT aB) (map Z.of_nat (seq a m)) (aEp, aMp, j, graf) g
      = Ok ((aEp', aMp', j', graf ++ evs), g')
      ∧ gs a = g ∧ gs (a + m)%nat = g'
      ∧ (∀ i, (i < a)%nat → aEp' !! i = aEp !! i ∧ aMp' !! i = aMp !! i)
      ∧ (∀ i, (a <= i < a + m)%nat →
           ∃ beta E M,
             aB !! i = Some beta
             ∧ muestra beta (gs i) = Ok ((E, M), gs (S i)))
      ∧ length evs
        = length (filter (fun i => (Z.of_nat i =? 0) || (Z.of_nat i =? cant_Temp ÷ 4)
                                   || (Z.of_nat i =? cant_Temp - 1) = true)
                         (seq a m))
      ∧ (∀ (k i : nat),
           filter (fun i => (Z.of_nat i =? 0) || (Z.of_nat i =? cant_Temp ÷ 4)
                            || (Z.of_nat i =? cant_Temp - 1) = true)
                  (seq a m) !! k = Some i →
           ∃ T beta aE aM E M,
             aT !! i = Some T ∧ aB !! i = Some beta
             ∧ serie_de_muestra beta (gs i) (gs (S i)) aE aM
             ∧ promedios aE aM t_estable = Ok (E, M)
             ∧ aEp' !! i = Some E ∧ aMp' !! i = Some M
             ∧ evs !! k
               = Some (Graficas_EyM tiempo_sim aE aM T (j + Z.of_nat k + 1))).
Proof.
  intros HN Hc Ht HlT HlB.
  induction m as [|m IH]; intros a aEp aMp j graf g Ha HlE HlM.
  - exists aEp, aMp, j, [], g, (fun _ => g).
    split; [simpl; rewrite app_nil_r; reflexivity|].
    do 2 (split; [reflexivity|]). split; [auto|].
    split; [intros i Hi; lia|]. split; [reflexivity|].
    intros k i Hk. discriminate.
  - destruct (lookup_lt_is_Some_2 aT a) as [T HT]; [lia|].
    destruct (lookup_lt_is_Some_2 aB a) as [beta HB]; [lia|].
    destruct (main_paso_series aT aB aEp aMp j graf a T beta g HN Hc Ht HT HB)
      as (aE & aM & E & M & g1 & Hserie & Hprom & Hmu & Hpaso); [lia .. |].
    set (c := (Z.of_nat a =? 0) || (Z.of_nat a =? cant_Temp ÷ 4)
              || (Z.of_nat a =? cant_Temp - 1)) in *.
    set (ev := Graficas_EyM tiempo_sim aE aM T (j + 1)) in *.
    destruct (IH (S a) (<[a := E]> aEp) (<[a := M]> aMp)
                 (if c then j + 1 else j) (if c then graf ++ [ev] else graf) g1)
      as (aEp' & aMp' & j' & evs & g' & gs & Hfold & Hgs0 & Hgs1
          & Hantes & Hcadena & Hlen & Hevs);
      [lia | rewrite length_insert; assumption .. |].
    assert (Hdesde : ∀ k i,
               filter (fun i => (Z.of_nat i =? 0) || (Z.of_nat i =? cant_Temp ÷ 4)
                                || (Z.of_nat i =? cant_Temp - 1) = true)
                      (seq (S a) m) !! k = Some i → (S a <= i)%nat).
    { intros k i Hk. apply list_elem_of_lookup_2, list_elem_of_filter in Hk.
      destruct Hk as [_ Hk]. apply elem_of_seq in Hk. lia. }
    exists aEp', aMp', j', (if c then ev :: evs else evs), g',
      (fun i => if (i <=? a)%nat then g else gs i).
    split.
    { simpl. rewrite (Az_bind_Ok _ _ _ _ _ Hpaso). rewrite Hfold.
      destruct c; [rewrite <- app_assoc|]; reflexivity. }
    split; [rewrite Nat.leb_refl; reflexivity|].
    split.
    { destruct (Nat.leb_spec (a + S m) a); [lia|].
      rewrite <- Hgs1. f_equal. lia. }
    split.
    { intros i Hi. destruct (Hantes i) as [HE HM]; [lia|].
      rewrite HE, HM, !list_lookup_insert_ne by lia. auto. }
    split.
    { intros i Hi. destruct (Nat.leb_spec i a) as [Hle|Hgt].
      - assert (i = a) as -> by lia.
        destruct (Nat.leb_spec (S a) a); [lia|].
        exists beta, E, M. rewrite Hgs0. auto.
      - destruct (Nat.leb_spec (S i) a); [lia|].
        apply Hcadena. lia. }
    simpl seq. rewrite filter_cons. fold c.
    destruct c eqn:Hsel.
    + rewrite decide_True by reflexivity. split; [simpl; congruence|].
      intros [|k] i Hk.
      * injection Hk as <-.
        rewrite Nat.leb_refl. destruct (Nat.leb_spec (S a) a); [lia|].
        exists T, beta, aE, aM, E, M. rewrite Hgs0.
        do 4 (split; [assumption|]).
        destruct (Hantes a) as [HE HM]; [lia|].
        rewrite HE, HM, !list_lookup_insert_eq by lia.
        do 2 (split; [reflexivity|]).
        simpl. unfold ev. do 2 f_equal. lia.
      * simpl in Hk. pose proof (Hdesde k i Hk) as Hi.
        destruct (Hevs k i Hk)
          as (T' & beta' & aE' & aM' & E' & M' & H1 & H2 & H3 & H4 & H5 & H6 & H7).
        destruct (Nat.leb_spec i a); [lia|].
        destruct (Nat.leb_spec (S i) a); [lia|].
        exists T', beta', aE', aM', E', M'.
        do 6 (split; [assumption|]).
        simpl. rewrite H7. do 2 f_equal. lia.
    + rewrite decide_False by discriminate. split; [exact Hlen|].
      intros k i Hk. pose proof (Hdesde k i Hk) as Hi.
      destruct (Hevs k i Hk)
        as (T' & beta' & aE' & aM' & E' & M' & H1 & H2 & H3 & H4 & H5 & H6 & H7).
      destruct (Nat.leb_spec i a); [lia|].
      destruct (Nat.leb_spec (S i) a); [lia|].
      exists T', beta', aE', aM', E', M'. auto 10.
Qed.

Lemma seleccion_seq :
  seleccion
  = map Z.of_nat
        (filter (fun i => (Z.of_nat i =? 0) || (Z.of_nat i =? cant_Temp ÷ 4)
                          || (Z.of_nat i =? cant_Temp - 1) = true)
                (seq 0 (Z.to_nat cant_Temp))).
Proof.
  unfold seleccion, range.
  induction (seq 0 (Z.to_nat cant_Temp)) as [|i l IH]; [reflexivity|].
  simpl map. rewrite !filter_cons, IH.
  destruct ((Z.of_nat i =? 0) || (Z.of_nat i =? cant_Temp ÷ 4)
            || (Z.of_nat i =? cant_Temp - 1)).
  - rewrite !decide_True by reflexivity. reflexivity.
  - rewrite !decide_False by discriminate. reflexivity.
Qed.

(** X18.  [main] asks for the time-series plots of exactly the samples
    [0], [int(cant_Temp/4)] and [cant_Temp - 1] (each once, in increasing
    order) and then for the summary plot of the average magnetizations
    against the temperatures.  The [k]-th of these plots (counting from
    zero) is called with [tiempo_sim], with the two series that [evolucion]
    returned for that very sample (its fresh lattice, its inverse
    temperature [1/T], the generator as the preceding samples left it), with
    the temperature [T] of the sample and with the label [k + 1]; the
    averages stored for the sample are those of the same two series.  The
    generator states [gs] between the samples are fixed by the run: [gs 0]
    is the initial one and each sample takes [gs i] to [gs (i + 1)]. *)
Theorem main_graficas (g : rng) :
  0 < N → 0 < cant_iter → t_estable < cant_iter → 0 <= cant_Temp →
  ∃ b g' evs (gs : nat → rng),
    main g = Ok (b, g')
    ∧ graficas b = evs ++ [Grafica_MvsT (array_M_prom b) (array_T b)]
    ∧ length evs = length seleccion
    ∧ gs 0%nat = g ∧ gs (Z.to_nat cant_Temp) = g'
    ∧ (∀ (i : nat) (T : Q),
         array_T b !! i = Some T →
         ∃ E M, muestra (1 / T) (gs i) = Ok ((E, M), gs (S i)))
    ∧ (∀ (k : nat) (i : Z),
         seleccion !! k = Some i →
         ∃ T aE aM E M,
           array_T b !! Z.to_nat i = Some T
           ∧ serie_de_muestra (1 / T) (gs (Z.to_nat i)) (gs (S (Z.to_nat i))) aE aM
           ∧ evs !! k = Some (Graficas_EyM tiempo_sim aE aM T (Z.of_nat k + 1))
           ∧ promedios aE aM t_estable = Ok (E, M)
           ∧ array_E_prom b !! Z.to_nat i = Some E
           ∧ array_M_prom b !! Z.to_nat i = Some M).
Proof.
  intros HN Hc Ht HT.
  set (n := Z.to_nat cant_Temp).
  set (aT := temperaturas).
  set (aB := map (fun T => (1 / T)%Q) aT).
  assert (HlT : length aT = n)
    by (unfold aT, temperaturas; rewrite !length_map; apply length_range).
  assert (HlB : length aB = n) by (unfold aB; rewrite length_map; exact HlT).
  destruct (main_bucle_series aT aB n HN Hc Ht HlT HlB n 0%nat
              (replicate n 0%Q) (replicate n 0%Q) 0 [] g)
    as (aEp & aMp & j & evs & g' & gs & Hfold & Hgs0 & Hgs1 & _ & Hcadena
        & Hlen & Hevs);
    [reflexivity | apply length_replicate .. |].
  simpl in Hfold, Hgs1.
  exists (mk_barrido aT aB aEp aMp (evs ++ [Grafica_MvsT aMp aT])), g', evs, gs.
  split.
  { unfold main, np_linspace, np_zeros.
    destruct (Z.ltb_spec cant_Temp 0); [lia|].
    rewrite !Az_bind_lift. cbv beta.
    fold temperaturas. fold aT. fold aB. fold n.
    unfold range in *. fold n in Hfold |- *.
    rewrite (Az_bind_Ok _ _ _ _ _ Hfold). reflexivity. }
  simpl. split; [reflexivity|].
  split; [rewrite seleccion_seq, length_map; exact Hlen|].
  do 2 (split; [assumption|]). split.
  - intros i T Hi. pose proof (lookup_lt_Some _ _ _ Hi) as Hlt.
    destruct (Hcadena i) as (beta & E & M & HB & Hmu); [lia|].
    unfold aB in HB. rewrite list_lookup_fmap, Hi in HB. injection HB as <-.
    exists E, M. exact Hmu.
  - intros k i Hk. rewrite seleccion_seq, list_lookup_fmap in Hk.
    fold n in Hk.
    destruct (filter (fun i => (Z.of_nat i =? 0) || (Z.of_nat i =? cant_Temp ÷ 4)
                               || (Z.of_nat i =? cant_Temp - 1) = true)
                     (seq 0 n) !! k) as [i'|] eqn:Hk'; [|discriminate].
    injection Hk as <-. rewrite Nat2Z.id.
    destruct (Hevs k i' Hk')
      as (T & beta & aE & aM & E & M & H1 & H2 & H3 & H4 & H5 & H6 & H7).
    unfold aB in H2. rewrite list_lookup_fmap, H1 in H2. injection H2 as <-.
    exists T, aE, aM, E, M. rewrite H7. auto 10.
Qed.

(** X19.  With an empty lattice ([N = 0], hence [L = 0]) the loops of
    [var_termo] do not run and [M /= N] raises [ZeroDivisionError], whatever
    the array; [evolucion] raises it before any step; and [cambio_espin]
    raises [ValueError], as [np.random.randint(0, 0)] has nothing to draw. *)
Theorem red_vacia (ts : list Z) (beta : Q) (s : lattice) (g : rng) :
  N = 0 →
  var_termo s = Err ZeroDivisionError
  ∧ evolucion ts beta s g = Err ZeroDivisionError
  ∧ cambio_espin s beta g = Err ValueError.
Proof.
  intros HN.
  assert (Hvt : var_termo s = Err ZeroDivisionError).
  { unfold var_termo, long_lado. rewrite HN. reflexivity. }
  split; [exact Hvt|]. split.
  - unfold evolucion. rewrite Hvt. reflexivity.
  - unfold cambio_espin, long_lado. rewrite HN. reflexivity.
Qed.

End Simulacion.

(** * The model and the claims at concrete inputs *)

(** With the module's constants [N = 81] and [J = 1], the lattice with
    every spin up has energy [-162] and magnetization [1]. *)
Example var_termo_todos_uno :
  var_termo 81 1 (todos_uno 9) = Ok ((-324 # 2)%Q, (81 # 81)%Q).
Proof. vm_compute. reflexivity. Qed.

(** One step on [red_ejemplo]: the generator draws the cell [(0, 1)], the
    flip lowers the energy from [6] to [2] and is kept, and the step
    returns the new energy with the old magnetization [1/9]. *)
Example cambio_espin_red_ejemplo :
  ∃ g', cambio_espin 9 1 exp_racional red_ejemplo 1 rng_ejemplo
        = Ok (([[1; 1; 1]; [-1; -1; 1]; [1; 1; -1]], ((4 # 2)%Q, (1 # 9)%Q)), g')
  ∧ var_termo 9 1 red_ejemplo = Ok ((12 # 2)%Q, (1 # 9)%Q).
Proof. eexists. split; vm_compute; reflexivity. Qed.

(** One step on the lattice with every spin up, [N = 81]: the flip raises
    the energy from [-162] to [-154], the draw [p = 1/3] is not below
    [exp_racional (-8) = 1/9], the flip is reverted, and the step returns
    the energy [-154] of the flipped lattice with the magnetization [1]. *)
Example cambio_espin_todos_uno :
  ∃ g', cambio_espin 81 1 exp_racional (todos_uno 9) 1 rng_ejemplo
        = Ok ((todos_uno 9, ((-308 # 2)%Q, (81 # 81)%Q)), g').
Proof. eexists. vm_compute. reflexivity. Qed.

(** Rounding to float64: [0.1] and [1/3] are not float64 values, [0.5] and
    [2^53] are, [2^53 + 1] is a tie and goes to the even significand, and
    below [2^-1022] the spacing stays [2^-1074]. *)
Example redondear64_ejemplos :
  (redondear64 (1 # 10) == 3602879701896397 # 36028797018963968)%Q
  ∧ (redondear64 (- (1 # 3)) == - (6004799503160661 # 18014398509481984))%Q
  ∧ (redondear64 (1 # 2) == 1 # 2)%Q
  ∧ (redondear64 (inject_Z (2 ^ 53)) == inject_Z (2 ^ 53))%Q
  ∧ (redondear64 (inject_Z (2 ^ 53 + 1)) == inject_Z (2 ^ 53))%Q
  ∧ (redondear64 (inject_Z (2 ^ 53 + 3)) == inject_Z (2 ^ 53 + 4))%Q
  ∧ (redondear64 (3 # Z.to_pos (2 ^ 1075)) == 2 # Z.to_pos (2 ^ 1074))%Q.
Proof. repeat split; vm_compute; reflexivity. Qed.

(** [np.mean] of ten times [0.1] is [0.1]: the eight accumulators add up to
    [0.8] without rounding and the last two entries bring the sum to [1.0],
    whereas adding the ten entries one after the other gives
    [0.9999999999999999]. *)
Example np_mean_f64_diez_decimos :
  let c := (3602879701896397 # 36028797018963968)%Q in
  ∃ m, np_mean_f64 (replicate 10 c) = Ok m ∧ (m == c)%Q
       ∧ (np_add_reduce (replicate 10 c) == 1)%Q
       ∧ (acumular 0 (replicate 10 c) == 9007199254740991 # 9007199254740992)%Q.
Proof. eexists. repeat split; vm_compute; reflexivity. Qed.

(** The magnetization [1/81] of a single spin up, as a float64, over the
    [2000] entries that the program averages: the array is cut in two again
    and again, down to blocks of at most [128] entries, and the mean is one
    unit in the last place away from the constant. *)
Example np_mean_f64_un_espin :
  let c := redondear64 (1 # 81) in
  ∃ m, np_mean_f64 (replicate (Z.to_nat 2000) c) = Ok m
       ∧ (m == 7116799411153375 # 576460752303423488)%Q
       ∧ (c == 7116799411153376 # 576460752303423488)%Q.
Proof. eexists. repeat split; vm_compute; reflexivity. Qed.

Lemma cuadrada_red_ejemplo : cuadrada 9 red_ejemplo.
Proof. split; [reflexivity | lista_concreta]. Defined.

Lemma espines_red_ejemplo : espines red_ejemplo.
Proof. unfold espines, red_ejemplo. lista_concreta. Defined.

(** C4 at [N = 81] ([L = 9]) and at [N = 1] ([L = 1]). *)
Lemma pos_vecinos_frontera_witness :
  (0 <= 0 < long_lado 81 ∧ pos_vecinos 81 0 0 = [8; 1; 8; 1]
   ∧ pos_vecinos 81 8 8 = [7; 0; 7; 0])
  ∧ (0 <= 0 < long_lado 1 ∧ pos_vecinos 1 0 0 = [0; 0; 0; 0]).
Proof.
  split.
  - split; [vm_compute; split; [discriminate | reflexivity]|].
    destruct (pos_vecinos_frontera 81 0 0) as (_ & _ & H9 & _);
      [vm_compute; split; [discriminate | reflexivity] .. |].
    apply H9. reflexivity.
  - split; [vm_compute; split; [discriminate | reflexivity]|].
    destruct (pos_vecinos_frontera 1 0 0) as (_ & _ & _ & H1);
      [vm_compute; split; [discriminate | reflexivity] .. |].
    apply H1. reflexivity.
Defined.

(** C3 at [N = 9], [J = 1] and the lattice [red_ejemplo]. *)
Lemma var_termo_especificacion_witness :
  0 < 9 ∧ 9 = long_lado 9 * long_lado 9 ∧ cuadrada 9 red_ejemplo
  ∧ var_termo 9 1 red_ejemplo
    = Ok (energia 9 1 red_ejemplo, magnetizacion 9 red_ejemplo).
Proof.
  split; [lia|]. split; [reflexivity|]. split; [exact cuadrada_red_ejemplo|].
  apply (var_termo_especificacion 9 1 red_ejemplo);
    [lia | reflexivity | exact cuadrada_red_ejemplo].
Defined.

(** C9 at [N = 9], [J = 1] and the lattice [red_ejemplo]. *)
Lemma var_termo_cotas_witness :
  espines red_ejemplo
  ∧ ∃ E M, var_termo 9 1 red_ejemplo = Ok (E, M)
           ∧ (- (1) <= M)%Q ∧ (M <= 1)%Q
           ∧ ∃ k : Z, (E == inject_Z k * (inject_Z 1 / 2))%Q.
Proof.
  split; [exact espines_red_ejemplo|].
  apply (var_termo_cotas 9 1 red_ejemplo);
    [lia | reflexivity | exact cuadrada_red_ejemplo | exact espines_red_ejemplo].
Defined.

(** C1 at [N = 9], [J = 1], [beta = 1] and the lattice [red_ejemplo]. *)
Lemma cambio_espin_metropolis_witness :
  0 < 9 ∧ cuadrada 9 red_ejemplo ∧ espines red_ejemplo
  ∧ ∃ s' r g',
      cambio_espin 9 1 exp_racional red_ejemplo 1 rng_ejemplo = Ok ((s', r), g').
Proof.
  split; [lia|]. split; [exact cuadrada_red_ejemplo|].
  split; [exact espines_red_ejemplo|].
  destruct (cambio_espin_metropolis 9 1 exp_racional red_ejemplo 1 rng_ejemplo)
    as (pos_x & pos_y & g1 & g2 & E_0 & M_0 & E_f & M_f & p & g3 & s' & r & g'
        & _ & _ & _ & _ & _ & H & _);
    [lia | exact cuadrada_red_ejemplo | exact espines_red_ejemplo |].
  exists s', r, g'. exact H.
Defined.

(** C2 at the same input. *)
Lemma cambio_espin_retorno_witness :
  0 < 9 ∧ cuadrada 9 red_ejemplo
  ∧ ∃ E_f M_0 s' g',
      cambio_espin 9 1 exp_racional red_ejemplo 1 rng_ejemplo
      = Ok ((s', (E_f, M_0)), g').
Proof.
  split; [lia|]. split; [exact cuadrada_red_ejemplo|].
  destruct (cambio_espin_retorno 9 1 exp_racional red_ejemplo 1 rng_ejemplo)
    as (pos_x & pos_y & g1 & g2 & E_0 & M_0 & E_f & M_f & s' & g'
        & _ & _ & _ & _ & H & _);
    [lia | exact cuadrada_red_ejemplo |].
  exists E_f, M_0, s', g'. exact H.
Defined.

(** C5 at the same input. *)
Lemma cambio_espin_marco_witness :
  0 < 9 ∧ cuadrada 9 red_ejemplo
  ∧ ∃ s' r g',
      cambio_espin 9 1 exp_racional red_ejemplo 1 rng_ejemplo = Ok ((s', r), g')
      ∧ cuadrada 9 s'.
Proof.
  split; [lia|]. split; [exact cuadrada_red_ejemplo|].
  destruct (cambio_espin_marco 9 1 exp_racional red_ejemplo 1 rng_ejemplo)
    as (pos_x & pos_y & g1 & g2 & E_0 & M_0 & E_f & M_f & p & g3 & s' & r & g'
        & _ & _ & _ & _ & _ & H & Hs' & _);
    [lia | exact cuadrada_red_ejemplo |].
  exists s', r, g'. split; [exact H | exact Hs'].
Defined.

(** C6: with the module's constants ([N = 81], [J = 1],
    [cant_iter = 8000]) and the index sequence [[0, 8000]], the write
    [array_E[8000] = E_f] raises [IndexError]. *)
Lemma evolucion_indice_fuera :
  evolucion 81 1 8000 exp_racional [0; 8000] 1 (todos_uno 9) rng_ejemplo
  = Err IndexError
  ∧ ¬ ∃ r, evolucion 81 1 8000 exp_racional [0; 8000] 1 (todos_uno 9) rng_ejemplo
           = Ok r.
Proof.
  assert (H : evolucion 81 1 8000 exp_racional [0; 8000] 1 (todos_uno 9) rng_ejemplo
              = Err IndexError) by (vm_compute; reflexivity).
  split; [exact H|]. intros [r Hr]. rewrite H in Hr. discriminate.
Qed.

(** C6, as amended, at [N = 9], [J = 1], [cant_iter = 4] and the index
    sequence [[0, 1, -1, 3]]. *)
Lemma evolucion_indices_witness :
  0 < 9 ∧ 0 < 4 ∧ cuadrada 9 red_ejemplo
  ∧ Forall (fun i => - 4 <= i < 4) (drop 1 [0; 1; -1; 3])
  ∧ ∃ s' aE aM g',
      evolucion 9 1 4 exp_racional [0; 1; -1; 3] 1 red_ejemplo rng_ejemplo
      = Ok ((s', (aE, aM)), g')
      ∧ length aE = 4%nat ∧ length aM = 4%nat.
Proof.
  assert (Hidx : Forall (fun i => - 4 <= i < 4) (drop 1 [0; 1; -1; 3]))
    by (simpl; lista_concreta).
  split; [lia|]. split; [lia|]. split; [exact cuadrada_red_ejemplo|].
  split; [exact Hidx|].
  destruct (evolucion_indices 9 1 4 exp_racional [0; 1; -1; 3] 1 red_ejemplo
              rng_ejemplo) as [Hok _];
    [lia | lia | exact cuadrada_red_ejemplo |].
  destruct (Hok Hidx) as (s' & aE & aM & g' & H & HlE & HlM & _).
  exists s', aE, aM, g'. auto.
Defined.

(** C10 at [N = 9], [J = 1], [cant_iter = 4], the index sequence
    [[0, 1, 2]] and the position [k = 3]. *)
Lemma evolucion_unos_witness :
  ∃ s' aE aM g',
    evolucion 9 1 4 exp_racional [0; 1; 2] 1 red_ejemplo rng_ejemplo
    = Ok ((s', (aE, aM)), g')
    ∧ 1 <= 3 < 4
    ∧ (∀ i, i ∈ drop 1 [0; 1; 2] → i ≠ 3 ∧ i ≠ 3 - 4)
    ∧ getitem aE 3 = Ok 1%Q ∧ getitem aM 3 = Ok 1%Q.
Proof.
  assert (Hno : ∀ i, i ∈ drop 1 [0; 1; 2] → i ≠ 3 ∧ i ≠ 3 - 4).
  { intros i Hi. simpl in Hi. apply list_elem_of_In in Hi. simpl in Hi. lia. }
  destruct (evolucion 9 1 4 exp_racional [0; 1; 2] 1 red_ejemplo rng_ejemplo)
    as [[[s' [aE aM]] g']|e] eqn:Hev.
  - exists s', aE, aM, g'. split; [reflexivity|]. split; [lia|].
    split; [exact Hno|].
    exact (evolucion_unos 9 1 4 exp_racional [0; 1; 2] 1 red_ejemplo s' aE aM
             rng_ejemplo g' 3 Hev ltac:(lia) Hno).
  - vm_compute in Hev. discriminate Hev.
Defined.

(** C7: the float64 nearest to [0.1] three times over.  The sum
    [0.1 + 0.1 + 0.1] rounds to [0.30000000000000004] and the average that
    [promedios] returns is [0.10000000000000002], not the constant. *)
Lemma promedios_constante_inexacta :
  let c := (3602879701896397 # 36028797018963968)%Q in
  let c' := (7205759403792795 # 72057594037927936)%Q in
  (redondear64 (1 # 10) == c)%Q
  ∧ 0 < Z.of_nat (length [c; c; c])
  ∧ Forall (fun x => (x == c)%Q) [c; c; c]
  ∧ promedios_f64 [c; c; c] [c; c; c] 0 = Ok (c', c')
  ∧ ¬ (c' == c)%Q.
Proof.
  intros c c'. split; [vm_compute; reflexivity|].
  split; [simpl; lia|].
  split; [repeat constructor; reflexivity|].
  split; [vm_compute; reflexivity|]. vm_compute. discriminate.
Qed.

(** C7, as amended, with the module's constants ([cant_iter = 8000],
    [t_estable = 6000]) at the series of a lattice with every spin up that
    no step changes: the energy [-162] and the magnetization [1]. *)
Lemma promedios_f64_media_witness :
  6000 < Z.of_nat (length (replicate (Z.to_nat 8000) (-162)%Q))
  ∧ 6000 < Z.of_nat (length (replicate (Z.to_nat 8000) 1%Q))
  ∧ ∃ E_prom M_prom,
      promedios_f64 (replicate (Z.to_nat 8000) (-162)%Q) (replicate (Z.to_nat 8000) 1%Q) 6000
      = Ok (E_prom, M_prom)
      ∧ (E_prom == -162)%Q ∧ (M_prom == 1)%Q.
Proof.
  assert (HE : 6000 < Z.of_nat (length (replicate (Z.to_nat 8000) (-162)%Q)))
    by (rewrite length_replicate; lia).
  assert (HM : 6000 < Z.of_nat (length (replicate (Z.to_nat 8000) 1%Q)))
    by (rewrite length_replicate; lia).
  split; [exact HE|]. split; [exact HM|].
  destruct (promedios_f64_media (replicate (Z.to_nat 8000) (-162)%Q) (replicate (Z.to_nat 8000) 1%Q) 6000)
    as (H & _ & HcE & HcM); [exact HE | exact HM | discriminate | discriminate |].
  eexists _, _. split; [exact H|]. split.
  - apply HcE; [apply Forall_replicate; reflexivity|].
    apply exactos_b_ok. vm_compute. reflexivity.
  - apply HcM; [apply Forall_replicate; reflexivity|].
    apply exactos_b_ok. vm_compute. reflexivity.
Defined.

(** C8 with the module's constants: [N = 81], [J = 1], [cant_iter = 8000],
    [t_estable = 6000], [cant_Temp = 100]. *)
Lemma main_barrido_witness :
  0 < 81 ∧ 0 < 8000 ∧ 6000 < 8000 ∧ 0 <= 100
  ∧ ∃ b g',
      main 81 1 8000 6000 100 exp_racional arcsinh_racional rng_ejemplo = Ok (b, g')
      ∧ length (array_T b) = 100%nat
      ∧ length (array_E_prom b) = 100%nat
      ∧ length (array_M_prom b) = 100%nat.
Proof.
  split; [lia|]. split; [lia|]. split; [lia|]. split; [lia|].
  destruct (main_barrido 81 1 8000 6000 100 exp_racional arcsinh_racional rng_ejemplo)
    as (b & g' & gs & H & _ & _ & HT & HE & HM & _); [lia .. |].
  exists b, g'. auto.
Defined.

(** * The further properties at concrete inputs *)

Lemma pos_vecinos_simetria_witness :
  0 <= 0 < long_lado 81 ∧ 0 <= 8 < long_lado 81
  ∧ ∃ a b c d, pos_vecinos 81 0 8 = [a; b; c; d]
               ∧ pos_vecinos 81 a 8 !! 1%nat = Some 0
               ∧ pos_vecinos 81 0 d !! 2%nat = Some 8.
Proof.
  assert (H0 : 0 <= 0 < long_lado 81) by (vm_compute; split; [discriminate | reflexivity]).
  assert (H8 : 0 <= 8 < long_lado 81) by (vm_compute; split; [discriminate | reflexivity]).
  split; [exact H0|]. split; [exact H8|].
  destruct (pos_vecinos_simetria 81 0 8 H0 H8)
    as (a & b & c & d & Hp & _ & Ha & _ & _ & Hd).
  exists a, b, c, d. auto.
Defined.

Lemma var_termo_negar_witness :
  9 ≠ 0 ∧ cuadrada 9 red_ejemplo
  ∧ ∃ E M M', var_termo 9 1 red_ejemplo = Ok (E, M)
              ∧ var_termo 9 1 (negar red_ejemplo) = Ok (E, M') ∧ (M' == - M)%Q.
Proof.
  split; [lia|]. split; [exact cuadrada_red_ejemplo|].
  apply (var_termo_negar 9 1 red_ejemplo); [lia | exact cuadrada_red_ejemplo].
Defined.

Lemma var_termo_energia_cota_witness :
  0 < 9 ∧ 9 = long_lado 9 * long_lado 9 ∧ cuadrada 9 red_ejemplo
  ∧ espines red_ejemplo
  ∧ ∃ E M, var_termo 9 1 red_ejemplo = Ok (E, M)
           ∧ (- inject_Z (2 * Z.abs 1 * 9) <= E)%Q
           ∧ (E <= inject_Z (2 * Z.abs 1 * 9))%Q.
Proof.
  split; [lia|]. split; [reflexivity|]. split; [exact cuadrada_red_ejemplo|].
  split; [exact espines_red_ejemplo|].
  apply (var_termo_energia_cota 9 1 red_ejemplo);
    [lia | reflexivity | exact cuadrada_red_ejemplo | exact espines_red_ejemplo].
Defined.

Lemma var_termo_pocas_filas_witness :
  0 < 9 ∧ (length [[1; 1; 1]; [1; -1; 1]]%Z < Z.to_nat (long_lado 9))%nat
  ∧ var_termo 9 1 [[1; 1; 1]; [1; -1; 1]] = Err IndexError.
Proof.
  assert (Hl : (length [[1; 1; 1]; [1; -1; 1]]%Z < Z.to_nat (long_lado 9))%nat)
    by (vm_compute; lia).
  split; [lia|]. split; [exact Hl|].
  apply (var_termo_pocas_filas 9 1); [lia | exact Hl].
Defined.

Lemma var_termo_voltear_witness :
  0 < 9 ∧ 2 <= long_lado 9 ∧ cuadrada 9 red_ejemplo
  ∧ 0 <= 0 < long_lado 9 ∧ 0 <= 1 < long_lado 9
  ∧ ∃ E_0 M_0 E_f M_f,
      var_termo 9 1 red_ejemplo = Ok (E_0, M_0)
      ∧ var_termo 9 1 (voltear red_ejemplo 0 1) = Ok (E_f, M_f)
      ∧ (E_f - E_0 == inject_Z (-4))%Q.
Proof.
  assert (HL : 2 <= long_lado 9) by (vm_compute; discriminate).
  assert (H0 : 0 <= 0 < long_lado 9) by (vm_compute; split; [discriminate | reflexivity]).
  assert (H1 : 0 <= 1 < long_lado 9) by (vm_compute; split; [discriminate | reflexivity]).
  split; [lia|]. split; [exact HL|]. split; [exact cuadrada_red_ejemplo|].
  split; [exact H0|]. split; [exact H1|].
  destruct (var_termo_voltear 9 1 red_ejemplo 0 1)
    as (E_0 & M_0 & E_f & M_f & Hv0 & Hvf & HE);
    [lia | exact HL | exact cuadrada_red_ejemplo | exact H0 | exact H1 |].
  exists E_0, M_0, E_f, M_f. split; [exact Hv0|]. split; [exact Hvf|].
  rewrite HE. reflexivity.
Defined.

Lemma var_termo_voltear_espines_witness :
  0 < 9 ∧ 2 <= long_lado 9 ∧ cuadrada 9 red_ejemplo ∧ espines red_ejemplo
  ∧ 0 <= 0 < long_lado 9 ∧ 0 <= 1 < long_lado 9
  ∧ ∃ E_0 M_0 E_f M_f k,
      var_termo 9 1 red_ejemplo = Ok (E_0, M_0)
      ∧ var_termo 9 1 (voltear red_ejemplo 0 1) = Ok (E_f, M_f)
      ∧ -2 <= k <= 2 ∧ (E_f - E_0 == inject_Z (4 * 1 * k))%Q.
Proof.
  assert (HL : 2 <= long_lado 9) by (vm_compute; discriminate).
  assert (H0 : 0 <= 0 < long_lado 9) by (vm_compute; split; [discriminate | reflexivity]).
  assert (H1 : 0 <= 1 < long_lado 9) by (vm_compute; split; [discriminate | reflexivity]).
  split; [lia|]. split; [exact HL|]. split; [exact cuadrada_red_ejemplo|].
  split; [exact espines_red_ejemplo|]. split; [exact H0|]. split; [exact H1|].
  apply (var_termo_voltear_espines 9 1 red_ejemplo 0 1);
    [lia | exact HL | exact cuadrada_red_ejemplo | exact espines_red_ejemplo
     | exact H0 | exact H1].
Defined.

Lemma cambio_espin_sorteos_witness :
  0 < 9 ∧ cuadrada 9 red_ejemplo
  ∧ ∃ s' r g',
      cambio_espin 9 1 exp_racional red_ejemplo 1 rng_ejemplo = Ok ((s', r), g')
      ∧ enteros g' = (fun n => enteros rng_ejemplo (S (S n))).
Proof.
  split; [lia|]. split; [exact cuadrada_red_ejemplo|].
  destruct (cambio_espin_sorteos 9 1 exp_racional red_ejemplo 1 rng_ejemplo)
    as (pos_x & pos_y & g1 & g2 & E_0 & M_0 & E_f & M_f & s' & r & g'
        & _ & _ & _ & _ & H & He & _);
    [lia | exact cuadrada_red_ejemplo |].
  exists s', r, g'. auto.
Defined.

Lemma cambio_espin_invariante_witness :
  0 < 9 ∧ cuadrada 9 red_ejemplo ∧ espines red_ejemplo
  ∧ ∃ s' r g',
      cambio_espin 9 1 exp_racional red_ejemplo 1 rng_ejemplo = Ok ((s', r), g')
      ∧ cuadrada 9 s' ∧ espines s'.
Proof.
  split; [lia|]. split; [exact cuadrada_red_ejemplo|].
  split; [exact espines_red_ejemplo|].
  apply (cambio_espin_invariante 9 1 exp_racional red_ejemplo 1 rng_ejemplo);
    [lia | exact cuadrada_red_ejemplo | exact espines_red_ejemplo].
Defined.

Lemma cambio_espin_una_celda_witness :
  0 < 1 ∧ long_lado 1 = 1 ∧ cuadrada 1 [[-1]]
  ∧ ∃ E_0 M_0 g',
      var_termo 1 1 [[-1]] = Ok (E_0, M_0)
      ∧ cambio_espin 1 1 exp_racional [[-1]] 1 rng_ejemplo
        = Ok ((voltear [[-1]] 0 0, (E_0, M_0)), g')
      ∧ reales g' = reales rng_ejemplo.
Proof.
  assert (Hs : cuadrada 1 [[-1]]) by (split; [reflexivity | lista_concreta]).
  split; [lia|]. split; [reflexivity|]. split; [exact Hs|].
  apply (cambio_espin_una_celda 1 1 exp_racional [[-1]] 1 rng_ejemplo);
    [lia | reflexivity | exact Hs].
Defined.

Lemma evolucion_serie_witness :
  0 < 9 ∧ 0 < 4 ∧ cuadrada 9 red_ejemplo
  ∧ ∃ s' g',
      evolucion 9 1 4 exp_racional (tiempo_sim 4) 1 red_ejemplo rng_ejemplo
      = Ok ((s', (energia 9 1 red_ejemplo
                  :: map fst (pasos 9 1 exp_racional 1 (Z.to_nat 4 - 1)
                                red_ejemplo rng_ejemplo),
                  magnetizacion 9 red_ejemplo
                  :: map snd (pasos 9 1 exp_racional 1 (Z.to_nat 4 - 1)
                                red_ejemplo rng_ejemplo))), g').
Proof.
  split; [lia|]. split; [lia|]. split; [exact cuadrada_red_ejemplo|].
  apply (evolucion_serie 9 1 4 exp_racional 1 red_ejemplo rng_ejemplo);
    [lia | lia | exact cuadrada_red_ejemplo].
Defined.

Lemma evolucion_magnetizacion_retrasada_witness :
  0 < 9 ∧ 0 < 4 ∧ cuadrada 9 red_ejemplo
  ∧ ∃ s' aE aM g',
      evolucion 9 1 4 exp_racional (tiempo_sim 4) 1 red_ejemplo rng_ejemplo
      = Ok ((s', (aE, aM)), g')
      ∧ aM !! 0%nat = Some (magnetizacion 9 red_ejemplo)
      ∧ aM !! 1%nat = Some (magnetizacion 9 red_ejemplo).
Proof.
  split; [lia|]. split; [lia|]. split; [exact cuadrada_red_ejemplo|].
  destruct (evolucion_magnetizacion_retrasada 9 1 4 exp_racional 1 red_ejemplo
              rng_ejemplo)
    as (s' & aE & aM & g' & Hev & _ & _ & H2);
    [lia | lia | exact cuadrada_red_ejemplo |].
  exists s', aE, aM, g'. split; [exact Hev|]. apply H2. lia.
Defined.

Lemma evolucion_invariante_witness :
  0 < 9 ∧ 0 < 4 ∧ cuadrada 9 red_ejemplo ∧ espines red_ejemplo
  ∧ Forall (fun i => - 4 <= i < 4) (drop 1 [0; 1; -1; 3])
  ∧ ∃ s' aE aM g',
      evolucion 9 1 4 exp_racional [0; 1; -1; 3] 1 red_ejemplo rng_ejemplo
      = Ok ((s', (aE, aM)), g')
      ∧ cuadrada 9 s' ∧ espines s'.
Proof.
  assert (Hidx : Forall (fun i => - 4 <= i < 4) (drop 1 [0; 1; -1; 3]))
    by (simpl; lista_concreta).
  split; [lia|]. split; [lia|]. split; [exact cuadrada_red_ejemplo|].
  split; [exact espines_red_ejemplo|]. split; [exact Hidx|].
  apply (evolucion_invariante 9 1 4 exp_racional [0; 1; -1; 3] 1 red_ejemplo
           rng_ejemplo);
    [lia | lia | exact cuadrada_red_ejemplo | exact espines_red_ejemplo
     | exact Hidx].
Defined.

Lemma evolucion_magnetizacion_cota_witness :
  0 < 9 ∧ 9 = long_lado 9 * long_lado 9 ∧ cuadrada 9 red_ejemplo
  ∧ espines red_ejemplo
  ∧ ∃ s' aE aM g',
      evolucion 9 1 4 exp_racional [0; 2] 1 red_ejemplo rng_ejemplo
      = Ok ((s', (aE, aM)), g')
      ∧ Forall (fun M => (- (1) <= M)%Q ∧ (M <= 1)%Q) aM.
Proof.
  split; [lia|]. split; [reflexivity|]. split; [exact cuadrada_red_ejemplo|].
  split; [exact espines_red_ejemplo|].
  destruct (evolucion 9 1 4 exp_racional [0; 2] 1 red_ejemplo rng_ejemplo)
    as [[[s' [aE aM]] g']|e] eqn:Hev.
  - exists s', aE, aM, g'. split; [reflexivity|].
    exact (evolucion_magnetizacion_cota 9 1 4 exp_racional [0; 2] 1 red_ejemplo
             s' aE aM rng_ejemplo g' ltac:(lia) eq_refl cuadrada_red_ejemplo
             espines_red_ejemplo Hev).
  - vm_compute in Hev. discriminate Hev.
Defined.

Lemma evolucion_sin_iteraciones_witness :
  0 < 9 ∧ cuadrada 9 red_ejemplo ∧ 0 <= 0
  ∧ evolucion 9 1 0 exp_racional [] 1 red_ejemplo rng_ejemplo = Err IndexError.
Proof.
  split; [lia|]. split; [exact cuadrada_red_ejemplo|]. split; [lia|].
  apply (evolucion_sin_iteraciones 9 1 0 exp_racional [] 1 red_ejemplo rng_ejemplo);
    [lia | exact cuadrada_red_ejemplo | lia].
Defined.

Lemma red_vacia_witness :
  0 = 0
  ∧ var_termo 0 1 [] = Err ZeroDivisionError
  ∧ evolucion 0 1 4 exp_racional [0; 1] 1 [] rng_ejemplo = Err ZeroDivisionError
  ∧ cambio_espin 0 1 exp_racional [] 1 rng_ejemplo = Err ValueError.
Proof.
  split; [reflexivity|].
  apply (red_vacia 0 1 4 exp_racional [0; 1] 1 [] rng_ejemplo). reflexivity.
Defined.

Lemma main_magnetizacion_cota_witness :
  0 < 81 ∧ 81 = long_lado 81 * long_lado 81 ∧ 0 < 8000 ∧ 6000 < 8000 ∧ 0 <= 100
  ∧ ∃ b g',
      main 81 1 8000 6000 100 exp_racional arcsinh_racional rng_ejemplo = Ok (b, g')
      ∧ Forall (fun M => (- (1) <= M)%Q ∧ (M <= 1)%Q) (array_M_prom b).
Proof.
  split; [lia|]. split; [reflexivity|]. split; [lia|]. split; [lia|]. split; [lia|].
  destruct (main_magnetizacion_cota 81 1 8000 6000 100 exp_racional
              arcsinh_racional rng_ejemplo)
    as (b & g' & H & _ & HM); [lia | reflexivity | lia | lia | lia |].
  exists b, g'. auto.
Defined.

Lemma main_sin_muestras_witness :
  0 <= 0
  ∧ main 81 1 8000 6000 0 exp_racional arcsinh_racional rng_ejemplo
    = Ok (mk_barrido [] [] [] [] [Grafica_MvsT [] []], rng_ejemplo).
Proof.
  split; [lia|].
  apply (main_sin_muestras 81 1 8000 6000 0 exp_racional arcsinh_racional
           rng_ejemplo). lia.
Defined.

Lemma main_graficas_witness :
  0 < 81 ∧ 0 < 8000 ∧ 6000 < 8000 ∧ 0 <= 100
  ∧ seleccion 100 = [0; 25; 99]
  ∧ ∃ b g' aE0 aM0 aE1 aM1 aE2 aM2 T0 T1 T2 (gs : nat → rng),
      main 81 1 8000 6000 100 exp_racional arcsinh_racional rng_ejemplo = Ok (b, g')
      ∧ graficas b
        = [Graficas_EyM (tiempo_sim 8000) aE0 aM0 T0 1;
           Graficas_EyM (tiempo_sim 8000) aE1 aM1 T1 2;
           Graficas_EyM (tiempo_sim 8000) aE2 aM2 T2 3;
           Grafica_MvsT (array_M_prom b) (array_T b)]
      ∧ gs 0%nat = rng_ejemplo
      ∧ array_T b !! 25%nat = Some T1
      ∧ serie_de_muestra 81 1 8000 exp_racional (1 / T1) (gs 25%nat) (gs 26%nat)
                         aE1 aM1.
Proof.
  split; [lia|]. split; [lia|]. split; [lia|]. split; [lia|].
  assert (Hsel : seleccion 100 = [0; 25; 99]) by (vm_compute; reflexivity).
  split; [exact Hsel|].
  destruct (main_graficas 81 1 8000 6000 100 exp_racional arcsinh_racional
              rng_ejemplo)
    as (b & g' & evs & gs & H & Hg & Hl & Hgs0 & _ & _ & He); [lia .. |].
  rewrite Hsel in Hl, He.
  destruct (He 0%nat 0 eq_refl) as (T0 & aE0 & aM0 & ? & ? & _ & _ & H0 & _).
  destruct (He 1%nat 25 eq_refl) as (T1 & aE1 & aM1 & ? & ? & HT1 & Hs1 & H1 & _).
  destruct (He 2%nat 99 eq_refl) as (T2 & aE2 & aM2 & ? & ? & _ & _ & H2 & _).
  exists b, g', aE0, aM0, aE1, aM1, aE2, aM2, T0, T1, T2, gs.
  split; [exact H|]. split.
  - rewrite Hg.
    destruct evs as [|e0 [|e1 [|e2 [|e3 evs]]]]; simpl in Hl; try discriminate Hl.
    injection H0 as ->. injection H1 as ->. injection H2 as ->.
    reflexivity.
  - split; [exact Hgs0|]. split; [exact HT1|]. exact Hs1.
Defined.
